(** * The orchestrator of src/orch.c: job scheduler, IsolateAll fan-out
      and node registry, as a state machine over explicit worlds.

    The C program is single threaded: every handler runs to completion on
    the sd-event loop.  A handler is embedded as a computation in a state
    and abort monad over [World]; an [Event] is one callback invoked by the
    loop, and [run] feeds a list of events to the initial orchestrator.

    Conventions of the embedding:
    - a [Job *] is an address into [heap]; [free] removes the cell, and a
      dereference of a missing cell aborts;
    - the intrusive lists [orch->jobs] and [orch->nodes] are Rocq lists, of
      job addresses and of node structs;
    - [assert] aborts; a NULL dereference aborts;
    - a library call whose result the source checks takes its outcome from
      the environment record carried by the event; a library call whose
      result the source ignores ([sd_bus_send] of a signal that has been
      built, [sd_bus_emit_properties_changed], replies) is recorded in
      [trace] at the point of the call;
    - debugging output on stdout is left out. *)

From stdpp Require Import gmap strings list sorting.

Local Open Scope Z_scope.

Abbreviation addr := nat (only parsing).

(** ** Declarations of types.h and orch.h *)

(** Modelled from the spec: types.h is missing.  The spec gives the job
    states as Waiting and Running; [malloc0] yields the first one. *)
Inductive JobState := JOB_WAITING | JOB_RUNNING.

(** Modelled from the spec: types.h is missing.  The spec lists the results
    Done, Failed, Cancelled, Timeout and says that the zero value of the
    field is the one that prints as "done". *)
Inductive JobResult := JOB_DONE | JOB_FAILED | JOB_CANCELLED | JOB_TIMEOUT.

(** Modelled from the spec: types.h is missing.  The result-to-string table
    of the spec. *)
Definition job_result_to_string (r : JobResult) : string :=
  match r with
  | JOB_DONE => "done"
  | JOB_FAILED => "failed"
  | JOB_CANCELLED => "cancelled"
  | JOB_TIMEOUT => "timeout"
  end.

(** Modelled from the spec: types.h is missing.  One command variant. *)
Inductive JobType := JOB_ISOLATE_ALL.

(** Modelled from the spec: orch.h is missing, and with it the two path
    prefixes.  [JobPath id] stands for the string that
    [asprintf("%s/%d", ORCHESTRATOR_JOBS_OBJECT_PATH_PREFIX, id)] builds and
    [NodePath name] for "%s/%s" under ORCHESTRATOR_NODES_OBJECT_PATH_PREFIX. *)
Inductive ObjPath := JobPath (id : Z) | NodePath (name : string).

(** The values of errno.h on Linux, where EWOULDBLOCK is EAGAIN. *)
Definition EINTR : Z := 4.
Definition EAGAIN : Z := 11.
Definition EWOULDBLOCK : Z := EAGAIN.
Definition ENOMEM : Z := 12.
Definition EXIT_FAILURE : Z := 1.

(** ** Structs *)

(** [job_start_callback]: the only start hook of the source. *)
Inductive StartHook := job_isolate_all_hook.

(** An incoming method call.  [sd_bus_message_read (m, "s", &x)] either
    yields the string argument or fails with a negative code. *)
Inductive Message := MethodCall (arg : string) | Malformed (r : Z).

Definition sd_bus_message_read (m : Message) : Z + string :=
  match m with
  | MethodCall s => inr s
  | Malformed r => inl r
  end.

(** [struct Node].  [node_addr] is the address of the struct: it names the
    connection in events. *)
Record Node := mkNode {
  node_addr : addr;
  node_ref_count : Z;
  node_peer : bool;
  node_bus_slot : bool;
  node_name : option string;
  node_object_path : option ObjPath
}.

(** [struct Job] followed by the two fields that [IsolateAllJob] adds.
    [cancel_cb] (never invoked), [destroy_cb] and [userdata] (always NULL)
    are left out. *)
Record Job := mkJob {
  job_ref_count : Z;
  job_type : JobType;
  job_state : JobState;
  job_result : JobResult;
  job_bus_slot : bool;
  job_id : Z;
  job_object_path : option ObjPath;
  job_start_cb : option StartHook;
  job_source_message : option Message;
  isolate_target : option string;
  isolate_outstanding : Z
}.

(** The deferred callbacks that [orch->job_source] can stand for. *)
Inductive DeferCb := StartCb | FinishCb.

(** A reply callback registered by [sd_bus_call_async]: the peer it was sent
    on and the [userdata] pointer it will be handed. *)
Record PendingCall := mkCall { call_peer : addr; call_job : addr }.

Inductive BusError := AddressInUse | NoMemory.

(** What the program sends, in the order of the calls.  [HookStart] is not a
    message: it marks the call [(job->start_cb)(job, job->userdata)]. *)
Inductive Obs :=
| SigJobNew (id : Z) (path : option ObjPath)
| SigJobRemoved (id : Z) (path : option ObjPath) (result : string)
| SigPropertiesChanged (path : option ObjPath)
| HookStart (id : Z)
| CallIsolate (peer : addr) (target : option string)
| ReplyPath (path : option ObjPath)
| ReplyErrno (e : Z)
| NodeReplyError (node : addr) (e : BusError)
| NodeReplyEmpty (node : addr).

(** [struct Orchestrator] ([next_job_id] .. [jobs]) with the rest of the
    process: the job heap, the allocation pointer, the reply callbacks
    that sd-bus holds, and the output so far. *)
Record World := mkWorld {
  next_job_id : Z;
  nodes : list Node;
  current_job : option addr;
  job_source : option DeferCb;
  jobs : list addr;
  heap : gmap addr Job;
  brk : addr;
  calls : list PendingCall;
  trace : list Obs
}.

(** [Orchestrator orchestrator = {}] in [main]. *)
Definition init : World :=
  mkWorld 0 [] None None [] ∅ 0%nat [] [].

(** malloc0 (sizeof (IsolateAllJob)). *)
Definition zero_job : Job :=
  mkJob 0 JOB_ISOLATE_ALL JOB_WAITING JOB_DONE false 0 None None None None 0.

(** *** Field updates *)

Definition set_node_name (v : option string) (n : Node) : Node :=
  mkNode (node_addr n) (node_ref_count n) (node_peer n) (node_bus_slot n)
         v (node_object_path n).
Definition set_node_object_path (v : option ObjPath) (n : Node) : Node :=
  mkNode (node_addr n) (node_ref_count n) (node_peer n) (node_bus_slot n)
         (node_name n) v.
Definition set_node_bus_slot (v : bool) (n : Node) : Node :=
  mkNode (node_addr n) (node_ref_count n) (node_peer n) v
         (node_name n) (node_object_path n).
Definition set_node_ref_count (v : Z) (n : Node) : Node :=
  mkNode (node_addr n) v (node_peer n) (node_bus_slot n)
         (node_name n) (node_object_path n).
Definition set_node_peer (v : bool) (n : Node) : Node :=
  mkNode (node_addr n) (node_ref_count n) v (node_bus_slot n)
         (node_name n) (node_object_path n).

Definition set_job_ref_count (v : Z) (j : Job) : Job :=
  mkJob v (job_type j) (job_state j) (job_result j) (job_bus_slot j)
        (job_id j) (job_object_path j) (job_start_cb j)
        (job_source_message j) (isolate_target j) (isolate_outstanding j).
Definition set_job_type (v : JobType) (j : Job) : Job :=
  mkJob (job_ref_count j) v (job_state j) (job_result j) (job_bus_slot j)
        (job_id j) (job_object_path j) (job_start_cb j)
        (job_source_message j) (isolate_target j) (isolate_outstanding j).
Definition set_job_id (v : Z) (j : Job) : Job :=
  mkJob (job_ref_count j) (job_type j) (job_state j) (job_result j)
        (job_bus_slot j) v (job_object_path j) (job_start_cb j)
        (job_source_message j) (isolate_target j) (isolate_outstanding j).
Definition set_job_object_path (v : option ObjPath) (j : Job) : Job :=
  mkJob (job_ref_count j) (job_type j) (job_state j) (job_result j)
        (job_bus_slot j) (job_id j) v (job_start_cb j)
        (job_source_message j) (isolate_target j) (isolate_outstanding j).
Definition set_job_state (v : JobState) (j : Job) : Job :=
  mkJob (job_ref_count j) (job_type j) v (job_result j) (job_bus_slot j)
        (job_id j) (job_object_path j) (job_start_cb j)
        (job_source_message j) (isolate_target j) (isolate_outstanding j).
Definition set_job_bus_slot (v : bool) (j : Job) : Job :=
  mkJob (job_ref_count j) (job_type j) (job_state j) (job_result j) v
        (job_id j) (job_object_path j) (job_start_cb j)
        (job_source_message j) (isolate_target j) (isolate_outstanding j).
Definition set_job_start_cb (v : option StartHook) (j : Job) : Job :=
  mkJob (job_ref_count j) (job_type j) (job_state j) (job_result j)
        (job_bus_slot j) (job_id j) (job_object_path j) v
        (job_source_message j) (isolate_target j) (isolate_outstanding j).
Definition set_job_source_message (v : option Message) (j : Job) : Job :=
  mkJob (job_ref_count j) (job_type j) (job_state j) (job_result j)
        (job_bus_slot j) (job_id j) (job_object_path j) (job_start_cb j)
        v (isolate_target j) (isolate_outstanding j).
Definition set_isolate_target (v : option string) (j : Job) : Job :=
  mkJob (job_ref_count j) (job_type j) (job_state j) (job_result j)
        (job_bus_slot j) (job_id j) (job_object_path j) (job_start_cb j)
        (job_source_message j) v (isolate_outstanding j).
Definition set_isolate_outstanding (v : Z) (j : Job) : Job :=
  mkJob (job_ref_count j) (job_type j) (job_state j) (job_result j)
        (job_bus_slot j) (job_id j) (job_object_path j) (job_start_cb j)
        (job_source_message j) (isolate_target j) v.

Definition set_next_job_id (v : Z) (w : World) : World :=
  mkWorld v (nodes w) (current_job w) (job_source w) (jobs w) (heap w)
          (brk w) (calls w) (trace w).
Definition set_nodes (v : list Node) (w : World) : World :=
  mkWorld (next_job_id w) v (current_job w) (job_source w) (jobs w) (heap w)
          (brk w) (calls w) (trace w).
Definition set_current_job (v : option addr) (w : World) : World :=
  mkWorld (next_job_id w) (nodes w) v (job_source w) (jobs w) (heap w)
          (brk w) (calls w) (trace w).
Definition set_job_source (v : option DeferCb) (w : World) : World :=
  mkWorld (next_job_id w) (nodes w) (current_job w) v (jobs w) (heap w)
          (brk w) (calls w) (trace w).
Definition set_jobs (v : list addr) (w : World) : World :=
  mkWorld (next_job_id w) (nodes w) (current_job w) (job_source w) v (heap w)
          (brk w) (calls w) (trace w).
Definition set_heap (v : gmap addr Job) (w : World) : World :=
  mkWorld (next_job_id w) (nodes w) (current_job w) (job_source w) (jobs w) v
          (brk w) (calls w) (trace w).
Definition set_brk (v : addr) (w : World) : World :=
  mkWorld (next_job_id w) (nodes w) (current_job w) (job_source w) (jobs w)
          (heap w) v (calls w) (trace w).
Definition set_calls (v : list PendingCall) (w : World) : World :=
  mkWorld (next_job_id w) (nodes w) (current_job w) (job_source w) (jobs w)
          (heap w) (brk w) v (trace w).
Definition set_trace (v : list Obs) (w : World) : World :=
  mkWorld (next_job_id w) (nodes w) (current_job w) (job_source w) (jobs w)
          (heap w) (brk w) (calls w) v.

(** ** The monad of handlers *)

Inductive Failure :=
| AssertFailed (cond : string)
| NullDeref
| UseAfterFree.

Inductive Outcome (A : Type) :=
| Ok (a : A)
| Abort (f : Failure).
Arguments Ok {A} a.
Arguments Abort {A} f.

Definition M (A : Type) : Type := World -> Outcome (A * World).

Definition ret {A} (a : A) : M A := fun w => Ok (a, w).

Definition bind {A B} (c : M A) (k : A -> M B) : M B :=
  fun w => match c w with
           | Ok (a, w') => k a w'
           | Abort f => Abort f
           end.

Notation "x <- c ;; k" := (bind c (fun x => k))
  (at level 100, c at next level, right associativity).
Notation "c ;; k" := (bind c (fun _ => k))
  (at level 100, right associativity).

Definition abort {A} (f : Failure) : M A := fun _ => Abort f.
Definition gets {A} (f : World -> A) : M A := fun w => Ok (f w, w).
Definition modify (f : World -> World) : M unit := fun w => Ok (tt, f w).

Definition assert (b : bool) (cond : string) : M unit :=
  if b then ret tt else abort (AssertFailed cond).

Definition emit (o : Obs) : M unit :=
  modify (fun w => set_trace (trace w ++ [o]) w).

(** [*job] as an rvalue, and an assignment through the pointer. *)
Definition get_job (a : addr) : M Job :=
  fun w => match heap w !! a with
           | Some j => Ok (j, w)
           | None => Abort UseAfterFree
           end.

Definition upd_job (a : addr) (f : Job -> Job) : M unit :=
  j <- get_job a ;;
  modify (fun w => set_heap (<[a := f j]> (heap w)) w).

Definition malloc0_job : M addr :=
  a <- gets brk ;;
  modify (fun w => set_brk (S a) (set_heap (<[a := zero_job]> (heap w)) w)) ;;
  ret a.

Definition free_job (a : addr) : M unit :=
  modify (fun w => set_heap (delete a (heap w)) w).

(** ** Jobs: src/orch.c, lines 60-108 and 144-151 *)

(** [uint32_t] arithmetic. *)
Definition wrap32 (x : Z) : Z := x mod 2 ^ 32.

(** [job_new].  [malloc_ok] and [asprintf_ok] are the outcomes of [malloc0]
    and [asprintf]; the id is taken between the two. *)
Definition job_new (malloc_ok asprintf_ok : bool) (type : JobType)
  : M (option addr) :=
  if malloc_ok then
    job <- malloc0_job ;;
    n <- gets next_job_id ;;
    let id := wrap32 (n + 1) in
    modify (set_next_job_id id) ;;
    if asprintf_ok then
      upd_job job (fun j =>
        set_job_ref_count 1
          (set_job_state JOB_WAITING
             (set_job_object_path (Some (JobPath id))
                (set_job_id id (set_job_type type j))))) ;;
      ret (Some job)
    else
      free_job job ;; ret None
  else ret None.

Definition job_ref (job : addr) : M addr :=
  upd_job job (fun j => set_job_ref_count (job_ref_count j + 1) j) ;;
  ret job.

Definition job_unref (job : addr) : M unit :=
  upd_job job (fun j => set_job_ref_count (job_ref_count j - 1) j) ;;
  j <- get_job job ;;
  if job_ref_count j =? 0 then free_job job else ret tt.

Definition orch_add_job (job : addr) : M unit :=
  job <- job_ref job ;;
  modify (fun w => set_jobs (jobs w ++ [job]) w).

Definition orch_remove_job (job : addr) : M unit :=
  modify (fun w => set_jobs (filter (fun a => a <> job) (jobs w)) w) ;;
  job_unref job.

(** ** Signals: lines 183-222 *)

(** Outcomes of the two checked calls that build the message of a signal,
    [sd_bus_message_new_signal] and [sd_bus_message_append]. *)
Record SignalEnv := mkSignalEnv {
  s_new_signal_ok : bool;
  s_append_ok : bool
}.

(** [orch_send_job_new_signal]: the signal goes to [sd_bus_send] when the
    message could be built.  Both callers drop the code that the function
    returns, so it is left out. *)
Definition orch_send_job_new_signal (s : SignalEnv) (job : addr) : M unit :=
  if s_new_signal_ok s then
    j <- get_job job ;;
    if s_append_ok s then emit (SigJobNew (job_id j) (job_object_path j))
    else ret tt
  else ret tt.

Definition orch_send_job_removed_signal (s : SignalEnv) (job : addr)
  : M unit :=
  if s_new_signal_ok s then
    j <- get_job job ;;
    if s_append_ok s then
      emit (SigJobRemoved (job_id j) (job_object_path j)
                          (job_result_to_string (job_result j)))
    else ret tt
  else ret tt.

(** ** The scheduler and the IsolateAll job: lines 224-404 *)

(** Outcomes of the three asserted calls of the dispatch loop, per peer. *)
Record RpcEnv := mkRpcEnv {
  new_method_call_ok : bool;
  append_ok : bool;
  call_async_ok : bool
}.

(** [finish_job].  [defer_ok] is the outcome of [sd_event_add_defer], which
    leaves [orch->job_source] alone when it fails. *)
Definition finish_job (defer_ok : bool) (job : addr) : M unit :=
  _ <- get_job job ;;
  cur <- gets current_job ;;
  assert (bool_decide (cur = Some job)) "orch->current_job == job" ;;
  src <- gets job_source ;;
  assert (bool_decide (src = None)) "orch->job_source == NULL" ;;
  if defer_ok then modify (set_job_source (Some FinishCb)) else ret tt.

(** [job_isolate_all_cb].  [reply_error] says whether the reply [m] is an
    error (a timeout is one); the source does not look at it. *)
Definition job_isolate_all_cb (reply_error : bool) (defer_ok : bool)
    (job : addr) : M unit :=
  j <- get_job job ;;
  let n := isolate_outstanding j - 1 in
  upd_job job (set_isolate_outstanding n) ;;
  if n =? 0 then finish_job defer_ok job else ret tt.

(** The body of the LIST_FOREACH of [job_isolate_all], over the nodes that
    are left to visit. *)
Fixpoint isolate_all_loop (rpc : addr -> RpcEnv) (job : addr)
    (ns : list Node) : M unit :=
  match ns with
  | [] => ret tt
  | node :: rest =>
      assert (new_method_call_ok (rpc (node_addr node))) "r >= 0" ;;
      j <- get_job job ;;
      assert (append_ok (rpc (node_addr node))) "r >= 0" ;;
      assert (call_async_ok (rpc (node_addr node))) "r >= 0" ;;
      emit (CallIsolate (node_addr node) (isolate_target j)) ;;
      modify (fun w => set_calls (calls w ++ [mkCall (node_addr node) job]) w) ;;
      upd_job job (fun j => set_isolate_outstanding (isolate_outstanding j + 1) j) ;;
      isolate_all_loop rpc job rest
  end.

Definition job_isolate_all (rpc : addr -> RpcEnv) (defer_ok : bool)
    (job : addr) : M unit :=
  ns <- gets nodes ;;
  isolate_all_loop rpc job ns ;;
  j <- get_job job ;;
  if isolate_outstanding j =? 0 then finish_job defer_ok job else ret tt.

Definition try_start_job (rpc : addr -> RpcEnv) (defer_ok : bool) : M unit :=
  js <- gets jobs ;;
  match js with
  | [] => ret tt
  | job :: _ =>
      cur <- job_ref job ;;
      modify (set_current_job (Some cur)) ;;
      upd_job job (set_job_state JOB_RUNNING) ;;
      j <- get_job job ;;
      emit (SigPropertiesChanged (job_object_path j)) ;;
      emit (HookStart (job_id j)) ;;
      match job_start_cb j with
      | Some job_isolate_all_hook => job_isolate_all rpc defer_ok job
      | None => abort NullDeref
      end
  end.

(** Outcomes of the checked calls of a deferred callback, but for those of
    the dispatch loop: [sd_event_add_defer] in [finish_job], and the calls
    that build the JobRemoved signal. *)
Record DeferEnv := mkDeferEnv {
  d_defer_ok : bool;
  d_signal : SignalEnv
}.

Definition finish_job_cb (rpc : addr -> RpcEnv) (d : DeferEnv) : M unit :=
  cur <- gets current_job ;;
  modify (set_current_job None) ;;
  match cur with
  | None => abort (AssertFailed "job != NULL")
  | Some job =>
      orch_send_job_removed_signal (d_signal d) job ;;
      orch_remove_job job ;;
      try_start_job rpc (d_defer_ok d) ;;
      modify (set_job_source None) ;;
      job_unref job
  end.

Definition start_job_cb (rpc : addr -> RpcEnv) (d : DeferEnv) : M unit :=
  try_start_job rpc (d_defer_ok d) ;;
  modify (set_job_source None).

Definition schedule_job (defer_ok : bool) : M unit :=
  cur <- gets current_job ;;
  src <- gets job_source ;;
  if bool_decide (cur <> None) || bool_decide (src <> None) then ret tt
  else
    js <- gets jobs ;;
    match js with
    | [] => ret tt
    | _ :: _ =>
        if defer_ok then modify (set_job_source (Some StartCb)) else ret tt
    end.

(** Outcomes of the checked calls of [orch_queue_job], with those that
    build the JobNew signal. *)
Record QueueEnv := mkQueueEnv {
  q_malloc_ok : bool;
  q_asprintf_ok : bool;
  q_vtable_ok : bool;
  q_defer_ok : bool;
  q_signal : SignalEnv
}.

(** [orch_queue_job]: the returned pair is [r] and what was stored through
    [job_out].  The [job_unref] at the end of each branch is the
    [_cleanup_] of the local [job]. *)
Definition orch_queue_job (e : QueueEnv) (type : JobType)
    (start_cb : option StartHook) (job_out : bool) : M (Z * option addr) :=
  r <- job_new (q_malloc_ok e) (q_asprintf_ok e) type ;;
  match r with
  | None => ret (- ENOMEM, None)
  | Some job =>
      upd_job job (set_job_start_cb start_cb) ;;
      if q_vtable_ok e then
        upd_job job (set_job_bus_slot true) ;;
        out <- (if job_out then a <- job_ref job ;; ret (Some a)
                else ret None) ;;
        orch_add_job job ;;
        orch_send_job_new_signal (q_signal e) job ;;
        schedule_job (q_defer_ok e) ;;
        job_unref job ;;
        ret (0, out)
      else
        job_unref job ;;
        ret (EXIT_FAILURE, None)
  end.

(** What a bus method handler hands back to sd-bus: it has replied, or it
    returns a code without replying. *)
Inductive Handled := Replied | Returned (r : Z).

(** [method_orchestrator_isolate_all]: lines 410-435. *)
Definition method_orchestrator_isolate_all (e : QueueEnv) (m : Message)
  : M Handled :=
  match sd_bus_message_read m with
  | inl r => ret (Returned r)
  | inr target =>
      q <- orch_queue_job e JOB_ISOLATE_ALL
             (Some job_isolate_all_hook) true ;;
      let '(r, job) := q in
      if r <? 0 then
        emit (ReplyErrno (- r)) ;; ret Replied
      else
        match job with
        | None => abort NullDeref
        | Some job =>
            upd_job job (set_job_source_message (Some m)) ;;
            upd_job job (set_isolate_target (Some target)) ;;
            j <- get_job job ;;
            emit (ReplyPath (job_object_path j)) ;;
            job_unref job ;;
            ret Replied
        end
  end.

(** ** Nodes: lines 111-171, 492-558 and 601-734 *)

(** [orch_find_node].  A name holds the bytes before the terminating NUL,
    so [strcmp (a, b) == 0] is equality of the two strings. *)
Fixpoint orch_find_node (ns : list Node) (name : string) : option Node :=
  match ns with
  | [] => None
  | node :: rest =>
      match node_name node with
      | Some s =>
          if String.eqb s name then Some node else orch_find_node rest name
      | None => orch_find_node rest name
      end
  end.

(** The node of a connection: the node of the registry at that address. *)
Definition node_at (node : addr) (ns : list Node) : option Node :=
  find (fun n => Nat.eqb (node_addr n) node) ns.

(** The assignment [node->field = v] on the registry. *)
Definition upd_nodes (node : addr) (f : Node -> Node) (ns : list Node)
  : list Node :=
  map (fun n => if Nat.eqb (node_addr n) node then f n else n) ns.

(** [*node] as an rvalue, and an assignment through the pointer. *)
Definition get_node (node : addr) : M Node :=
  fun w => match node_at node (nodes w) with
           | Some n => Ok (n, w)
           | None => Abort UseAfterFree
           end.

Definition upd_node (node : addr) (f : Node -> Node) : M unit :=
  modify (fun w => set_nodes (upd_nodes node f (nodes w)) w).

Definition node_new : M Node :=
  a <- gets brk ;;
  modify (set_brk (S a)) ;;
  ret (mkNode a 1 false false None None).

Definition node_ref (n : Node) : Node :=
  set_node_ref_count (node_ref_count n + 1) n.

Definition orch_add_node (node : Node) : M unit :=
  modify (fun w => set_nodes (nodes w ++ [node_ref node]) w).

(** [orch_remove_node]: LIST_REMOVE, then [node_unref] drops the reference
    of the registry; no handler reaches a node that is not in the list. *)
Definition orch_remove_node (node : addr) : M unit :=
  modify (fun w =>
    set_nodes (filter (fun n => node_addr n <> node) (nodes w)) w).

Definition node_disconnected (node : addr) : M unit :=
  upd_node node (set_node_peer false) ;;
  orch_remove_node node.

(** Outcomes of the checked calls of [method_peer_orchestrator_register]. *)
Record RegisterEnv := mkRegisterEnv {
  r_strdup_ok : bool;
  r_asprintf_ok : bool;
  r_vtable_ok : bool
}.

Definition method_peer_orchestrator_register (e : RegisterEnv) (node : addr)
    (m : Message) : M Handled :=
  match sd_bus_message_read m with
  | inl r => ret (Returned r)
  | inr name =>
      nd <- get_node node ;;
      match node_name nd with
      | Some _ => emit (NodeReplyError node AddressInUse) ;; ret Replied
      | None =>
          ns <- gets nodes ;;
          match orch_find_node ns name with
          | Some _ => emit (NodeReplyError node AddressInUse) ;; ret Replied
          | None =>
              if r_strdup_ok e then
                upd_node node (set_node_name (Some name)) ;;
                if r_asprintf_ok e then
                  upd_node node (set_node_object_path (Some (NodePath name))) ;;
                  if r_vtable_ok e then
                    upd_node node (set_node_bus_slot true) ;;
                    emit (NodeReplyEmpty node) ;; ret Replied
                  else ret (Returned EXIT_FAILURE)
                else emit (NodeReplyError node NoMemory) ;; ret Replied
              else emit (NodeReplyError node NoMemory) ;; ret Replied
          end
      end
  end.

(** Outcomes of the checked calls of [accept_handler], in the order of the
    calls.  [a_accept4] is [Some errno] when [accept4] fails. *)
Record AcceptEnv := mkAcceptEnv {
  a_accept4 : option Z;
  a_bus_new_ok : bool;
  a_set_trusted_ok : bool;
  a_set_fd_ok : bool;
  a_randomize_ok : bool;
  a_set_server_ok : bool;
  a_negotiate_creds_ok : bool;
  a_set_anonymous_ok : bool;
  a_set_sender_ok : bool;
  a_start_ok : bool;
  a_attach_event_ok : bool;
  a_node_new_ok : bool;
  a_hello_vtable_ok : bool;
  a_peer_vtable_ok : bool;
  a_match_ok : bool
}.

(** [accept_handler].  The result of [sd_id128_randomize] is asserted;
    every other failure returns.  [sd_bus_set_description] and the
    debugging filter, whose results are not looked at, are left out.  A
    node that is not added is released by the [_cleanup_] of the local;
    after [orch_add_node] the same [_cleanup_] leaves the registry with
    the only reference. *)
Definition accept_handler (e : AcceptEnv) : M Z :=
  match a_accept4 e with
  | Some errno =>
      if (errno =? EAGAIN) || (errno =? EINTR) || (errno =? EWOULDBLOCK)
      then ret 0
      else ret (- errno)
  | None =>
      if negb (a_bus_new_ok e) then ret 0 else
      if negb (a_set_trusted_ok e) then ret 0 else
      if negb (a_set_fd_ok e) then ret 0 else
      assert (a_randomize_ok e) "r >= 0" ;;
      if negb (a_set_server_ok e) then ret 0 else
      if negb (a_negotiate_creds_ok e) then ret 0 else
      if negb (a_set_anonymous_ok e) then ret 0 else
      if negb (a_set_sender_ok e) then ret 0 else
      if negb (a_start_ok e) then ret 0 else
      if negb (a_attach_event_ok e) then ret 0 else
      if negb (a_node_new_ok e) then ret 0 else
      node <- node_new ;;
      let node := set_node_peer true node in
      if negb (a_hello_vtable_ok e) then ret EXIT_FAILURE else
      if negb (a_peer_vtable_ok e) then ret EXIT_FAILURE else
      if negb (a_match_ok e) then ret 0 else
      orch_add_node node ;;
      upd_node (node_addr node)
        (fun n => set_node_ref_count (node_ref_count n - 1) n) ;;
      ret 0
  end.

(** ** The event loop *)

(** One callback invoked by sd-event or sd-bus, with the outcomes of the
    library calls it checks. *)
Inductive Event :=
| EvIsolateAll (m : Message) (e : QueueEnv)
| EvDefer (rpc : addr -> RpcEnv) (d : DeferEnv)
| EvIsolateReply (k : nat) (reply_error : bool) (defer_ok : bool)
| EvAccept (e : AcceptEnv)
| EvRegister (node : addr) (m : Message) (e : RegisterEnv)
| EvDisconnected (node : addr).

Definition connected (node : addr) (w : World) : bool :=
  existsb (fun n => Nat.eqb (node_addr n) node) (nodes w).

(** [EvDefer] dispatches the deferred source held in [orch->job_source];
    [EvIsolateReply k] completes the [k]-th outstanding call; a node event
    needs a connection of that address. *)
Definition step (ev : Event) : M unit :=
  match ev with
  | EvIsolateAll m e => method_orchestrator_isolate_all e m ;; ret tt
  | EvDefer rpc d =>
      src <- gets job_source ;;
      match src with
      | None => ret tt
      | Some StartCb => start_job_cb rpc d
      | Some FinishCb => finish_job_cb rpc d
      end
  | EvIsolateReply k reply_error defer_ok =>
      cs <- gets calls ;;
      match cs !! k with
      | None => ret tt
      | Some c =>
          modify (set_calls (delete k cs)) ;;
          job_isolate_all_cb reply_error defer_ok (call_job c)
      end
  | EvAccept e => accept_handler e ;; ret tt
  | EvRegister node m e =>
      live <- gets (connected node) ;;
      if live then method_peer_orchestrator_register e node m ;; ret tt
      else ret tt
  | EvDisconnected node =>
      live <- gets (connected node) ;;
      if live then node_disconnected node else ret tt
  end.

Fixpoint run (evs : list Event) (w : World) : Outcome World :=
  match evs with
  | [] => Ok w
  | ev :: rest =>
      match step ev w with
      | Ok (_, w') => run rest w'
      | Abort f => Abort f
      end
  end.

(** Environments in which every checked call succeeds. *)
Definition signal_ok : SignalEnv := mkSignalEnv true true.
Definition queue_ok : QueueEnv := mkQueueEnv true true true true signal_ok.
Definition deferred_ok : DeferEnv := mkDeferEnv true signal_ok.
Definition rpc_ok : addr -> RpcEnv := fun _ => mkRpcEnv true true true.
Definition accept_ok : AcceptEnv :=
  mkAcceptEnv None true true true true true true true true true true true
              true true true.
Definition register_ok : RegisterEnv := mkRegisterEnv true true true.

(** * Notions used in the statements *)

(** ** Outcomes and invariants *)

(** The three asserted calls of the dispatch loop succeed on a peer. *)
Definition rpc_fine (r : RpcEnv) : bool :=
  new_method_call_ok r && append_ok r && call_async_ok r.

(** The message of a signal can be built. *)
Definition built (s : SignalEnv) : bool :=
  s_new_signal_ok s && s_append_ok s.

(** What is sent of the signal [o]: the signal if its message can be
    built, nothing otherwise. *)
Definition sent (s : SignalEnv) (o : Obs) : list Obs :=
  if built s then [o] else [].

(** [job->id] for the job at an address (0 when nothing is allocated
    there). *)
Definition id_of (h : gmap addr Job) (a : addr) : Z :=
  match h !! a with
  | Some j => job_id j
  | None => 0
  end.

(** The ids announced by JobNew, in order. *)
Definition new_ids (tr : list Obs) : list Z :=
  omap (fun o => match o with SigJobNew id _ => Some id | _ => None end) tr.


(** Observations that concern neither the queue nor a start hook. *)
Definition quiet (o : Obs) : bool :=
  match o with
  | SigJobNew _ _ | SigJobRemoved _ _ _ | HookStart _ => false
  | _ => true
  end.

(** What holds of a job of the queue between two callbacks. *)
Definition job_wf (w : World) (a : addr) (j : Job) : Prop :=
  job_result j = JOB_DONE /\
  job_start_cb j = Some job_isolate_all_hook /\
  job_object_path j = Some (JobPath (job_id j)) /\
  if decide (current_job w = Some a)
  then job_state j = JOB_RUNNING /\ job_ref_count j = 2 /\
       isolate_outstanding j = Z.of_nat (length (calls w))
  else job_state j = JOB_WAITING /\ job_ref_count j = 1 /\
       isolate_outstanding j = 0.

(** The invariant of the scheduler between two callbacks: the allocated
    jobs are those of the queue, each once; the current job is the head of
    the queue and owns every outstanding call; a pending deferred source is
    the start of an idle queue or the finish of a job without outstanding
    calls; every JobRemoved so far carried "done". *)
Record Sched (w : World) : Prop := mkSched {
  sch_live : forall a, a ∈ jobs w ->
    exists j, heap w !! a = Some j /\ job_wf w a j;
  sch_dead : forall a, a ∉ jobs w -> heap w !! a = None;
  sch_nodup : NoDup (jobs w);
  sch_brk : forall a, a ∈ jobs w -> (a < brk w)%nat;
  sch_cur : forall a, current_job w = Some a ->
    exists rest, jobs w = a :: rest;
  sch_calls : forall c, c ∈ calls w -> current_job w = Some (call_job c);
  sch_src :
    match job_source w with
    | None => True
    | Some StartCb => current_job w = None /\ jobs w <> []
    | Some FinishCb => current_job w <> None /\ calls w = []
    end;
  sch_removed : forall id p r,
    SigJobRemoved id p r ∈ trace w -> r = "done"%string
}.

(** What holds while the [uint32_t] counter has not wrapped. *)
Record Ids (w : World) : Prop := mkIds {
  ids_jobs : forall a, a ∈ jobs w -> 0 < id_of (heap w) a <= next_job_id w;
  ids_sorted : StronglySorted Z.lt (id_of (heap w) <$> jobs w);
  ids_counter : 0 <= next_job_id w;
  ids_new_ids :
    StronglySorted Z.lt (new_ids (trace w)) /\
    Forall (fun id => 0 < id <= next_job_id w) (new_ids (trace w))
}.



(** [w'] is [w] but for the registry, the allocation pointer and replies
    to nodes or error replies. *)
Definition node_frame (w w' : World) : Prop :=
  next_job_id w' = next_job_id w /\
  current_job w' = current_job w /\
  job_source w' = job_source w /\
  jobs w' = jobs w /\
  heap w' = heap w /\
  calls w' = calls w /\
  (brk w <= brk w')%nat /\
  exists out, trace w' = trace w ++ out /\ Forall (fun o => quiet o = true) out.

(** Computations that leave the part [p] of the world alone. *)
Definition keeps {A X} (p : World -> X) (c : M A) : Prop :=
  forall w a w', c w = Ok (a, w') -> p w' = p w.

(** [p] reads the id counter and the registry only: the fields that no
    function of the scheduler writes but [job_new]. *)
Definition static_field {X} (p : World -> X) : Prop :=
  forall w w',
    next_job_id w = next_job_id w' -> nodes w = nodes w' -> p w = p w'.

(** The registry has the connection [node] under the name [s]. *)
Definition named_in (node : addr) (s : string) (ns : list Node) : Prop :=
  exists nd, node_at node ns = Some nd /\ node_name nd = Some s.

(** ** Worlds that the handlers leave *)

(** The world after [job_isolate_all_cb] for the [k]-th outstanding call
    of the running job [a]. *)
Definition replied_world (k : nat) (a : addr) (j : Job)
    (src : option DeferCb) (w : World) : World :=
  set_job_source src
    (set_heap
       (<[a := set_isolate_outstanding (isolate_outstanding j - 1) j]> (heap w))
       (set_calls (delete k (calls w)) w)).

(** The job that a successful IsolateAll call leaves in the queue. *)
Definition queued_job (id : Z) (m : Message) (target : string) : Job :=
  mkJob 1 JOB_ISOLATE_ALL JOB_WAITING JOB_DONE true id (Some (JobPath id))
        (Some job_isolate_all_hook) (Some m) (Some target) 0.

(** [orch->job_source] after [schedule_job] on a queue that is not empty. *)
Definition scheduled (defer_ok : bool) (w : World) : option DeferCb :=
  match current_job w, job_source w with
  | None, None => if defer_ok then Some StartCb else None
  | _, src => src
  end.

(** The world after a successful IsolateAll call. *)
Definition queued_world (e : QueueEnv) (target : string) (w : World) : World :=
  let id := wrap32 (next_job_id w + 1) in
  mkWorld id (nodes w) (current_job w) (scheduled (q_defer_ok e) w)
    (jobs w ++ [brk w])
    (<[brk w := queued_job id (MethodCall target) target]> (heap w))
    (S (brk w)) (calls w)
    ((trace w ++ sent (q_signal e) (SigJobNew id (Some (JobPath id)))) ++
     [ReplyPath (Some (JobPath id))]).

(** The world after [accept_handler] has added a connection. *)
Definition accepted_world (w : World) : World :=
  set_nodes (nodes w ++ [mkNode (brk w) 1 true false None None])
    (set_brk (S (brk w)) w).

(** ... and after one that fails for want of memory once the id is taken. *)
Definition skipped_world (w : World) : World :=
  mkWorld (wrap32 (next_job_id w + 1)) (nodes w) (current_job w)
    (job_source w) (jobs w) (delete (brk w) (heap w))
    (S (brk w)) (calls w) (trace w ++ [ReplyErrno ENOMEM]).

(** The job at the head of the queue once its start hook has returned. *)
Definition started_job (ncalls : nat) (j : Job) : Job :=
  set_isolate_outstanding (isolate_outstanding j + Z.of_nat ncalls)
    (set_job_state JOB_RUNNING (set_job_ref_count (job_ref_count j + 1) j)).

(** The world after [try_start_job] has started the job [j] at [a]. *)
Definition started_world (a : addr) (j : Job) (w : World) : World :=
  set_heap (<[a := started_job (length (nodes w)) j]> (heap w))
    (set_calls (calls w ++ map (fun n => mkCall (node_addr n) a) (nodes w))
       (set_trace
          (((trace w ++ [SigPropertiesChanged (job_object_path j)]) ++
            [HookStart (job_id j)]) ++
           map (fun n => CallIsolate (node_addr n) (isolate_target j)) (nodes w))
          (set_current_job (Some a) w))).

(** The world once the finished job [a] has left the queue and has been
    freed, as [finish_job_cb] leaves it when no other job is waiting. *)
Definition removed_world (s : SignalEnv) (a : addr) (j : Job)
    (rest : list addr) (w : World) : World :=
  set_trace
    (trace w ++ sent s (SigJobRemoved (job_id j) (job_object_path j)
                          (job_result_to_string (job_result j))))
    (set_heap (delete a (heap w))
       (set_jobs rest (set_job_source None (set_current_job None w)))).

(** ** Scenarios *)

(** One node connects, a client calls IsolateAll, the job starts, the node
    answers with an error (or the call times out), the job finishes. *)
Definition errored_reply_run : list Event :=
  [EvAccept accept_ok; EvIsolateAll (MethodCall "t") queue_ok;
   EvDefer rpc_ok deferred_ok; EvIsolateReply 0 true true;
   EvDefer rpc_ok deferred_ok].

(** IsolateAll while nobody is connected, then the deferred start. *)
Definition empty_fleet_run (target : string) (rpc : addr -> RpcEnv)
    (d : DeferEnv) : list Event :=
  [EvIsolateAll (MethodCall target) queue_ok; EvDefer rpc d].

(** Two jobs are queued behind one node; the first job starts, the node
    disconnects, its call completes: the deferred finish is pending and
    the second job will find an empty registry. *)
Definition finish_pending_run : list Event :=
  [EvAccept accept_ok; EvIsolateAll (MethodCall "t") queue_ok;
   EvIsolateAll (MethodCall "u") queue_ok; EvDefer rpc_ok deferred_ok;
   EvDisconnected 0; EvIsolateReply 0 true true].

(** Scenario 4 of the spec: two calls back to back, one node; the first
    job runs to its end and the second one starts. *)
Definition queued_second_run : list Event :=
  [EvAccept accept_ok; EvIsolateAll (MethodCall "t") queue_ok;
   EvIsolateAll (MethodCall "u") queue_ok; EvDefer rpc_ok deferred_ok;
   EvIsolateReply 0 false true; EvDefer rpc_ok deferred_ok].

(** A connection that has not registered, then IsolateAll and its start. *)
Definition nameless_node_run : list Event :=
  [EvAccept accept_ok; EvIsolateAll (MethodCall "t") queue_ok;
   EvDefer rpc_ok deferred_ok].

(** Three connections, then IsolateAll and its start. *)
Definition three_nodes_run : list Event :=
  [EvAccept accept_ok; EvAccept accept_ok; EvAccept accept_ok;
   EvIsolateAll (MethodCall "t") queue_ok; EvDefer rpc_ok deferred_ok].

(** Node 0 is registered as "A"; node 1 is connected and has no name. *)
Definition two_nodes : World :=
  mkWorld 0
    [mkNode 0 1 true true (Some "A"%string) (Some (NodePath "A"));
     mkNode 1 1 true false None None]
    None None [] ∅ 2%nat [] [NodeReplyEmpty 0].

(** ** Outcomes of the deferred callbacks *)

(** Every Isolate call of the dispatch loop can be sent. *)
Definition all_fine (rpc : addr -> RpcEnv) (ns : list Node) : bool :=
  forallb (fun n => rpc_fine (rpc (node_addr n))) ns.

(** What [try_start_job] does with the waiting job [j] at the head [a] of
    the queue when it is called from a deferred callback. *)
Definition start_outcome (rpc : addr -> RpcEnv) (a : addr) (j : Job)
    (w : World) : Outcome (unit * World) :=
  if all_fine rpc (nodes w) then
    match nodes w with
    | [] => Abort (AssertFailed "orch->job_source == NULL")
    | _ :: _ => Ok (tt, started_world a j w)
    end
  else Abort (AssertFailed "r >= 0").

(** The job that the pending deferred callback is going to start: the
    head of the queue for the deferred start, the job behind the finished
    one for the deferred finish. *)
Definition next_to_start (w : World) : option addr :=
  match job_source w with
  | Some StartCb => head (jobs w)
  | Some FinishCb => head (tail (jobs w))
  | None => None
  end.

(** The private bus of a new connection is made: the checked calls of
    [accept_handler] between [accept4] and [sd_id128_randomize]. *)
Definition bus_made (e : AcceptEnv) : bool :=
  a_bus_new_ok e && a_set_trusted_ok e && a_set_fd_ok e.

(** ... and it is started as a server on the event loop: the checked calls
    between [sd_id128_randomize] and [node_new]. *)
Definition bus_started (e : AcceptEnv) : bool :=
  a_set_server_ok e && a_negotiate_creds_ok e && a_set_anonymous_ok e &&
  a_set_sender_ok e && a_start_ok e && a_attach_event_ok e.

(** The callbacks that end the process, and how. *)
Inductive Crash (w : World) : Event -> Failure -> Prop :=
| crash_vtable target e :
    q_malloc_ok e = true -> q_asprintf_ok e = true -> q_vtable_ok e = false ->
    Crash w (EvIsolateAll (MethodCall target) e) NullDeref
| crash_send rpc d :
    next_to_start w <> None -> all_fine rpc (nodes w) = false ->
    Crash w (EvDefer rpc d) (AssertFailed "r >= 0")
| crash_no_node rpc d :
    next_to_start w <> None -> nodes w = [] ->
    Crash w (EvDefer rpc d) (AssertFailed "orch->job_source == NULL")
| crash_randomize e :
    a_accept4 e = None -> bus_made e = true -> a_randomize_ok e = false ->
    Crash w (EvAccept e) (AssertFailed "r >= 0").

(** ** What a handler sends *)

(** A computation that returns has appended to the output only
    observations that satisfy [f]. *)
Definition emits {A} (f : Obs -> bool) (c : M A) : Prop :=
  forall w a w', c w = Ok (a, w') ->
  exists out, trace w' = trace w ++ out /\ Forall (fun o => f o = true) out.

(** The answers to a client of IsolateAll, and the JobNew signal. *)
Definition queue_output (o : Obs) : bool :=
  match o with
  | SigJobNew _ _ | ReplyPath _ | ReplyErrno _ => true
  | _ => false
  end.

(** The answers to the node [node]. *)
Definition node_output (node : addr) (o : Obs) : bool :=
  match o with
  | NodeReplyError n _ | NodeReplyEmpty n => Nat.eqb n node
  | _ => false
  end.

(** What the deferred callbacks send. *)
Definition scheduler_output (o : Obs) : bool :=
  match o with
  | SigJobRemoved _ _ _ | SigPropertiesChanged _ | HookStart _
  | CallIsolate _ _ => true
  | _ => false
  end.

(** Nothing at all. *)
Definition no_output (o : Obs) : bool := false.

(** ** A job from IsolateAll to JobRemoved *)

(** The world once every outstanding call of the running job [j] at [a]
    has been answered and the deferred finish is queued. *)
Definition drained_world (a : addr) (j : Job) (w : World) : World :=
  set_job_source (Some FinishCb)
    (set_heap (<[a := set_isolate_outstanding 0 j]> (heap w))
       (set_calls [] w)).

(** Replies to [n] outstanding calls, one after the other: each is the
    position, among the calls that are still outstanding, of the call
    that completes, with whether the reply is an error. *)
Fixpoint replies_in_range (n : nat) (rs : list (nat * bool)) : Prop :=
  match rs with
  | [] => n = 0%nat
  | r :: rest => (fst r < n)%nat /\ replies_in_range (n - 1) rest
  end.

Definition reply_events (rs : list (nat * bool)) : list Event :=
  map (fun r => EvIsolateReply (fst r) (snd r) true) rs.

(** The callbacks of one IsolateAll job on a fleet that answers: the
    method call, the deferred start, one reply (or timeout) per call, the
    deferred finish.  [sn] and [sr] are the outcomes of the calls that
    build the JobNew and the JobRemoved signal; every other checked call
    succeeds. *)
Definition job_run (target : string) (rpc : addr -> RpcEnv)
    (rs : list (nat * bool)) (sn sr : SignalEnv) : list Event :=
  [EvIsolateAll (MethodCall target) (mkQueueEnv true true true true sn);
   EvDefer rpc deferred_ok] ++
  reply_events rs ++ [EvDefer rpc (mkDeferEnv true sr)].

(** What the program sends for a job with the id [id] and the target
    [target] that runs on the nodes [ns]. *)
Definition job_trace (id : Z) (target : string) (ns : list Node)
    (sn sr : SignalEnv) : list Obs :=
  sent sn (SigJobNew id (Some (JobPath id))) ++
  [ReplyPath (Some (JobPath id));
   SigPropertiesChanged (Some (JobPath id)); HookStart id] ++
  map (fun n => CallIsolate (node_addr n) (Some target)) ns ++
  sent sr (SigJobRemoved id (Some (JobPath id)) "done").

(** ** The invariant of the registry *)

(** What holds of a node of the registry between two callbacks: the
    registry has the only reference, the connection is open, the object
    path is the one of the name, and the object is exported only with its
    path. *)
Definition node_wf (n : Node) : Prop :=
  node_ref_count n = 1 /\ node_peer n = true /\
  match node_name n with
  | None => node_object_path n = None /\ node_bus_slot n = false
  | Some s =>
      (node_object_path n = None /\ node_bus_slot n = false) \/
      node_object_path n = Some (NodePath s)
  end.

(** The nodes [ns] below the allocation pointer [b] have distinct
    addresses and distinct names. *)
Record Reg (ns : list Node) (b : addr) : Prop := mkReg {
  reg_nodup : NoDup (node_addr <$> ns);
  reg_brk : forall n, n ∈ ns -> (node_addr n < b)%nat;
  reg_wf : forall n, n ∈ ns -> node_wf n;
  reg_names : forall n m s, n ∈ ns -> m ∈ ns ->
    node_name n = Some s -> node_name m = Some s -> node_addr n = node_addr m
}.

Definition Registry (w : World) : Prop := Reg (nodes w) (brk w).

(** ** The order of the output *)

(** What has to come before an observation: PropertiesChanged comes after
    the JobNew of its path; a start hook after the JobNew of its id and
    the PropertiesChanged of that job; an Isolate call after a start hook;
    JobRemoved after the start hook and the JobNew of its job. *)
Definition preceded (pre : list Obs) (o : Obs) : Prop :=
  match o with
  | SigPropertiesChanged p => exists id, SigJobNew id p ∈ pre
  | HookStart id =>
      exists p, SigJobNew id p ∈ pre /\ SigPropertiesChanged p ∈ pre
  | CallIsolate _ _ => exists id, HookStart id ∈ pre
  | SigJobRemoved id p _ => HookStart id ∈ pre /\ SigJobNew id p ∈ pre
  | _ => True
  end.

Definition follows (tr : list Obs) : Prop :=
  forall pre o post, tr = pre ++ o :: post -> preceded pre o.

(** IsolateAll can build the JobNew signal. *)
Definition can_send_new (ev : Event) : Prop :=
  match ev with
  | EvIsolateAll _ e => built (q_signal e) = true
  | _ => True
  end.

(** The jobs of the queue have been announced, the current job has been
    started, and the output so far is in order. *)
Record Life (w : World) : Prop := mkLife {
  life_queued : forall a j, a ∈ jobs w -> heap w !! a = Some j ->
    SigJobNew (job_id j) (job_object_path j) ∈ trace w;
  life_current : forall a j, current_job w = Some a -> heap w !! a = Some j ->
    HookStart (job_id j) ∈ trace w;
  life_follows : follows (trace w)
}.

(** The ids of the jobs whose start hook has run, in order. *)
Definition hook_ids (tr : list Obs) : list Z :=
  omap (fun o => match o with HookStart id => Some id | _ => None end) tr.

(** The start hooks have run in the order of the ids, every job that
    waits has a greater id than the jobs that were started, and the ids of
    these are ids that were minted. *)
Record Starts (w : World) : Prop := mkStarts {
  starts_sorted : StronglySorted Z.lt (hook_ids (trace w));
  starts_waiting : forall id a, id ∈ hook_ids (trace w) -> a ∈ jobs w ->
    current_job w <> Some a -> id < id_of (heap w) a;
  starts_bound : forall id, id ∈ hook_ids (trace w) -> id <= next_job_id w
}.

(** ** The description of a peer: lines 516 and 540-542 *)

(** [strncat (dest, src, n)]: [dest] followed by at most [n] bytes of
    [src]; a string is the bytes before its terminating NUL. *)
Definition strncat (dest src : string) (n : nat) : string :=
  String.append dest (String.substring 0 n src).

(** [sizeof (description)] for [char description[100]]. *)
Definition description_size : nat := 100.

(** The string that [method_peer_orchestrator_register] builds in
    [description]: [strcpy] of "node-", then [strncat] of the name. *)
Definition register_description (name : string) : string :=
  let description := "node-"%string in
  strncat description name
    (description_size - String.length description - 1).

(** ** Progress of the queue *)

(** [sd_event_add_defer] succeeds in the callback, where its result
    matters: in [schedule_job] for IsolateAll and in [finish_job] for the
    reply to an Isolate call. *)
Definition defer_succeeds (ev : Event) : Prop :=
  match ev with
  | EvIsolateAll _ e => q_defer_ok e = true
  | EvIsolateReply _ _ d => d = true
  | _ => True
  end.

(** The scheduler has something to wait for: with waiting jobs only, the
    deferred start is pending; with a current job, an Isolate call is
    outstanding or the deferred finish is pending. *)
Definition Progress (w : World) : Prop :=
  (current_job w = None -> jobs w <> [] -> job_source w = Some StartCb) /\
  (current_job w <> None -> calls w = [] -> job_source w = Some FinishCb).

(** * Reasoning about handlers *)

(** ** Equations of the primitives *)

Lemma world_eta w :
  mkWorld (next_job_id w) (nodes w) (current_job w) (job_source w) (jobs w)
          (heap w) (brk w) (calls w) (trace w) = w.
Proof. by destruct w. Qed.

Lemma set_isolate_outstanding_id j :
  set_isolate_outstanding (isolate_outstanding j) j = j.
Proof. by destruct j. Qed.

(** Symbolic execution: unfold the monad, then resolve the heap reads that
    the context decides. *)
Ltac heap_norm :=
  repeat first
    [ rewrite lookup_insert_eq
    | rewrite lookup_delete_eq
    | rewrite lookup_insert_ne by (done || lia || congruence)
    | rewrite lookup_delete_ne by (done || lia || congruence)
    | rewrite insert_insert_eq ].

Ltac unfold_m :=
  unfold bind, ret, gets, modify, emit, assert, abort, get_job, upd_job,
         free_job, malloc0_job.

Ltac exec :=
  repeat progress
    (unfold_m;
     cbn [next_job_id nodes current_job job_source jobs heap brk calls
          trace set_next_job_id set_nodes set_current_job
          set_job_source set_jobs set_heap set_brk set_calls set_trace];
     heap_norm;
     try match goal with
         | H : ?h !! ?a = Some _ |- context [?h !! ?a] => rewrite H
         | H : ?h !! ?a = None |- context [?h !! ?a] => rewrite H
         end).

(** Records are normalised by value, so that nested field updates do not
    duplicate their argument: [norm_job] is for jobs built from a
    constructor, [norm_world] for a world that has been destructed. *)
Ltac norm_job :=
  cbv beta iota zeta delta
    [job_ref_count job_type job_state job_result job_bus_slot job_id
     job_object_path job_start_cb job_source_message isolate_target
     isolate_outstanding set_job_ref_count set_job_type set_job_id
     set_job_object_path set_job_state set_job_bus_slot set_job_start_cb
     set_job_source_message set_isolate_target set_isolate_outstanding
     zero_job].

(** Fields of updated jobs, for a job that is a variable. *)
Ltac simpl_job :=
  cbn [job_ref_count job_type job_state job_result job_bus_slot job_id
       job_object_path job_start_cb job_source_message isolate_target
       isolate_outstanding set_job_ref_count set_job_type set_job_id
       set_job_object_path set_job_state set_job_bus_slot set_job_start_cb
       set_job_source_message set_isolate_target set_isolate_outstanding].

Ltac norm_world :=
  cbv beta iota zeta delta
    [next_job_id nodes current_job job_source jobs heap brk calls trace
     set_next_job_id set_nodes set_current_job set_job_source set_jobs
     set_heap set_brk set_calls set_trace].

(** Arithmetic on reference counts that are literals. *)
Ltac eval_lit t :=
  let v := eval vm_compute in t in change t with v.

Ltac norm_arith :=
  repeat match goal with
    | |- context [Z.pos ?p + Z.pos ?q] => eval_lit (Z.pos p + Z.pos q)
    | |- context [Z.pos ?p - Z.pos ?q] => eval_lit (Z.pos p - Z.pos q)
    | |- context [0 + Z.pos ?q] => eval_lit (0 + Z.pos q)
    | |- context [Z.pos ?p =? 0] => eval_lit (Z.pos p =? 0)
    | |- context [0 =? 0] => eval_lit (0 =? 0)
    | |- context [0 <? 0] => eval_lit (0 <? 0)
    | |- context [Z.pos ?p <? 0] => eval_lit (Z.pos p <? 0)
    | |- context [Z.neg ?p <? 0] => eval_lit (Z.neg p <? 0)
    | |- context [- Z.pos ?p] => eval_lit (- Z.pos p)
    | |- context [- Z.neg ?p] => eval_lit (- Z.neg p)
    end.

Ltac exec_job := repeat progress (exec; norm_job; norm_arith).
Ltac exec_all := repeat progress (exec; norm_job; norm_arith; norm_world).

(** Decide the [bool_decide]s that the context settles. *)
Ltac bd :=
  repeat first
    [ rewrite bool_decide_eq_true_2 by (done || congruence)
    | rewrite bool_decide_eq_false_2 by (done || congruence) ].

Lemma isolate_all_loop_inv rpc job ns : forall w j w',
  heap w !! job = Some j ->
  isolate_all_loop rpc job ns w = Ok (tt, w') ->
  Forall (fun n => rpc_fine (rpc (node_addr n)) = true) ns /\
  w' = set_heap
         (<[job := set_isolate_outstanding
                     (isolate_outstanding j + Z.of_nat (length ns)) j]> (heap w))
         (set_calls (calls w ++ map (fun n => mkCall (node_addr n) job) ns)
            (set_trace
               (trace w ++
                map (fun n => CallIsolate (node_addr n) (isolate_target j)) ns)
               w)).
Proof.
  induction ns as [|n ns IH]; intros w j w' Hj Hrun.
  - cbn in Hrun. inversion Hrun; subst w'. split; [constructor|].
    cbn [length Z.of_nat map]. rewrite Z.add_0_r, set_isolate_outstanding_id.
    rewrite insert_id by done. rewrite !app_nil_r.
    unfold set_heap, set_calls, set_trace; cbn. by rewrite world_eta.
  - cbn [isolate_all_loop] in Hrun.
    assert (Hfine : rpc_fine (rpc (node_addr n)) = true).
    { unfold rpc_fine. revert Hrun.
      destruct (new_method_call_ok _); exec; [|discriminate].
      destruct (append_ok _); exec; [|discriminate].
      by destruct (call_async_ok _); exec. }
    revert Hrun. pose proof Hfine as Hfine'. unfold rpc_fine in Hfine'.
    apply andb_prop in Hfine' as [[-> ->]%andb_prop ->]. exec. intros Hrun.
    eapply IH in Hrun; [|exec; reflexivity].
    destruct Hrun as [Hall ->]. split.
    + by constructor.
    + unfold set_heap, set_calls, set_trace; cbn. f_equal.
      * rewrite insert_insert_eq. f_equal.
        destruct j; unfold set_isolate_outstanding; cbn. f_equal. lia.
      * by rewrite <- app_assoc.
      * by rewrite <- app_assoc.
Qed.

Lemma isolate_all_loop_eq rpc job ns : forall w j,
  heap w !! job = Some j ->
  Forall (fun n => rpc_fine (rpc (node_addr n)) = true) ns ->
  isolate_all_loop rpc job ns w =
  Ok (tt,
      set_heap
        (<[job := set_isolate_outstanding
                    (isolate_outstanding j + Z.of_nat (length ns)) j]> (heap w))
        (set_calls (calls w ++ map (fun n => mkCall (node_addr n) job) ns)
           (set_trace
              (trace w ++
               map (fun n => CallIsolate (node_addr n) (isolate_target j)) ns)
              w))).
Proof.
  intros w j Hj Hall.
  destruct (isolate_all_loop rpc job ns w) as [[[] w']|f] eqn:E.
  - by apply (isolate_all_loop_inv _ _ _ _ j) in E as [_ ->].
  - exfalso. revert w j Hj E.
    induction Hall as [|n ns Hn _ IH]; intros w j Hj E; [discriminate|].
    cbn [isolate_all_loop] in E. unfold rpc_fine in Hn.
    apply andb_prop in Hn as [[Hn1 Hn2]%andb_prop Hn3].
    revert E. rewrite Hn1, Hn2, Hn3. exec. intros E.
    eapply IH in E; [done|]. exec. reflexivity.
Qed.

(** ** The invariant of the scheduler *)

Lemma Sched_init : Sched init.
Proof.
  split; cbn; try done;
    try (intros; exfalso; eapply elem_of_nil; eassumption).
  constructor.
Qed.

(** ** Appending to the trace *)

Lemma elem_of_sent s o o' : o' ∈ sent s o -> o' = o.
Proof.
  unfold sent. destruct (built s); [|by intros ?%elem_of_nil].
  by intros ->%list_elem_of_singleton.
Qed.

Lemma sent_built s o : built s = true -> sent s o = [o].
Proof. unfold sent. by intros ->. Qed.

Lemma sent_cases s o : sent s o = [o] \/ sent s o = [].
Proof. unfold sent. destruct (built s); auto. Qed.

Lemma new_ids_app tr out : new_ids (tr ++ out) = new_ids tr ++ new_ids out.
Proof. apply omap_app. Qed.

Lemma new_ids_quiet out :
  Forall (fun o => quiet o = true) out -> new_ids out = [].
Proof.
  induction 1 as [|o out Ho _ IH]; [done|].
  cbn. destruct o; try done; apply IH.
Qed.




Lemma quiet_not_hook out :
  Forall (fun o => quiet o = true) out ->
  Forall (fun o => forall id, o <> HookStart id) out.
Proof. intros H. eapply Forall_impl; [exact H|]. by intros o Ho id ->. Qed.

Lemma quiet_elem_of tr out o :
  Forall (fun o => quiet o = true) out -> quiet o = false ->
  o ∈ tr ++ out -> o ∈ tr.
Proof.
  intros Hq Ho [|Hin]%elem_of_app; [done|].
  rewrite list.Forall_forall in Hq. apply Hq in Hin. congruence.
Qed.

(** ** Events that leave the scheduler alone *)

Lemma Sched_node_frame w w' : Sched w -> node_frame w w' -> Sched w'.
Proof.
  intros [] (Hn & Hc & Hs & Hj & Hh & Hcs & Hb & out & Ht & Hq).
  split; unfold job_wf; rewrite ?Hn, ?Hc, ?Hs, ?Hj, ?Hh, ?Hcs; try done.
  - intros a Ha. specialize (sch_brk0 a Ha). lia.
  - intros id p r H. rewrite Ht in H.
    apply quiet_elem_of in H; [eauto|done..].
Qed.

Ltac unfold_node :=
  unfold get_node, upd_node, node_new, orch_add_node, orch_remove_node.

Ltac frame_done :=
  repeat (split; [done || (cbn; lia)|]);
  first [ exists []; split; [by rewrite app_nil_r | constructor]
        | eexists [_]; split; [reflexivity | by repeat constructor] ].

(** [accept_handler] by the groups of its checked calls. *)
Lemma accept_handler_unfold e w :
  accept_handler e w =
  match a_accept4 e with
  | Some errno =>
      Ok (if (errno =? EAGAIN) || (errno =? EINTR) || (errno =? EWOULDBLOCK)
          then 0 else - errno, w)
  | None =>
      if bus_made e then
        if a_randomize_ok e then
          if bus_started e && a_node_new_ok e then
            if a_hello_vtable_ok e && a_peer_vtable_ok e then
              if a_match_ok e then
                Ok (0, set_nodes
                         (upd_nodes (brk w)
                            (fun n =>
                               set_node_ref_count (node_ref_count n - 1) n)
                            (nodes w ++
                             [mkNode (brk w) 2 true false None None]))
                         (set_brk (S (brk w)) w))
              else Ok (0, set_brk (S (brk w)) w)
            else Ok (EXIT_FAILURE, set_brk (S (brk w)) w)
          else Ok (0, w)
        else Abort (AssertFailed "r >= 0")
      else Ok (0, w)
  end.
Proof.
  unfold accept_handler, bus_made, bus_started.
  destruct (a_accept4 e) as [errno|]; [by destruct (_ || _)|].
  destruct (a_bus_new_ok e); [|done].
  destruct (a_set_trusted_ok e); [|done].
  destruct (a_set_fd_ok e); [|done].
  destruct (a_randomize_ok e); [|done].
  destruct (a_set_server_ok e); [|done].
  destruct (a_negotiate_creds_ok e); [|done].
  destruct (a_set_anonymous_ok e); [|done].
  destruct (a_set_sender_ok e); [|done].
  destruct (a_start_ok e); [|done].
  destruct (a_attach_event_ok e); [|done].
  destruct (a_node_new_ok e); [|done].
  destruct (a_hello_vtable_ok e); [|done].
  destruct (a_peer_vtable_ok e); [|done].
  destruct (a_match_ok e); [|done].
  cbn [negb andb]. unfold_node. exec. by destruct w.
Qed.

(** The outcomes of [accept_handler], one goal for each. *)
Ltac accept_cases e :=
  rewrite accept_handler_unfold;
  destruct (a_accept4 e);
    [|destruct (bus_made e);
      [destruct (a_randomize_ok e);
       [destruct (bus_started e && a_node_new_ok e);
        [destruct (a_hello_vtable_ok e && a_peer_vtable_ok e);
         [destruct (a_match_ok e)|]|]|]|]].

Lemma accept_handler_frame e w r w' :
  accept_handler e w = Ok (r, w') -> node_frame w w'.
Proof.
  unfold node_frame. accept_cases e; try done;
    intros [= <- <-]; cbn; frame_done.
Qed.

Lemma register_frame e node m w r w' :
  method_peer_orchestrator_register e node m w = Ok (r, w') ->
  node_frame w w'.
Proof.
  unfold method_peer_orchestrator_register, node_frame.
  destruct m as [name|z]; cbn [sd_bus_message_read]; unfold_node; exec;
    [|intros [= <- <-]; frame_done].
  destruct (node_at _ (nodes w)) as [nd|]; [|discriminate].
  destruct (node_name nd); [intros [= <- <-]; cbn; frame_done|].
  destruct (orch_find_node (nodes w) name);
    [intros [= <- <-]; cbn; frame_done|].
  destruct e as [[] [] []]; cbn; exec; intros [= <- <-]; cbn; frame_done.
Qed.

Lemma node_disconnected_frame node w w' :
  node_disconnected node w = Ok (tt, w') -> node_frame w w'.
Proof.
  unfold node_disconnected, node_frame. unfold_node. exec.
  intros [= <-]; cbn; frame_done.
Qed.

Lemma step_node_frame ev w w' :
  match ev with
  | EvAccept _ | EvRegister _ _ _ | EvDisconnected _ => True
  | _ => False
  end ->
  step ev w = Ok (tt, w') -> node_frame w w'.
Proof.
  destruct ev as [m e|rpc d|k err d|e|node m e|node]; try done; intros _.
  - cbn [step]. unfold bind at 1.
    destruct (accept_handler e w) as [[r w1]|f] eqn:E; [|done].
    intros [= <-]. by eapply accept_handler_frame.
  - cbn [step]. unfold bind at 1, gets. destruct (connected node w).
    + unfold bind at 1.
      destruct (method_peer_orchestrator_register e node m w)
        as [[r w1]|f] eqn:E; [|done].
      intros [= <-]. by eapply register_frame.
    + intros [= <-]. unfold node_frame. frame_done.
  - cbn [step]. unfold bind at 1, gets. destruct (connected node w).
    + apply node_disconnected_frame.
    + intros [= <-]. unfold node_frame. frame_done.
Qed.

(** ** Events of the scheduler *)

Lemma job_wf_waiting w w' b j :
  current_job w <> Some b -> current_job w' <> Some b ->
  job_wf w b j -> job_wf w' b j.
Proof.
  unfold job_wf. intros H H' (? & ? & ? & Hw).
  rewrite decide_False in Hw by done. by rewrite decide_False.
Qed.

Lemma job_wf_same w w' a j :
  current_job w' = current_job w -> calls w' = calls w ->
  job_wf w a j -> job_wf w' a j.
Proof. unfold job_wf. by intros -> ->. Qed.

(** What the invariant says of the running job. *)
Lemma Sched_current w a :
  Sched w -> current_job w = Some a ->
  exists j rest, jobs w = a :: rest /\ heap w !! a = Some j /\
    job_result j = JOB_DONE /\
    job_start_cb j = Some job_isolate_all_hook /\
    job_object_path j = Some (JobPath (job_id j)) /\
    job_state j = JOB_RUNNING /\ job_ref_count j = 2 /\
    isolate_outstanding j = Z.of_nat (length (calls w)).
Proof.
  intros HI Hc. destruct (sch_cur w HI a Hc) as [rest Hjs].
  destruct (sch_live w HI a) as (j & Hj & Hwf).
  { rewrite Hjs. apply elem_of_cons. by left. }
  unfold job_wf in Hwf. rewrite decide_True in Hwf by done.
  exists j, rest. tauto.
Qed.

(** ... and of a job that waits. *)
Lemma Sched_waiting w a :
  Sched w -> a ∈ jobs w -> current_job w <> Some a ->
  exists j, heap w !! a = Some j /\
    job_result j = JOB_DONE /\
    job_start_cb j = Some job_isolate_all_hook /\
    job_object_path j = Some (JobPath (job_id j)) /\
    job_state j = JOB_WAITING /\ job_ref_count j = 1 /\
    isolate_outstanding j = 0.
Proof.
  intros HI Hin Hc. destruct (sch_live w HI a Hin) as (j & Hj & Hwf).
  unfold job_wf in Hwf. rewrite decide_False in Hwf by done.
  exists j. tauto.
Qed.

Lemma Sched_calls_nil w : Sched w -> current_job w = None -> calls w = [].
Proof.
  intros HI Hc. destruct (calls w) as [|c cs] eqn:E; [done|].
  assert (Hin : c ∈ calls w) by (rewrite E; apply elem_of_cons; by left).
  apply (sch_calls w HI) in Hin. congruence.
Qed.

Lemma Sched_fresh w : Sched w -> heap w !! brk w = None.
Proof.
  intros HI. apply (sch_dead w HI). intros Hin.
  apply (sch_brk w HI) in Hin. lia.
Qed.

(** *** A reply to an Isolate call *)

(** A reply to an outstanding call is always handled: the job it points to
    is alive and both assertions of [finish_job] hold. *)
Lemma step_reply_eq w k err d c :
  Sched w -> calls w !! k = Some c ->
  exists j, heap w !! call_job c = Some j /\
    step (EvIsolateReply k err d) w =
    Ok (tt, replied_world k (call_job c) j
              (if (isolate_outstanding j - 1 =? 0) && d
               then Some FinishCb else None) w).
Proof.
  intros HI Hk.
  assert (Hc : current_job w = Some (call_job c)).
  { apply (sch_calls w HI). by eapply list_elem_of_lookup_2. }
  destruct (Sched_current w _ HI Hc)
    as (j & rest & Hjs & Hj & Hres & Hcb & Hpath & Hst & Hrc & Hout).
  assert (Hsrc : job_source w = None).
  { pose proof (sch_src w HI) as Hs.
    destruct (job_source w) as [[]|]; [| |done].
    - destruct Hs as [Hs _]. congruence.
    - destruct Hs as [_ Hs]. by rewrite Hs in Hk. }
  exists j. split; [done|]. cbn [step]. exec.
  unfold job_isolate_all_cb, finish_job, replied_world. exec.
  destruct (isolate_outstanding j - 1 =? 0) eqn:Hz; exec.
  - rewrite Hc. bd. exec. cbn [andb]. destruct d; [done|].
    destruct w; cbn in *. by subst.
  - destruct w; cbn in *. by subst.
Qed.

Lemma step_reply_inv w k err d w' :
  Sched w -> step (EvIsolateReply k err d) w = Ok (tt, w') ->
  (calls w !! k = None /\ w' = w) \/
  (exists c j, calls w !! k = Some c /\
     current_job w = Some (call_job c) /\
     heap w !! call_job c = Some j /\
     w' = replied_world k (call_job c) j
            (if (isolate_outstanding j - 1 =? 0) && d
             then Some FinishCb else None) w).
Proof.
  intros HI. destruct (calls w !! k) as [c|] eqn:Hk.
  - destruct (step_reply_eq w k err d c HI Hk) as (j & Hj & ->).
    intros [= <-]. right. exists c, j. repeat split; try done.
    apply (sch_calls w HI). by eapply list_elem_of_lookup_2.
  - cbn [step]. exec. intros [= <-]. by left.
Qed.

Lemma Sched_replied w k c j src :
  Sched w -> calls w !! k = Some c ->
  current_job w = Some (call_job c) -> heap w !! call_job c = Some j ->
  match src with
  | None => True
  | Some StartCb => False
  | Some FinishCb => isolate_outstanding j - 1 = 0
  end ->
  Sched (replied_world k (call_job c) j src w).
Proof.
  intros HI Hk Hc Hj Hsrc.
  destruct (Sched_current w _ HI Hc)
    as (j0 & rest & Hjs & Hj0 & Hres & Hcb & Hpath & Hst & Hrc & Hout).
  assert (j0 = j) as -> by congruence.
  assert (Hlen : (k < length (calls w))%nat) by by eapply lookup_lt_Some.
  assert (Ha : call_job c ∈ jobs w).
  { rewrite Hjs. apply elem_of_cons. by left. }
  unfold replied_world. destruct HI. split; cbn; try done.
  - intros b Hb. destruct (decide (b = call_job c)) as [->|Hne].
    + eexists. rewrite lookup_insert_eq. split; [done|].
      unfold job_wf; cbn. rewrite decide_True by done.
      rewrite length_delete by eauto. repeat split; try done; lia.
    + destruct (sch_live0 b Hb) as (jb & Hjb & Hwf).
      exists jb. rewrite lookup_insert_ne by done. split; [done|].
      eapply job_wf_waiting; [| |exact Hwf]; cbn; congruence.
  - intros b Hb. rewrite lookup_insert_ne by congruence. by apply sch_dead0.
  - intros c' Hc'. apply sch_calls0. by eapply list_elem_of_delete_inv.
  - destruct src as [[]|]; try done. split; [congruence|].
    apply length_zero_iff_nil. rewrite length_delete by eauto. lia.
Qed.

Lemma Sched_reply w k err d w' :
  Sched w -> step (EvIsolateReply k err d) w = Ok (tt, w') -> Sched w'.
Proof.
  intros HI Hrun.
  apply step_reply_inv in Hrun
    as [[_ ->]|(c & j & Hk & Hc & Hj & ->)]; [done| |done].
  apply Sched_replied; try done.
  destruct (isolate_outstanding j - 1 =? 0) eqn:Hz; [|done].
  destruct d; [|done]. by apply Z.eqb_eq.
Qed.

(** *** IsolateAll *)

Lemma method_isolate_all_eq e target w :
  q_malloc_ok e = true -> q_asprintf_ok e = true -> q_vtable_ok e = true ->
  let id := wrap32 (next_job_id w + 1) in
  method_orchestrator_isolate_all e (MethodCall target) w =
  Ok (Replied,
      mkWorld id (nodes w) (current_job w) (scheduled (q_defer_ok e) w)
        (jobs w ++ [brk w])
        (<[brk w := queued_job id (MethodCall target) target]> (heap w))
        (S (brk w)) (calls w)
        ((trace w ++ sent (q_signal e) (SigJobNew id (Some (JobPath id)))) ++
         [ReplyPath (Some (JobPath id))])).
Proof.
  intros Hm Ha Hv id. subst id. unfold scheduled, sent, built.
  destruct w as [n ns cur src js h b cs tr]. norm_world.
  unfold method_orchestrator_isolate_all, orch_queue_job, job_new,
    orch_add_job, orch_send_job_new_signal, schedule_job, job_ref, job_unref.
  cbn [sd_bus_message_read]. rewrite Hm, Ha, Hv. exec_all.
  destruct (s_new_signal_ok (q_signal e)), (s_append_ok (q_signal e));
    cbn [andb]; rewrite ?app_nil_r; exec_all;
    destruct cur, src, js; bd; cbn [orb app]; exec_all; try done;
    destruct (q_defer_ok e); exec_all; done.
Qed.

Lemma method_isolate_all_no_malloc e target w :
  q_malloc_ok e = false ->
  method_orchestrator_isolate_all e (MethodCall target) w =
  Ok (Replied, set_trace (trace w ++ [ReplyErrno ENOMEM]) w).
Proof.
  intros Hm. unfold method_orchestrator_isolate_all, orch_queue_job, job_new.
  cbn [sd_bus_message_read]. rewrite Hm. reflexivity.
Qed.

Lemma method_isolate_all_no_path e target w :
  q_malloc_ok e = true -> q_asprintf_ok e = false ->
  method_orchestrator_isolate_all e (MethodCall target) w =
  Ok (Replied,
      mkWorld (wrap32 (next_job_id w + 1)) (nodes w) (current_job w)
        (job_source w) (jobs w) (delete (brk w) (heap w))
        (S (brk w)) (calls w) (trace w ++ [ReplyErrno ENOMEM])).
Proof.
  intros Hm Ha. unfold method_orchestrator_isolate_all, orch_queue_job, job_new.
  cbn [sd_bus_message_read]. rewrite Hm, Ha. exec_job.
  by rewrite delete_insert_eq.
Qed.

Lemma method_isolate_all_no_vtable e target w :
  q_malloc_ok e = true -> q_asprintf_ok e = true -> q_vtable_ok e = false ->
  method_orchestrator_isolate_all e (MethodCall target) w = Abort NullDeref.
Proof.
  intros Hm Ha Hv.
  unfold method_orchestrator_isolate_all, orch_queue_job, job_new, job_unref.
  cbn [sd_bus_message_read]. rewrite Hm, Ha, Hv. by exec_job.
Qed.

Lemma step_isolate_all_inv m e w w' :
  step (EvIsolateAll m e) w = Ok (tt, w') ->
  node_frame w w' \/ w' = skipped_world w \/
  exists target, m = MethodCall target /\ w' = queued_world e target w.
Proof.
  cbn [step]. unfold bind at 1.
  destruct m as [target|r];
    [|intros [= <-]; left; unfold node_frame; frame_done].
  destruct (q_malloc_ok e) eqn:Hm.
  2:{ rewrite method_isolate_all_no_malloc by done. intros [= <-].
      left. unfold node_frame; cbn. frame_done. }
  destruct (q_asprintf_ok e) eqn:Ha.
  2:{ rewrite method_isolate_all_no_path by done. intros [= <-].
      right. by left. }
  destruct (q_vtable_ok e) eqn:Hv.
  2:{ by rewrite method_isolate_all_no_vtable. }
  rewrite method_isolate_all_eq by done. cbn zeta. intros [= <-].
  right. right. by exists target.
Qed.

Lemma Sched_skipped w : Sched w -> Sched (skipped_world w).
Proof.
  intros HI. pose proof (Sched_fresh w HI) as Hfresh.
  unfold skipped_world. rewrite delete_id by done.
  destruct HI. split; cbn; try done.
  - intros a Hin. specialize (sch_brk0 a Hin). lia.
  - intros id p r. rewrite elem_of_app, list_elem_of_singleton.
    intros [?|?]; [eauto|done].
Qed.

Lemma Sched_queued e target w : Sched w -> Sched (queued_world e target w).
Proof.
  intros HI. unfold queued_world. cbn zeta.
  set (id := wrap32 (next_job_id w + 1)).
  set (jn := queued_job id (MethodCall target) target).
  assert (Hold : forall a, a ∈ jobs w -> a <> brk w).
  { intros a Hin ->. apply (sch_brk w HI) in Hin. lia. }
  destruct HI. split; cbn.
  - intros a [Hin| ->%list_elem_of_singleton]%elem_of_app.
    + destruct (sch_live0 a Hin) as (j & Hj & Hwf). exists j.
      rewrite lookup_insert_ne by (by apply not_eq_sym, Hold).
      split; [done|]. by eapply job_wf_same; [..|exact Hwf].
    + exists jn. rewrite lookup_insert_eq. split; [done|].
      unfold job_wf; cbn. rewrite decide_False; [done|].
      intros Hc. destruct (sch_cur0 _ Hc) as [rest Hrest].
      apply (Hold (brk w)); [|done]. rewrite Hrest. apply elem_of_cons; by left.
  - intros a Hnin.
    assert ((a ∉ jobs w) /\ (brk w <> a)) as [Hn1 Hn2].
    { split; [intros ?|intros <-]; apply Hnin, elem_of_app;
        [by left|right; by apply list_elem_of_singleton]. }
    rewrite lookup_insert_ne by done. by apply sch_dead0.
  - apply NoDup_app. split; [done|]. split; [|apply NoDup_singleton].
    intros a Hin ->%list_elem_of_singleton. by apply (Hold (brk w)).
  - intros a [Hin| ->%list_elem_of_singleton]%elem_of_app; [|lia].
    specialize (sch_brk0 a Hin). lia.
  - intros a Hc. destruct (sch_cur0 a Hc) as [rest ->]. by exists (rest ++ [brk w]).
  - done.
  - unfold scheduled. destruct (current_job w), (job_source w) as [[]|];
      try done; try (destruct sch_src0; split; [done|by destruct (jobs w)]).
    destruct (q_defer_ok e); [|done]. split; [done|by destruct (jobs w)].
  - intros i p r. rewrite !elem_of_app, !list_elem_of_singleton.
    intros [[?|Hs]|?]; [eauto|by apply elem_of_sent in Hs|done].
Qed.

Lemma Sched_isolate_all w m e w' :
  Sched w -> step (EvIsolateAll m e) w = Ok (tt, w') -> Sched w'.
Proof.
  intros HI [Hf|[->|(target & _ & ->)]]%step_isolate_all_inv.
  - by eapply Sched_node_frame.
  - by apply Sched_skipped.
  - by apply Sched_queued.
Qed.

(** *** The deferred callbacks *)

(** [try_start_job] from inside a deferred callback, where
    [orch->job_source] still holds the source being dispatched. *)
Lemma try_start_job_inv rpc d w a rest j w' :
  jobs w = a :: rest -> heap w !! a = Some j ->
  job_start_cb j = Some job_isolate_all_hook ->
  job_source w <> None ->
  try_start_job rpc d w = Ok (tt, w') ->
  isolate_outstanding j + Z.of_nat (length (nodes w)) <> 0 /\
  Forall (fun n => rpc_fine (rpc (node_addr n)) = true) (nodes w) /\
  w' = started_world a j w.
Proof.
  intros Hjs Hj Hcb Hsrc.
  unfold try_start_job, job_ref, job_isolate_all. exec. rewrite Hjs. exec.
  simpl_job. rewrite Hcb. exec.
  match goal with
  | |- context [isolate_all_loop ?r ?a ?ns ?W] =>
      destruct (isolate_all_loop r a ns W) as [[[] w1]|f] eqn:E;
        [|discriminate]
  end.
  eapply isolate_all_loop_inv in E; [|exec; reflexivity].
  destruct E as [Hall ->]. exec. simpl_job.
  destruct (_ =? 0) eqn:Hz.
  - unfold finish_job. exec. bd. exec.
    destruct (job_source w); [|done]. bd. discriminate.
  - intros [= <-]. apply Z.eqb_neq in Hz. split; [done|]. split; [done|].
    unfold started_world, started_job. destruct w. by norm_world.
Qed.

Lemma Sched_started w b rest :
  Sched w -> current_job w = None -> jobs w = b :: rest -> nodes w <> [] ->
  exists j, heap w !! b = Some j /\
    Sched (set_job_source None (started_world b j w)).
Proof.
  intros HI Hc Hjs Hns.
  assert (Hb : b ∈ jobs w) by (rewrite Hjs; apply elem_of_cons; by left).
  destruct (Sched_waiting w b HI Hb) as
    (j & Hj & Hres & Hcb & Hpath & Hst & Hrc & Hout); [congruence|].
  exists j. split; [done|].
  pose proof (Sched_calls_nil w HI Hc) as Hcs.
  unfold started_world, started_job. rewrite Hcs.
  destruct HI. split; cbn; try done.
  - intros x Hx. destruct (decide (x = b)) as [->|Hne].
    + eexists. rewrite lookup_insert_eq. split; [done|].
      unfold job_wf; cbn. rewrite decide_True by done.
      rewrite length_map. repeat split; try done; lia.
    + destruct (sch_live0 x Hx) as (jx & Hjx & Hwf). exists jx.
      rewrite lookup_insert_ne by done. split; [done|].
      eapply job_wf_waiting; [..|exact Hwf]; cbn; congruence.
  - intros x Hx. rewrite lookup_insert_ne by congruence. by apply sch_dead0.
  - intros x [= <-]. by exists rest.
  - intros c (n & -> & _)%list_elem_of_fmap. done.
  - intros i p r. rewrite !elem_of_app, !list_elem_of_singleton.
    intros [[[?|?]|?]|(n & ? & _)%list_elem_of_fmap]; [eauto|done..].
Qed.

Lemma Sched_removed s w a :
  Sched w -> current_job w = Some a -> calls w = [] ->
  exists j rest, jobs w = a :: rest /\ heap w !! a = Some j /\
    Sched (removed_world s a j rest w).
Proof.
  intros HI Hc Hcs.
  destruct (Sched_current w a HI Hc)
    as (j & rest & Hjs & Hj & Hres & Hcb & Hpath & Hst & Hrc & Hout).
  exists j, rest. do 2 (split; [done|]).
  assert (Hnd : (a ∉ rest) /\ NoDup rest).
  { apply NoDup_cons. rewrite <- Hjs. apply (sch_nodup w HI). }
  destruct Hnd as [Hna Hnd].
  assert (Hsub : forall x, x ∈ rest -> x ∈ jobs w /\ x <> a).
  { intros x Hx. split; [rewrite Hjs; apply elem_of_cons; by right|].
    by intros ->. }
  unfold removed_world. rewrite Hres. destruct HI. split; cbn; try done.
  - intros x Hx. destruct (Hsub x Hx) as [Hx' Hne].
    destruct (sch_live0 x Hx') as (jx & Hjx & Hwf). exists jx.
    rewrite lookup_delete_ne by done. split; [done|].
    eapply job_wf_waiting; [..|exact Hwf]; cbn; congruence.
  - intros x Hx. destruct (decide (x = a)) as [->|Hne].
    + apply lookup_delete_eq.
    + rewrite lookup_delete_ne by done. apply sch_dead0.
      rewrite Hjs. intros [?|?]%elem_of_cons; done.
  - intros x Hx. apply sch_brk0. by apply Hsub.
  - rewrite Hcs. intros c Hin. by apply elem_of_nil in Hin.
  - intros i p r. rewrite elem_of_app.
    intros [?|[= _ _ <-]%elem_of_sent]; [eauto|done].
Qed.

Lemma start_job_cb_inv rpc d w w' :
  Sched w -> job_source w = Some StartCb ->
  start_job_cb rpc d w = Ok (tt, w') ->
  exists b rest j, jobs w = b :: rest /\ heap w !! b = Some j /\
    nodes w <> [] /\
    Forall (fun n => rpc_fine (rpc (node_addr n)) = true) (nodes w) /\
    w' = set_job_source None (started_world b j w).
Proof.
  intros HI Hsrc. pose proof (sch_src w HI) as Hs. rewrite Hsrc in Hs.
  destruct Hs as [Hc Hne].
  destruct (jobs w) as [|b rest] eqn:Hjs; [done|].
  assert (Hb : b ∈ jobs w) by (rewrite Hjs; apply elem_of_cons; by left).
  destruct (Sched_waiting w b HI Hb) as
    (j & Hj & Hres & Hcb & Hpath & Hst & Hrc & Hout); [congruence|].
  unfold start_job_cb. unfold bind at 1.
  destruct (try_start_job rpc (d_defer_ok d) w) as [[[] w1]|f] eqn:E;
    [|discriminate].
  eapply try_start_job_inv in E as (Hnz & Hall & ->); [|done..|congruence].
  intros [= <-]. exists b, rest, j. repeat split; try done.
  intros Hn. rewrite Hn, Hout in Hnz. by cbn in Hnz.
Qed.

Lemma filter_head (a : addr) (rest : list addr) :
  a ∉ rest -> filter (fun x => x <> a) (a :: rest) = rest.
Proof.
  intros Ha. rewrite filter_cons_False by (intros ?; congruence).
  induction rest as [|x rest IH]; [done|].
  apply not_elem_of_cons in Ha as [Hne Ha].
  rewrite filter_cons_True by congruence. by rewrite IH.
Qed.

Lemma orch_send_job_removed_signal_eq s a j w :
  heap w !! a = Some j ->
  orch_send_job_removed_signal s a w =
  Ok (tt, set_trace
            (trace w ++ sent s (SigJobRemoved (job_id j) (job_object_path j)
                                  (job_result_to_string (job_result j))))
            w).
Proof.
  intros Hj. unfold orch_send_job_removed_signal, sent, built.
  destruct (s_new_signal_ok s), (s_append_ok s); cbn [andb]; exec;
    rewrite ?app_nil_r; by destruct w.
Qed.

Lemma finish_job_cb_inv rpc d w w' :
  Sched w -> job_source w = Some FinishCb ->
  finish_job_cb rpc d w = Ok (tt, w') ->
  exists a j rest, current_job w = Some a /\ jobs w = a :: rest /\
    heap w !! a = Some j /\
    ((rest = [] /\ w' = removed_world (d_signal d) a j rest w) \/
     (exists b rest' jb, rest = b :: rest' /\ heap w !! b = Some jb /\
        nodes w <> [] /\
        Forall (fun n => rpc_fine (rpc (node_addr n)) = true) (nodes w) /\
        w' = set_job_source None
               (started_world b jb
                  (removed_world (d_signal d) a j rest w)))).
Proof.
  intros HI Hsrc. pose proof (sch_src w HI) as Hs. rewrite Hsrc in Hs.
  destruct Hs as [Hc Hcs].
  destruct (current_job w) as [a|] eqn:Hcur; [clear Hc|done].
  destruct (Sched_current w a HI Hcur)
    as (j & rest & Hjs & Hj & Hres & Hcb & Hpath & Hst & Hrc & Hout).
  assert (Hnd : (a ∉ rest) /\ NoDup rest).
  { apply NoDup_cons. rewrite <- Hjs. apply (sch_nodup w HI). }
  destruct Hnd as [Hna Hnd].
  intros Hrun. exists a, j, rest. do 3 (split; [done|]). revert Hrun.
  unfold finish_job_cb. exec. rewrite Hcur.
  rewrite (orch_send_job_removed_signal_eq _ _ j) by done.
  unfold orch_remove_job, job_unref. exec. simpl_job.
  rewrite Hjs, filter_head, Hrc by done. norm_arith.
  destruct rest as [|b rest'].
  - unfold try_start_job. exec. simpl_job. norm_arith.
    exec. intros [= <-]. left. split; [done|]. unfold removed_world.
    destruct w; cbn in *. subst. norm_world. by rewrite delete_insert_eq.
  - assert (Hb : b ∈ jobs w).
    { rewrite Hjs. apply elem_of_cons. right. apply elem_of_cons. by left. }
    assert (Hba : b <> a).
    { intros ->. apply Hna. apply elem_of_cons. by left. }
    destruct (Sched_waiting w b HI Hb) as
      (jb & Hjb & Hresb & Hcbb & Hpathb & Hstb & Hrcb & Houtb);
      [congruence|].
    match goal with
    | |- context [try_start_job ?r ?dd ?W] =>
        destruct (try_start_job r dd W) as [[[] w1]|f] eqn:E; [|discriminate]
    end.
    eapply (try_start_job_inv _ _ _ b rest' jb) in E as (Hnz & Hall & ->);
      [|done|cbn; by rewrite lookup_insert_ne|done|cbn; congruence].
    cbn in Hnz, Hall. unfold started_world. exec. simpl_job. norm_arith. exec.
    intros [= <-]. right. exists b, rest', jb. split; [done|]. split; [done|].
    split. { intros Hn. rewrite Hn, Houtb in Hnz. by cbn in Hnz. }
    split; [done|]. unfold removed_world.
    destruct w; cbn in *. subst. norm_world. f_equal.
    apply map_eq. intros x.
    destruct (decide (x = a)) as [->|Hxa];
      [by rewrite lookup_delete_eq, lookup_insert_ne, lookup_delete_eq|].
    rewrite lookup_delete_ne by congruence.
    rewrite (lookup_insert_ne _ a x) by congruence.
    destruct (decide (x = b)) as [->|Hxb];
      [by rewrite !lookup_insert_eq|].
    rewrite !(lookup_insert_ne _ b x) by congruence.
    by rewrite lookup_insert_ne, lookup_delete_ne by congruence.
Qed.

(** What a dispatch of the deferred source leaves. *)
Lemma step_defer_inv rpc d w w' :
  Sched w -> step (EvDefer rpc d) w = Ok (tt, w') ->
  (job_source w = None /\ w' = w) \/
  (exists b rest j, job_source w = Some StartCb /\ current_job w = None /\
     jobs w = b :: rest /\ heap w !! b = Some j /\ nodes w <> [] /\
     w' = set_job_source None (started_world b j w)) \/
  (exists a j rest, job_source w = Some FinishCb /\
     current_job w = Some a /\ calls w = [] /\
     jobs w = a :: rest /\ heap w !! a = Some j /\
     ((rest = [] /\ w' = removed_world (d_signal d) a j rest w) \/
      (exists b rest' jb, rest = b :: rest' /\ heap w !! b = Some jb /\
         nodes w <> [] /\
         w' = set_job_source None
                (started_world b jb
                   (removed_world (d_signal d) a j rest w))))).
Proof.
  intros HI. cbn [step]. unfold bind at 1, gets.
  pose proof (sch_src w HI) as Hs.
  destruct (job_source w) as [[]|] eqn:Hsrc; [| |intros [= <-]; by left].
  - intros Hrun. right. left.
    apply start_job_cb_inv in Hrun as (b & rest & j & Hjs & Hj & Hns & _ & ->);
      [|done..].
    destruct Hs as [Hc _]. by exists b, rest, j.
  - intros Hrun. right. right. destruct Hs as [_ Hcs].
    apply finish_job_cb_inv in Hrun
      as (a & j & rest & Hc & Hjs & Hj & Hcase); [|done..].
    exists a, j, rest. do 5 (split; [done|]).
    destruct Hcase as [?|(b & rest' & jb & ? & ? & ? & _ & ?)]; [by left|].
    right. by exists b, rest', jb.
Qed.

Lemma Sched_defer w rpc d w' :
  Sched w -> step (EvDefer rpc d) w = Ok (tt, w') -> Sched w'.
Proof.
  intros HI Hrun.
  apply step_defer_inv in Hrun as
    [[_ ->]|[(b & rest & j & _ & Hc & Hjs & Hj & Hns & ->)|
             (a & j & rest & _ & Hc & Hcs & Hjs & Hj & Hcase)]];
    [done| | |done].
  - destruct (Sched_started w b rest HI Hc Hjs Hns) as (j' & Hj' & HI').
    congruence.
  - destruct (Sched_removed (d_signal d) w a HI Hc Hcs)
      as (j' & rest0 & Hjs' & Hj' & HI').
    assert (j' = j) as -> by congruence.
    assert (rest0 = rest) as -> by congruence.
    destruct Hcase as [[-> ->]|(b & rest' & jb & -> & Hjb & Hns & ->)];
      [done|].
    destruct (Sched_started (removed_world (d_signal d) a j (b :: rest') w)
                b rest' HI')
      as (jb' & Hjb' & HI''); [done..|].
    cbn in Hjb'. apply lookup_delete_Some in Hjb' as [_ Hjb'].
    congruence.
Qed.

(** ** Runs *)

Lemma Sched_step ev w w' : Sched w -> step ev w = Ok (tt, w') -> Sched w'.
Proof.
  intros HI Hrun. destruct ev as [m e|rpc d|k err d|e|node m e|node].
  - by eapply Sched_isolate_all.
  - by eapply Sched_defer.
  - by eapply Sched_reply.
  - eapply Sched_node_frame, step_node_frame, Hrun; done.
  - eapply Sched_node_frame, step_node_frame, Hrun; done.
  - eapply Sched_node_frame, step_node_frame, Hrun; done.
Qed.

Lemma run_cons ev evs w w' :
  run (ev :: evs) w = Ok w' ->
  exists w1, step ev w = Ok (tt, w1) /\ run evs w1 = Ok w'.
Proof.
  cbn [run]. destruct (step ev w) as [[[] w1]|f]; [|done]. eauto.
Qed.

Lemma Sched_run evs : forall w w', Sched w -> run evs w = Ok w' -> Sched w'.
Proof.
  induction evs as [|ev evs IH]; intros w w' HI; [by intros [= <-]|].
  intros (w1 & Hs & Hr)%run_cons. eapply IH; [|exact Hr].
  by eapply Sched_step.
Qed.

Lemma Sched_reachable evs w : run evs init = Ok w -> Sched w.
Proof. apply Sched_run, Sched_init. Qed.

(** ** Job ids and the order of the trace *)

Lemma Ids_init : Ids init.
Proof.
  split; cbn; try done;
    try (intros; exfalso; eapply elem_of_nil; eassumption);
    repeat constructor.
Qed.

Lemma id_of_insert h a j j' b :
  h !! a = Some j -> job_id j' = job_id j ->
  id_of (<[a := j']> h) b = id_of h b.
Proof.
  intros Ha Hid. unfold id_of. destruct (decide (a = b)) as [<-|Hne].
  - by rewrite lookup_insert_eq, Ha.
  - by rewrite lookup_insert_ne.
Qed.

Lemma Ids_frame w w' :
  Ids w -> next_job_id w' = next_job_id w -> jobs w' = jobs w ->
  (forall a, a ∈ jobs w -> id_of (heap w') a = id_of (heap w) a) ->
  new_ids (trace w') = new_ids (trace w) ->
  Ids w'.
Proof.
  intros [] Hn Hj Hh Ht.
  split; rewrite ?Hn, ?Hj, ?Ht; try done.
  - intros a Ha. rewrite Hh by done. by apply ids_jobs0.
  - erewrite list_fmap_ext; [exact ids_sorted0|].
    intros i a Hi. apply Hh. by eapply list_elem_of_lookup_2.
Qed.

Lemma Ids_node_frame w w' : Ids w -> node_frame w w' -> Ids w'.
Proof.
  intros HI (Hn & Hc & Hs & Hj & Hh & Hcs & Hb & out & Ht & Hq).
  apply (Ids_frame w); try done.
  - intros a _. by rewrite Hh.
  - by rewrite Ht, new_ids_app, (new_ids_quiet out), app_nil_r.
Qed.

Lemma Ids_replied w k a j src :
  Ids w -> heap w !! a = Some j -> Ids (replied_world k a j src w).
Proof.
  intros HI Hj. apply (Ids_frame w); try done.
  intros b _. cbn. by apply (id_of_insert _ _ j).
Qed.

Lemma wrap32_small n : 0 <= n -> n + 1 < 2 ^ 32 -> wrap32 (n + 1) = n + 1.
Proof. intros. unfold wrap32. apply Z.mod_small. lia. Qed.

Lemma Ids_skipped w :
  Sched w -> Ids w -> next_job_id w + 1 < 2 ^ 32 -> Ids (skipped_world w).
Proof.
  intros HS HI Hbound. pose proof (Sched_fresh w HS) as Hfresh.
  pose proof (ids_counter w HI) as Hn0.
  unfold skipped_world. rewrite wrap32_small, delete_id by done.
  destruct HI. split; cbn; try done.
  - intros a Ha. specialize (ids_jobs0 a Ha). lia.
  - lia.
  - rewrite new_ids_app, app_nil_r. destruct ids_new_ids0 as [? Hall].
    split; [done|]. eapply Forall_impl; [exact Hall|]. cbn. lia.
Qed.

Lemma Ids_queued e target w :
  Sched w -> Ids w -> next_job_id w + 1 < 2 ^ 32 ->
  Ids (queued_world e target w).
Proof.
  intros HS HI Hbound. pose proof (ids_counter w HI) as Hn0.
  unfold queued_world. cbn zeta. rewrite wrap32_small by done.
  set (id := next_job_id w + 1).
  set (jn := queued_job id (MethodCall target) target).
  assert (Hold : forall a, a ∈ jobs w -> a <> brk w).
  { intros a Hin ->. apply (sch_brk w HS) in Hin. lia. }
  assert (Hsame : forall a, a ∈ jobs w ->
            id_of (<[brk w := jn]> (heap w)) a = id_of (heap w) a).
  { intros a Hin. unfold id_of. rewrite lookup_insert_ne; [done|].
    by apply not_eq_sym, Hold. }
  assert (Hnew : id_of (<[brk w := jn]> (heap w)) (brk w) = id).
  { unfold id_of. by rewrite lookup_insert_eq. }
  destruct HI. split; cbn.
  - intros a [Hin| ->%list_elem_of_singleton]%elem_of_app.
    + rewrite Hsame by done. specialize (ids_jobs0 a Hin). lia.
    + rewrite Hnew. lia.
  - rewrite fmap_app. apply StronglySorted_app_2.
    + intros x y (a & -> & Hin)%list_elem_of_fmap Hy.
      apply list_elem_of_singleton in Hy as ->.
      rewrite Hnew, Hsame by done. specialize (ids_jobs0 a Hin). lia.
    + erewrite list_fmap_ext; [exact ids_sorted0|].
      intros i a Hi. apply Hsame. by eapply list_elem_of_lookup_2.
    + cbn. repeat constructor.
  - lia.
  - rewrite !new_ids_app. cbn. rewrite app_nil_r.
    destruct ids_new_ids0 as [Hs Hall].
    assert (Hall' : Forall (fun i => 0 < i <= id) (new_ids (trace w))).
    { eapply Forall_impl; [exact Hall|]. cbn. lia. }
    destruct (sent_cases (q_signal e) (SigJobNew id (Some (JobPath id))))
      as [-> | ->]; cbn; [|by rewrite app_nil_r].
    split.
    + apply StronglySorted_app_2; [|done|repeat constructor].
      intros x y Hx ->%list_elem_of_singleton.
      rewrite list.Forall_forall in Hall. apply Hall in Hx. lia.
    + apply Forall_app. split; [done|]. repeat constructor; lia.
Qed.

Lemma new_ids_calls {A} (f : A -> addr) (t : option string) (l : list A) :
  new_ids (map (fun n => CallIsolate (f n) t) l) = [].
Proof. by induction l. Qed.

Lemma Ids_started w b rest j :
  Ids w -> jobs w = b :: rest -> heap w !! b = Some j ->
  Ids (set_job_source None (started_world b j w)).
Proof.
  intros HI Hjs Hj. apply (Ids_frame w); try done.
  - intros a _. cbn. by apply (id_of_insert _ _ j).
  - cbn. rewrite !new_ids_app, new_ids_calls. cbn. by rewrite !app_nil_r.
Qed.

Lemma Ids_removed s w a j rest :
  Sched w -> Ids w -> current_job w = Some a ->
  jobs w = a :: rest -> heap w !! a = Some j ->
  Ids (removed_world s a j rest w).
Proof.
  intros HS HI Hc Hjs Hj.
  assert (Hnd : (a ∉ rest) /\ NoDup rest).
  { apply NoDup_cons. rewrite <- Hjs. apply (sch_nodup w HS). }
  destruct Hnd as [Hna Hnd].
  assert (Hsub : forall x, x ∈ rest -> x ∈ jobs w /\ x <> a).
  { intros x Hx. split; [rewrite Hjs; apply elem_of_cons; by right|].
    by intros ->. }
  assert (Hsame : forall x, x ∈ rest ->
            id_of (delete a (heap w)) x = id_of (heap w) x).
  { intros x Hx. unfold id_of. rewrite lookup_delete_ne; [done|].
    by apply not_eq_sym, Hsub. }
  unfold removed_world. destruct HI. split; cbn; try done.
  - intros x Hx. rewrite Hsame by done. by apply ids_jobs0, Hsub.
  - rewrite Hjs, fmap_cons in ids_sorted0.
    apply StronglySorted_cons in ids_sorted0 as [_ Hs].
    erewrite list_fmap_ext; [exact Hs|].
    intros i x Hi. apply Hsame. by eapply list_elem_of_lookup_2.
  - rewrite new_ids_app.
    destruct (sent_cases s (SigJobRemoved (job_id j) (job_object_path j)
                              (job_result_to_string (job_result j))))
      as [-> | ->]; cbn; by rewrite app_nil_r.
Qed.

Lemma Ids_step ev w w' :
  Sched w -> Ids w -> next_job_id w + 1 < 2 ^ 32 ->
  step ev w = Ok (tt, w') -> Ids w'.
Proof.
  intros HS HI Hbound Hrun.
  destruct ev as [m e|rpc d|k err d|e|node m e|node].
  - apply step_isolate_all_inv in Hrun as [Hf|[->|(target & _ & ->)]].
    + by eapply Ids_node_frame.
    + by apply Ids_skipped.
    + by apply Ids_queued.
  - apply step_defer_inv in Hrun as
      [[_ ->]|[(b & rest & j & _ & Hc & Hjs & Hj & Hns & ->)|
               (a & j & rest & _ & Hc & Hcs & Hjs & Hj & Hcase)]];
      [done| | |done].
    + by eapply Ids_started.
    + pose proof (Ids_removed (d_signal d) w a j rest HS HI Hc Hjs Hj) as HI'.
      destruct Hcase as [[-> ->]|(b & rest' & jb & -> & Hjb & Hns & ->)];
        [done|].
      eapply Ids_started; [done..|]. cbn.
      rewrite lookup_delete_ne; [done|]. intros <-.
      pose proof (sch_nodup w HS) as Hnd. rewrite Hjs in Hnd.
      apply NoDup_cons in Hnd as [Hnd _]. apply Hnd, elem_of_cons. by left.
  - apply step_reply_inv in Hrun
      as [[_ ->]|(c & j & Hk & Hc & Hj & ->)]; [done| |done].
    by apply Ids_replied.
  - eapply Ids_node_frame, step_node_frame, Hrun; done.
  - eapply Ids_node_frame, step_node_frame, Hrun; done.
  - eapply Ids_node_frame, step_node_frame, Hrun; done.
Qed.

(** ** The order of announcements, starts and removals *)










Section keeps.
Context {X : Type} (p : World -> X).

Lemma keeps_bind {A B} (c : M A) (k : A -> M B) :
  keeps p c -> (forall a, keeps p (k a)) -> keeps p (x <- c ;; k x).
Proof.
  intros Hc Hk w b w'. unfold bind.
  destruct (c w) as [[a w1]|f] eqn:E; [|done].
  intros Hrun. apply Hk in Hrun. apply Hc in E. congruence.
Qed.

Lemma keeps_ret {A} (a : A) : keeps p (ret a).
Proof. by intros w a' w' [= _ <-]. Qed.

Lemma keeps_abort {A} f : keeps p (@abort A f).
Proof. by intros w a w'. Qed.

Lemma keeps_gets {A} (f : World -> A) : keeps p (gets f).
Proof. by intros w a' w' [= _ <-]. Qed.

Lemma keeps_modify (f : World -> World) :
  (forall w, p (f w) = p w) -> keeps p (modify f).
Proof.
  intros Hf w a w' H. unfold modify in H. injection H as Hw. subst w'.
  apply Hf.
Qed.

Lemma keeps_get_job a : keeps p (get_job a).
Proof.
  intros w j w'. unfold get_job. by destruct (heap w !! a); intros [= _ <-].
Qed.

Lemma keeps_get_node a : keeps p (get_node a).
Proof.
  intros w j w'. unfold get_node. by destruct (node_at _ _); intros [= _ <-].
Qed.
End keeps.

Lemma static_counter : static_field next_job_id.
Proof. by intros w w' H _. Qed.

Lemma static_nodes : static_field nodes.
Proof. by intros w w' _ H. Qed.

Create HintDb keeps.
#[local] Hint Resolve static_counter static_nodes : keeps.

Ltac keeps :=
  repeat first
    [ solve [auto with keeps nocore]
    | apply keeps_ret | apply keeps_abort | apply keeps_gets
    | apply keeps_get_job | apply keeps_get_node
    | apply keeps_modify;
      first [ by intros []
            | match goal with
              | Hp : static_field _ |- _ => intros []; by apply Hp
              end ]
    | apply keeps_bind; [|intros ?]
    | match goal with
      | |- keeps _ (match ?x with _ => _ end) => destruct x
      | |- keeps _ (assert ?b _) => unfold assert
      end ].

(** What the callbacks of the scheduler keep. *)
Section scheduler_keeps.
Context {X : Type} (p : World -> X) (Hp : static_field p).

Lemma keeps_finish_job d a : keeps p (finish_job d a).
Proof. unfold finish_job. keeps. Qed.

Lemma keeps_isolate_all_loop rpc a ns : keeps p (isolate_all_loop rpc a ns).
Proof.
  induction ns as [|n ns IH]; cbn [isolate_all_loop]; [keeps|].
  unfold upd_job, emit. keeps.
Qed.

Lemma keeps_job_unref a : keeps p (job_unref a).
Proof. unfold job_unref, upd_job, free_job. keeps. Qed.

Lemma keeps_try_start_job rpc d : keeps p (try_start_job rpc d).
Proof.
  pose proof keeps_finish_job. pose proof keeps_isolate_all_loop.
  unfold try_start_job, job_ref, upd_job, emit, job_isolate_all. keeps.
Qed.

Lemma keeps_defer rpc d : keeps p (step (EvDefer rpc d)).
Proof.
  pose proof keeps_try_start_job. pose proof keeps_job_unref.
  cbn [step].
  unfold start_job_cb, finish_job_cb, orch_send_job_removed_signal,
    orch_remove_job, emit.
  keeps.
Qed.

Lemma keeps_isolate_reply k err d : keeps p (step (EvIsolateReply k err d)).
Proof.
  pose proof keeps_finish_job.
  cbn [step]. unfold job_isolate_all_cb, upd_job. keeps.
Qed.
End scheduler_keeps.

#[local] Hint Resolve keeps_job_unref : keeps.

Lemma keeps_step ev :
  (forall m e, ev <> EvIsolateAll m e) -> keeps next_job_id (step ev).
Proof.
  intros Hev. destruct ev as [m e|rpc d|k err d|e|node m e|node];
    [by destruct (Hev m e)|..].
  - apply keeps_defer, static_counter.
  - apply keeps_isolate_reply, static_counter.
  - cbn [step]. unfold accept_handler, node_new, orch_add_node, upd_node. keeps.
  - cbn [step]. unfold method_peer_orchestrator_register, upd_node, emit. keeps.
  - cbn [step]. unfold node_disconnected, upd_node, orch_remove_node. keeps.
Qed.

(** The scheduler does not touch the registry. *)
Lemma keeps_nodes_step ev :
  match ev with
  | EvIsolateAll _ _ | EvDefer _ _ | EvIsolateReply _ _ _ => True
  | _ => False
  end ->
  keeps nodes (step ev).
Proof.
  destruct ev as [m e|rpc d|k err d|e|node m e|node]; try done; intros _.
  - cbn [step].
    unfold method_orchestrator_isolate_all, orch_queue_job, job_new,
      malloc0_job, job_ref, orch_add_job, orch_send_job_new_signal,
      schedule_job, upd_job, emit.
    keeps.
  - apply keeps_defer, static_nodes.
  - apply keeps_isolate_reply, static_nodes.
Qed.

Lemma step_counter ev w w' :
  step ev w = Ok (tt, w') ->
  next_job_id w' = next_job_id w \/
  next_job_id w' = wrap32 (next_job_id w + 1).
Proof.
  destruct ev as [m e|rpc d|k err d|e|node m e|node];
    try (intros Hrun; left; eapply keeps_step; [|exact Hrun]; done).
  cbn [step]. unfold bind at 1.
  destruct m as [target|r]; [|intros [= <-]; by left].
  destruct (q_malloc_ok e) eqn:Hm;
    [|rewrite method_isolate_all_no_malloc by done; intros [= <-]; by left].
  destruct (q_asprintf_ok e) eqn:Ha;
    [|rewrite method_isolate_all_no_path by done; intros [= <-]; by right].
  destruct (q_vtable_ok e) eqn:Hv;
    [|by rewrite method_isolate_all_no_vtable].
  rewrite method_isolate_all_eq by done. intros [= <-]. by right.
Qed.





(** ** The node registry *)

Lemma orch_find_node_Some ns name n :
  orch_find_node ns name = Some n -> n ∈ ns /\ node_name n = Some name.
Proof.
  induction ns as [|x ns IH]; [done|]. cbn [orch_find_node].
  destruct (node_name x) as [s|] eqn:Hx.
  - destruct (String.eqb s name) eqn:Hs.
    + intros [= <-]. apply String.eqb_eq in Hs as ->.
      split; [apply elem_of_cons; by left|done].
    + intros [? ?]%IH. split; [apply elem_of_cons; by right|done].
  - intros [? ?]%IH. split; [apply elem_of_cons; by right|done].
Qed.

Lemma orch_find_node_None ns name :
  orch_find_node ns name = None <->
  forall n, n ∈ ns -> node_name n <> Some name.
Proof.
  induction ns as [|x ns IH]; cbn [orch_find_node].
  - split; [|done]. intros _ n Hn. by apply elem_of_nil in Hn.
  - destruct (node_name x) as [s|] eqn:Hx.
    + destruct (String.eqb s name) eqn:Hs.
      * apply String.eqb_eq in Hs as ->. split; [done|].
        intros H. destruct (H x); [apply elem_of_cons; by left|done].
      * apply String.eqb_neq in Hs. rewrite IH. split.
        -- intros H n [->|Hn]%elem_of_cons; [congruence|by apply H].
        -- intros H n Hn. apply H, elem_of_cons. by right.
    + rewrite IH. split.
      * intros H n [->|Hn]%elem_of_cons; [congruence|by apply H].
      * intros H n Hn. apply H, elem_of_cons. by right.
Qed.

Lemma node_at_upd node f ns nd :
  (forall n, node_addr (f n) = node_addr n) ->
  node_at node ns = Some nd ->
  node_at node (upd_nodes node f ns) = Some (f nd).
Proof.
  intros Hf. unfold node_at, upd_nodes.
  induction ns as [|x ns IH]; [done|]. cbn [find map].
  destruct (Nat.eqb (node_addr x) node) eqn:Hx.
  - intros [= <-]. by rewrite Hf, Hx.
  - rewrite Hx. apply IH.
Qed.

(** After [node->name = strdup (name)] the registry finds the caller under
    [name], when nobody had that name before. *)
Lemma orch_find_node_named node name ns nd :
  node_at node ns = Some nd -> orch_find_node ns name = None ->
  orch_find_node (upd_nodes node (set_node_name (Some name)) ns) name =
  Some (set_node_name (Some name) nd).
Proof.
  unfold node_at, upd_nodes.
  induction ns as [|x ns IH]; [done|]. cbn [find map orch_find_node].
  destruct (Nat.eqb (node_addr x) node) eqn:Hx.
  - intros [= <-] _. cbn. by rewrite String.eqb_refl.
  - destruct (node_name x) as [s|] eqn:Hn.
    + destruct (String.eqb s name); [done|]. apply IH.
    + apply IH.
Qed.

Lemma named_in_app node s ns ns' :
  named_in node s ns -> named_in node s (ns ++ ns').
Proof.
  intros (nd & Hnd & Hs). exists nd. split; [|done]. revert Hnd.
  unfold node_at. induction ns as [|x ns IH]; [done|]. cbn [find app].
  by destruct (Nat.eqb (node_addr x) node).
Qed.

Lemma named_in_upd node s node' f ns :
  (forall n, node_addr (f n) = node_addr n) ->
  (node' = node -> forall n, node_name (f n) = node_name n) ->
  named_in node s ns -> named_in node s (upd_nodes node' f ns).
Proof.
  intros Ha Hn (nd & Hnd & Hs). revert Hnd. unfold named_in, node_at, upd_nodes.
  induction ns as [|x ns IH]; [done|]. cbn [find map].
  destruct (Nat.eqb (node_addr x) node') eqn:Hx'.
  - rewrite Ha. destruct (Nat.eqb (node_addr x) node) eqn:Hx; [|done].
    intros [= ->]. exists (f nd). split; [done|]. rewrite Hn; [done|].
    apply Nat.eqb_eq in Hx, Hx'. congruence.
  - destruct (Nat.eqb (node_addr x) node); [|done].
    intros [= ->]. by exists nd.
Qed.

Lemma named_in_filter node s node' ns :
  node' <> node -> named_in node s ns ->
  named_in node s (filter (fun n => node_addr n <> node') ns).
Proof.
  intros Hne (nd & Hnd & Hs). exists nd. split; [|done]. revert Hnd.
  unfold node_at. induction ns as [|x ns IH]; [done|].
  rewrite filter_cons. cbn [find].
  destruct (decide (node_addr x <> node')) as [Hx|Hx].
  - cbn [find]. by destruct (Nat.eqb (node_addr x) node).
  - apply dec_stable in Hx.
    destruct (Nat.eqb (node_addr x) node) eqn:E; [|done].
    apply Nat.eqb_eq in E. congruence.
Qed.

(** The outcomes of Register for the node [nd] of the calling connection. *)
Lemma register_in_use e node name w nd :
  node_at node (nodes w) = Some nd ->
  node_name nd <> None \/ orch_find_node (nodes w) name <> None ->
  method_peer_orchestrator_register e node (MethodCall name) w =
  Ok (Replied, set_trace (trace w ++ [NodeReplyError node AddressInUse]) w).
Proof.
  intros Hnd Hcase. unfold method_peer_orchestrator_register.
  cbn [sd_bus_message_read]. unfold get_node. exec. rewrite Hnd. exec.
  destruct (node_name nd); [done|].
  destruct (orch_find_node (nodes w) name); [done|]. by destruct Hcase.
Qed.

Lemma register_no_node e node name w :
  node_at node (nodes w) = None ->
  method_peer_orchestrator_register e node (MethodCall name) w =
  Abort UseAfterFree.
Proof.
  intros Hnd. unfold method_peer_orchestrator_register.
  cbn [sd_bus_message_read]. unfold get_node. exec. by rewrite Hnd.
Qed.

Lemma register_fresh e node name w nd :
  node_at node (nodes w) = Some nd ->
  node_name nd = None -> orch_find_node (nodes w) name = None ->
  method_peer_orchestrator_register e node (MethodCall name) w =
  if r_strdup_ok e then
    let ns1 := upd_nodes node (set_node_name (Some name)) (nodes w) in
    if r_asprintf_ok e then
      let ns2 :=
        upd_nodes node (set_node_object_path (Some (NodePath name))) ns1 in
      if r_vtable_ok e then
        Ok (Replied,
            set_trace (trace w ++ [NodeReplyEmpty node])
              (set_nodes (upd_nodes node (set_node_bus_slot true) ns2) w))
      else Ok (Returned EXIT_FAILURE, set_nodes ns2 w)
    else
      Ok (Replied,
          set_trace (trace w ++ [NodeReplyError node NoMemory])
            (set_nodes ns1 w))
  else
    Ok (Replied, set_trace (trace w ++ [NodeReplyError node NoMemory]) w).
Proof.
  intros Hnd Hname Hfind. unfold method_peer_orchestrator_register.
  cbn [sd_bus_message_read]. unfold get_node. exec.
  rewrite Hnd, Hname. exec. rewrite Hfind. unfold upd_node.
  destruct (r_strdup_ok e), (r_asprintf_ok e), (r_vtable_ok e); exec;
    destruct w; reflexivity.
Qed.

(** A connection keeps its name until it is closed: nothing resets
    [node->name], and a node leaves the registry in [node_disconnected]
    only. *)
Lemma named_step ev node s w w' :
  ev <> EvDisconnected node -> step ev w = Ok (tt, w') ->
  named_in node s (nodes w) -> named_in node s (nodes w').
Proof.
  intros Hev Hstep Hn.
  destruct ev as [m e|rpc d|k err d|e|node' m e|node'];
    [by rewrite (keeps_nodes_step (EvIsolateAll m e) I _ _ _ Hstep)
    |by rewrite (keeps_nodes_step (EvDefer rpc d) I _ _ _ Hstep)
    |by rewrite (keeps_nodes_step (EvIsolateReply k err d) I _ _ _ Hstep)
    |..]; revert Hstep; cbn [step].
  - unfold bind at 1. accept_cases e; try done; intros [= <-]; cbn;
      try done.
    by apply named_in_upd, named_in_app.
  - exec. destruct (connected node' w); [|by intros [= <-]].
    destruct m as [name|z]; [|by intros [= <-]].
    destruct (node_at node' (nodes w)) as [nd|] eqn:Hnd;
      [|by rewrite register_no_node].
    destruct (node_name nd) as [s'|] eqn:Hname;
      [|destruct (orch_find_node (nodes w) name) as [n|] eqn:Hfind].
    + rewrite (register_in_use _ _ _ _ nd) by (done || left; congruence).
      by intros [= <-].
    + rewrite (register_in_use _ _ _ _ nd) by (done || right; congruence).
      by intros [= <-].
    + rewrite (register_fresh _ _ _ _ nd) by done.
      assert (Hne : node' = node -> False).
      { intros ->. destruct Hn as (nd' & Hnd' & Hs). congruence. }
      destruct (r_strdup_ok e), (r_asprintf_ok e), (r_vtable_ok e);
        intros [= <-]; cbn; try done;
        repeat (apply named_in_upd; [by intros []|done|]); done.
  - exec. destruct (connected node' w); [|by intros [= <-]].
    unfold node_disconnected, upd_node, orch_remove_node. exec.
    intros [= <-]. cbn. apply named_in_filter; [congruence|].
    by apply named_in_upd.
Qed.

Lemma named_run evs node s : forall w w',
  Forall (fun ev => ev <> EvDisconnected node) evs ->
  run evs w = Ok w' ->
  named_in node s (nodes w) -> named_in node s (nodes w').
Proof.
  induction evs as [|ev evs IH]; intros w w' Hevs; [by intros [= <-]|].
  inversion_clear Hevs as [|? ? Hev Hevs'].
  intros (w1 & Hs & Hr)%run_cons Hn.
  apply (IH w1 w' Hevs' Hr). by eapply named_step.
Qed.

(** * The claims *)

Lemma two_nodes_reachable :
  run [EvAccept accept_ok; EvAccept accept_ok;
       EvRegister 0 (MethodCall "A") register_ok] init = Ok two_nodes.
Proof. vm_compute. reflexivity. Qed.

(** ** C1 *)

(** C1, as stated, fails: the job of [errored_reply_run] got an error
    reply, its result is still JOB_DONE (not JOB_FAILED) once the reply
    has been handled, and it is removed with the result string "done". *)
Lemma C1_errored_reply_removed_as_done :
  (exists w j, run (take 4 errored_reply_run) init = Ok w /\
     heap w !! 1%nat = Some j /\ job_result j = JOB_DONE /\
     job_result j <> JOB_FAILED) /\
  (exists w, run errored_reply_run init = Ok w /\
     SigJobRemoved 1 (Some (JobPath 1)) "done" ∈ trace w).
Proof.
  split.
  - eexists _, _. split; [vm_compute; reflexivity|].
    split; [vm_compute; reflexivity|]. split; [reflexivity|discriminate].
  - eexists. split; [vm_compute; reflexivity|].
    cbn [trace]. repeat constructor.
Qed.

(** C1, amended: the completion handler does not look at the reply, so an
    error reply is handled like a success; no handler sets the result of a
    job, so every job of the heap has the result JOB_DONE and every
    JobRemoved signal carries "done", errored replies or not. *)
Theorem C1_result_is_always_done evs w :
  run evs init = Ok w ->
  (forall d job w0,
     job_isolate_all_cb true d job w0 = job_isolate_all_cb false d job w0) /\
  (forall a j, heap w !! a = Some j -> job_result j = JOB_DONE) /\
  (forall id p r, SigJobRemoved id p r ∈ trace w -> r = "done"%string).
Proof.
  intros HS%Sched_reachable. split; [done|]. split.
  - intros a j Hj. destruct (decide (a ∈ jobs w)) as [Hin|Hnin].
    + destruct (sch_live w HS a Hin) as (j' & Hj' & Hwf).
      assert (j' = j) as -> by congruence. apply Hwf.
    + rewrite (sch_dead w HS a Hnin) in Hj. done.
  - apply (sch_removed w HS).
Qed.

Lemma C1_result_is_always_done_witness :
  exists w, run errored_reply_run init = Ok w /\
    ((forall d job w0,
        job_isolate_all_cb true d job w0 = job_isolate_all_cb false d job w0) /\
     (forall a j, heap w !! a = Some j -> job_result j = JOB_DONE) /\
     (forall id p r, SigJobRemoved id p r ∈ trace w -> r = "done"%string)).
Proof.
  eexists. split; [vm_compute; reflexivity|].
  apply (C1_result_is_always_done errored_reply_run). vm_compute. reflexivity.
Defined.

(** ** C2 *)

(** C2 on the code: with an empty registry the start hook does call
    [finish_job] at once, but from inside [start_job_cb], where
    [orch->job_source] still holds the start source; the assertion
    [orch->job_source == NULL] of [finish_job] fails and the process aborts
    in the first loop iteration.  The job is never removed. *)
Theorem C2_empty_fleet_start_aborts target rpc d :
  run (empty_fleet_run target rpc d) init =
  Abort (AssertFailed "orch->job_source == NULL").
Proof. vm_compute. reflexivity. Qed.

(** ** C3 *)

(** C3 on the code: both deferred callbacks call [try_start_job] before
    they clear [orch->job_source].  A start hook that finishes at once
    therefore runs [finish_job] with the source still set: in
    [start_job_cb] after an IsolateAll on an empty registry, and in
    [finish_job_cb] when the next job of the queue finds the registry
    empty. *)
Theorem C3_try_start_runs_before_clear target rpc d :
  (exists w,
     run [EvIsolateAll (MethodCall target) queue_ok] init = Ok w /\
     job_source w = Some StartCb /\
     start_job_cb rpc d w =
       Abort (AssertFailed "orch->job_source == NULL")) /\
  (exists w,
     run finish_pending_run init = Ok w /\
     job_source w = Some FinishCb /\
     finish_job_cb rpc d w =
       Abort (AssertFailed "orch->job_source == NULL")).
Proof.
  destruct d as [d [[] []]];
    split; eexists; (split; [vm_compute; reflexivity|]);
    (split; [reflexivity|vm_compute; reflexivity]).
Qed.

(** ** C4 *)




(** ** C5 *)

Lemma finish_job_frame d job w w' :
  finish_job d job w = Ok (tt, w') ->
  calls w' = calls w /\ trace w' = trace w /\ heap w' = heap w.
Proof.
  unfold finish_job. exec. destruct (heap w !! job); [|done]. exec.
  destruct (bool_decide _); exec; [|done].
  destruct (bool_decide _); exec; [|done].
  by destruct d; intros [= <-].
Qed.

(** C5, as stated, fails: in [nameless_node_run] the only node of the
    registry has no name (it never called Register) and the start hook
    sends it an Isolate call. *)
Lemma C5_nameless_node_is_called :
  exists w n, run nameless_node_run init = Ok w /\
    nodes w = [n] /\ node_addr n = 0%nat /\ node_name n = None /\
    CallIsolate 0 (Some "t"%string) ∈ trace w.
Proof.
  eexists _, _. split; [vm_compute; reflexivity|].
  do 3 (split; [reflexivity|]). cbn [trace]. repeat constructor.
Qed.

(** C5, amended: the start hook sends one Isolate call, with the target of
    the job, to every node of the registry in registry order, whether the
    node has a name or not, and registers one reply callback for each.  It
    returns when every call could be sent and there is a node to call. *)
Theorem C5_one_call_per_registry_node rpc d job w j :
  heap w !! job = Some j ->
  (forall w', job_isolate_all rpc d job w = Ok (tt, w') ->
     calls w' =
       calls w ++ map (fun n => mkCall (node_addr n) job) (nodes w) /\
     trace w' =
       trace w ++
       map (fun n => CallIsolate (node_addr n) (isolate_target j)) (nodes w)) /\
  (Forall (fun n => rpc_fine (rpc (node_addr n)) = true) (nodes w) ->
   isolate_outstanding j + Z.of_nat (length (nodes w)) <> 0 ->
   exists w', job_isolate_all rpc d job w = Ok (tt, w')).
Proof.
  intros Hj. split.
  - intros w'. unfold job_isolate_all. exec.
    destruct (isolate_all_loop rpc job (nodes w) w) as [[[] w1]|f] eqn:E;
      [|done].
    apply (isolate_all_loop_inv _ _ _ _ j) in E as [_ ->]; [|done]. exec.
    destruct (_ =? 0).
    + intros (Hc & Ht & _)%finish_job_frame. by rewrite Hc, Ht.
    + by intros [= <-].
  - intros Hall Hnz. unfold job_isolate_all. exec.
    rewrite (isolate_all_loop_eq _ _ _ _ j) by done. exec. simpl_job.
    apply Z.eqb_neq in Hnz. rewrite Hnz. eauto.
Qed.

Lemma C5_one_call_per_registry_node_witness :
  exists w j, run (take 2 nameless_node_run) init = Ok w /\
    heap w !! 1%nat = Some j /\
    (forall w', job_isolate_all rpc_ok true 1 w = Ok (tt, w') ->
       calls w' =
         calls w ++ map (fun n => mkCall (node_addr n) 1) (nodes w) /\
       trace w' =
         trace w ++
         map (fun n => CallIsolate (node_addr n) (isolate_target j)) (nodes w)) /\
    (Forall (fun n => rpc_fine (rpc_ok (node_addr n)) = true) (nodes w) ->
     isolate_outstanding j + Z.of_nat (length (nodes w)) <> 0 ->
     exists w', job_isolate_all rpc_ok true 1 w = Ok (tt, w')).
Proof.
  eexists _, _. split; [vm_compute; reflexivity|].
  split; [vm_compute; reflexivity|].
  apply (C5_one_call_per_registry_node rpc_ok true 1). vm_compute. reflexivity.
Defined.

(** ** C6 *)

(** C6, as stated, fails: after the start hook of [three_nodes_run] three
    calls are outstanding and the reference count of the job is 2, the
    reference of the queue and that of [current_job]: the reply callbacks
    hold none. *)
Lemma C6_callbacks_hold_no_reference :
  exists w j, run three_nodes_run init = Ok w /\
    heap w !! 3%nat = Some j /\
    calls w = [mkCall 0 3; mkCall 1 3; mkCall 2 3] /\
    isolate_outstanding j = 3 /\ job_ref_count j = 2.
Proof.
  eexists _, _. split; [vm_compute; reflexivity|].
  split; [vm_compute; reflexivity|]. by repeat split.
Qed.

(** C6, amended: between two callbacks, the job of every outstanding call
    is allocated, is [current_job], is in the queue and is Running; its
    reference count is 2 whatever the number of outstanding calls, and its
    counter [outstanding] is that number.  The reply callbacks hold the
    address only; the job outlives them because the queue and
    [current_job] release it in the deferred finish, which is scheduled
    when the last call completes.  In particular the completion of any
    outstanding call finds the job and returns. *)
Theorem C6_outstanding_calls_find_job_alive evs w :
  run evs init = Ok w ->
  forall k c, calls w !! k = Some c ->
  exists j, heap w !! call_job c = Some j /\
    current_job w = Some (call_job c) /\ call_job c ∈ jobs w /\
    job_state j = JOB_RUNNING /\ job_ref_count j = 2 /\
    isolate_outstanding j = Z.of_nat (length (calls w)) /\
    forall err d, exists w', step (EvIsolateReply k err d) w = Ok (tt, w').
Proof.
  intros HS%Sched_reachable k c Hk.
  assert (Hc : current_job w = Some (call_job c)).
  { apply (sch_calls w HS). by eapply list_elem_of_lookup_2. }
  destruct (Sched_current w _ HS Hc)
    as (j & rest & Hjs & Hj & Hres & Hcb & Hpath & Hst & Hrc & Hout).
  exists j. repeat split; try done.
  - rewrite Hjs. apply elem_of_cons. by left.
  - intros err d. destruct (step_reply_eq w k err d c HS Hk) as (j' & _ & ->).
    eauto.
Qed.

Lemma C6_outstanding_calls_find_job_alive_witness :
  exists w, run three_nodes_run init = Ok w /\
    forall k c, calls w !! k = Some c ->
    exists j, heap w !! call_job c = Some j /\
      current_job w = Some (call_job c) /\ call_job c ∈ jobs w /\
      job_state j = JOB_RUNNING /\ job_ref_count j = 2 /\
      isolate_outstanding j = Z.of_nat (length (calls w)) /\
      forall err d, exists w', step (EvIsolateReply k err d) w = Ok (tt, w').
Proof.
  eexists. split; [vm_compute; reflexivity|].
  apply (C6_outstanding_calls_find_job_alive three_nodes_run).
  vm_compute. reflexivity.
Defined.

(** ** C7 *)

Lemma snoc_inj {A} (l : list A) (x y : A) : l ++ [x] = l ++ [y] -> x = y.
Proof. intros H. apply app_inv_head in H. congruence. Qed.

Lemma snoc_neq {A} (l : list A) (x : A) : l <> l ++ [x].
Proof.
  intros H. apply (f_equal length) in H. rewrite length_app in H. cbn in H. lia.
Qed.

(** C7: for the node [nd] of the calling connection, Register (name)
    answers AddressInUse exactly when [nd] has a name already or a node of
    the registry has the name [name].  In that case the world is unchanged
    but for the reply: no name is assigned, the registry is the same list.
    A caller without a name can then register under a name that nobody
    has: it gets the empty reply and the name. *)
Theorem C7_register_address_in_use e node name w nd :
  node_at node (nodes w) = Some nd ->
  exists r w',
    method_peer_orchestrator_register e node (MethodCall name) w
      = Ok (r, w') /\
    ((node_name nd <> None \/
      exists n, n ∈ nodes w /\ node_name n = Some name) <->
     trace w' = trace w ++ [NodeReplyError node AddressInUse]) /\
    (trace w' = trace w ++ [NodeReplyError node AddressInUse] ->
     r = Replied /\ nodes w' = nodes w /\
     node_at node (nodes w') = Some nd /\
     (node_name nd = None ->
      forall name2, (forall n, n ∈ nodes w -> node_name n <> Some name2) ->
      exists w'' nd2,
        method_peer_orchestrator_register register_ok node
          (MethodCall name2) w' = Ok (Replied, w'') /\
        trace w'' = trace w' ++ [NodeReplyEmpty node] /\
        node_at node (nodes w'') = Some nd2 /\
        node_name nd2 = Some name2)).
Proof.
  intros Hnd.
  destruct (node_name nd) as [s|] eqn:Hname;
    [|destruct (orch_find_node (nodes w) name) as [n|] eqn:Hfind].
  - eexists _, _. split; [apply (register_in_use _ _ _ _ nd); [done|]|].
    { left. congruence. }
    split; [split; [done|by left]|]. intros _. by repeat split.
  - eexists _, _. split; [apply (register_in_use _ _ _ _ nd); [done|]|].
    { right. congruence. }
    apply orch_find_node_Some in Hfind as [Hin Hn].
    split; [split; [done|right; by exists n]|]. intros _.
    do 3 (split; [done|]). intros _ name2 Hfree.
    apply orch_find_node_None in Hfree.
    eexists _, _. split.
    { rewrite (register_fresh _ _ _ _ nd); [reflexivity|done..]. }
    cbn. split; [done|].
    split; [repeat (apply node_at_upd; [by intros []|]); exact Hnd|done].
  - rewrite (register_fresh _ _ _ _ nd) by done.
    assert (Hno : ~ (None <> (None : option string) \/
                     exists n, n ∈ nodes w /\ node_name n = Some name)).
    { intros [?|(n & Hin & Hn)]; [done|].
      by apply (proj1 (orch_find_node_None _ _) Hfind n). }
    destruct (r_strdup_ok e), (r_asprintf_ok e), (r_vtable_ok e);
      eexists _, _; (split; [reflexivity|]); cbn;
      (split; [split; [by intros ?%Hno|]|]);
      try (by intros ?%snoc_inj); try (by intros ?%snoc_neq).
Qed.

Lemma C7_register_address_in_use_witness :
  node_at 1 (nodes two_nodes) = Some (mkNode 1 1 true false None None) /\
  exists r w',
    method_peer_orchestrator_register register_ok 1 (MethodCall "A") two_nodes
      = Ok (r, w') /\
    ((node_name (mkNode 1 1 true false None None) <> None \/
      exists n, n ∈ nodes two_nodes /\ node_name n = Some "A"%string) <->
     trace w' = trace two_nodes ++ [NodeReplyError 1 AddressInUse]) /\
    (trace w' = trace two_nodes ++ [NodeReplyError 1 AddressInUse] ->
     r = Replied /\ nodes w' = nodes two_nodes /\
     node_at 1 (nodes w') = Some (mkNode 1 1 true false None None) /\
     (node_name (mkNode 1 1 true false None None) = None ->
      forall name2,
        (forall n, n ∈ nodes two_nodes -> node_name n <> Some name2) ->
      exists w'' nd2,
        method_peer_orchestrator_register register_ok 1
          (MethodCall name2) w' = Ok (Replied, w'') /\
        trace w'' = trace w' ++ [NodeReplyEmpty 1] /\
        node_at 1 (nodes w'') = Some nd2 /\
        node_name nd2 = Some name2)).
Proof.
  split; [reflexivity|].
  apply (C7_register_address_in_use register_ok 1 "A" two_nodes).
  reflexivity.
Defined.

(** ** C8 *)



(** ** C9 *)


(** The counter is a [uint32_t]: the id minted after 4294967295 is 0. *)
Lemma job_new_wraps t w :
  next_job_id w = 2 ^ 32 - 1 ->
  exists a w1, job_new true true t w = Ok (Some a, w1) /\
    id_of (heap w1) a = 0.
Proof.
  intros Hn. unfold job_new. exec. eexists _, _. split; [reflexivity|].
  unfold id_of. cbn. rewrite lookup_insert_eq. cbn. by rewrite Hn.
Qed.




(** ** C10 *)

(** C10: when the caller has no name, nobody has the name [name], [strdup]
    succeeds and [asprintf] fails, Register answers NoMemory and leaves the
    name on the node: [orch_find_node] finds the caller under [name], and
    as long as the connection is open every later Register on it, whatever
    happens in between, answers AddressInUse and changes nothing else. *)
Theorem C10_register_keeps_name_on_no_memory e node name w nd :
  node_at node (nodes w) = Some nd -> node_name nd = None ->
  orch_find_node (nodes w) name = None ->
  r_strdup_ok e = true -> r_asprintf_ok e = false ->
  exists w',
    method_peer_orchestrator_register e node (MethodCall name) w
      = Ok (Replied, w') /\
    trace w' = trace w ++ [NodeReplyError node NoMemory] /\
    (exists nd', orch_find_node (nodes w') name = Some nd' /\
       node_at node (nodes w') = Some nd' /\ node_name nd' = Some name) /\
    (forall evs w'' e2 name2,
       Forall (fun ev => ev <> EvDisconnected node) evs ->
       run evs w' = Ok w'' ->
       method_peer_orchestrator_register e2 node (MethodCall name2) w''
         = Ok (Replied,
               set_trace (trace w'' ++ [NodeReplyError node AddressInUse])
                 w'')).
Proof.
  intros Hnd Hname Hfind Hs Ha.
  rewrite (register_fresh _ _ _ _ nd), Hs, Ha by done. cbn zeta.
  eexists. split; [reflexivity|]. cbn [trace nodes set_trace set_nodes].
  split; [done|].
  assert (Hnd' : node_at node
            (upd_nodes node (set_node_name (Some name)) (nodes w)) =
          Some (set_node_name (Some name) nd)).
  { by apply node_at_upd; [intros []|]. }
  split.
  - exists (set_node_name (Some name) nd).
    split; [by apply orch_find_node_named|]. by split.
  - intros evs w'' e2 name2 Hevs Hrun.
    destruct (named_run evs node name _ w'' Hevs Hrun) as (nd2 & Hnd2 & Hn2).
    { by exists (set_node_name (Some name) nd). }
    apply (register_in_use _ _ _ _ nd2); [done|]. left. congruence.
Qed.

Lemma C10_register_keeps_name_on_no_memory_witness :
  node_at 1 (nodes two_nodes) = Some (mkNode 1 1 true false None None) /\
  node_name (mkNode 1 1 true false None None) = None /\
  orch_find_node (nodes two_nodes) "B" = None /\
  r_strdup_ok (mkRegisterEnv true false true) = true /\
  r_asprintf_ok (mkRegisterEnv true false true) = false /\
  exists w',
    method_peer_orchestrator_register (mkRegisterEnv true false true) 1
      (MethodCall "B") two_nodes = Ok (Replied, w') /\
    trace w' = trace two_nodes ++ [NodeReplyError 1 NoMemory] /\
    (exists nd', orch_find_node (nodes w') "B" = Some nd' /\
       node_at 1 (nodes w') = Some nd' /\
       node_name nd' = Some "B"%string) /\
    (forall evs w'' e2 name2,
       Forall (fun ev => ev <> EvDisconnected 1) evs ->
       run evs w' = Ok w'' ->
       method_peer_orchestrator_register e2 1 (MethodCall name2) w''
         = Ok (Replied,
               set_trace (trace w'' ++ [NodeReplyError 1 AddressInUse]) w'')).
Proof.
  do 5 (split; [reflexivity|]).
  apply (C10_register_keeps_name_on_no_memory (mkRegisterEnv true false true)
           1 "B" two_nodes (mkNode 1 1 true false None None)); reflexivity.
Defined.

(** * Further properties of the handlers *)

(** ** What the deferred callbacks return *)

Lemma all_fine_Forall rpc ns :
  all_fine rpc ns = true <->
  Forall (fun n => rpc_fine (rpc (node_addr n)) = true) ns.
Proof.
  unfold all_fine. induction ns as [|n ns IH]; cbn [forallb].
  - split; [constructor|done].
  - rewrite andb_true_iff, IH. split.
    + intros [? ?]. by constructor.
    + by inversion 1.
Qed.

(** The dispatch loop stops at the first node whose call cannot be sent. *)
Lemma isolate_all_loop_fail rpc job ns : forall w j,
  heap w !! job = Some j -> all_fine rpc ns = false ->
  isolate_all_loop rpc job ns w = Abort (AssertFailed "r >= 0").
Proof.
  unfold all_fine. induction ns as [|n ns IH]; intros w j Hj; [done|].
  cbn [forallb isolate_all_loop]. unfold rpc_fine.
  destruct (new_method_call_ok _); exec; [|done].
  destruct (append_ok _); exec; [|done].
  destruct (call_async_ok _); exec; [|done].
  cbn [andb]. intros Hns. eapply IH; [|done]. exec. reflexivity.
Qed.

Lemma try_start_job_eq rpc d w a rest j :
  jobs w = a :: rest -> heap w !! a = Some j ->
  job_start_cb j = Some job_isolate_all_hook ->
  job_source w <> None -> isolate_outstanding j = 0 ->
  try_start_job rpc d w = start_outcome rpc a j w.
Proof.
  intros Hjs Hj Hcb Hsrc Hout. unfold start_outcome.
  destruct (all_fine rpc (nodes w)) eqn:Hall.
  - unfold try_start_job, job_ref, job_isolate_all. exec. rewrite Hjs. exec.
    simpl_job. rewrite Hcb. exec.
    erewrite isolate_all_loop_eq;
      [|exec; reflexivity|by apply all_fine_Forall].
    exec. simpl_job. rewrite Hout.
    destruct (nodes w) as [|n ns] eqn:Hns.
    + cbn [length]. change (0 + Z.of_nat 0 =? 0) with true.
      unfold finish_job. exec. bd. exec.
      destruct (job_source w); [|done]. by bd.
    + replace (0 + Z.of_nat (length (n :: ns)) =? 0) with false
        by (symmetry; apply Z.eqb_neq; cbn [length]; lia).
      unfold started_world, started_job. rewrite Hns, Hout.
      destruct w. by norm_world.
  - unfold try_start_job, job_ref, job_isolate_all. exec. rewrite Hjs. exec.
    simpl_job. rewrite Hcb. exec.
    erewrite isolate_all_loop_fail; [done|exec; reflexivity|done].
Qed.

(** A dispatch of the deferred start. *)
Lemma step_start_eq rpc d w :
  Sched w -> job_source w = Some StartCb ->
  exists b rest j, current_job w = None /\ jobs w = b :: rest /\
    heap w !! b = Some j /\
    step (EvDefer rpc d) w =
    match start_outcome rpc b j w with
    | Ok (_, w1) => Ok (tt, set_job_source None w1)
    | Abort f => Abort f
    end.
Proof.
  intros HI Hsrc. pose proof (sch_src w HI) as Hs. rewrite Hsrc in Hs.
  destruct Hs as [Hc Hne].
  destruct (jobs w) as [|b rest] eqn:Hjs; [done|].
  assert (Hb : b ∈ jobs w) by (rewrite Hjs; apply elem_of_cons; by left).
  destruct (Sched_waiting w b HI Hb) as
    (j & Hj & Hres & Hcb & Hpath & Hst & Hrc & Hout); [congruence|].
  exists b, rest, j. do 3 (split; [done|]).
  cbn [step]. unfold bind at 1, gets. rewrite Hsrc.
  unfold start_job_cb. unfold bind at 1.
  rewrite (try_start_job_eq rpc (d_defer_ok d) w b rest j)
    by (done || congruence).
  by destruct (start_outcome rpc b j w) as [[[] w1]|f].
Qed.

(** A dispatch of the deferred finish. *)
Lemma step_finish_eq rpc d w :
  Sched w -> job_source w = Some FinishCb ->
  exists a j rest, current_job w = Some a /\ calls w = [] /\
    jobs w = a :: rest /\ heap w !! a = Some j /\
    match rest with
    | [] =>
        step (EvDefer rpc d) w = Ok (tt, removed_world (d_signal d) a j [] w)
    | b :: _ =>
        exists jb, heap w !! b = Some jb /\
          step (EvDefer rpc d) w =
          match
            start_outcome rpc b jb (removed_world (d_signal d) a j rest w)
          with
          | Ok (_, w1) => Ok (tt, set_job_source None w1)
          | Abort f => Abort f
          end
    end.
Proof.
  intros HI Hsrc. pose proof (sch_src w HI) as Hs. rewrite Hsrc in Hs.
  destruct Hs as [Hc Hcs].
  destruct (current_job w) as [a|] eqn:Hcur; [clear Hc|done].
  destruct (Sched_current w a HI Hcur)
    as (j & rest & Hjs & Hj & Hres & Hcb & Hpath & Hst & Hrc & Hout).
  assert (Hnd : (a ∉ rest) /\ NoDup rest).
  { apply NoDup_cons. rewrite <- Hjs. apply (sch_nodup w HI). }
  destruct Hnd as [Hna Hnd].
  exists a, j, rest. do 4 (split; [done|]).
  assert (Hstep : step (EvDefer rpc d) w = finish_job_cb rpc d w).
  { cbn [step]. unfold bind at 1, gets. by rewrite Hsrc. }
  rewrite Hstep. clear Hstep.
  destruct rest as [|b rest'].
  - unfold finish_job_cb. exec. rewrite Hcur.
    rewrite (orch_send_job_removed_signal_eq _ _ j) by done.
    unfold orch_remove_job, job_unref. exec. simpl_job.
    rewrite Hjs, filter_head, Hrc by done. norm_arith.
    unfold try_start_job. exec. simpl_job. norm_arith.
    exec. unfold removed_world.
    destruct w; cbn in *. subst. norm_world. by rewrite delete_insert_eq.
  - assert (Hb : b ∈ jobs w).
    { rewrite Hjs. apply elem_of_cons. right. apply elem_of_cons. by left. }
    assert (Hba : b <> a).
    { intros ->. apply Hna. apply elem_of_cons. by left. }
    destruct (Sched_waiting w b HI Hb) as
      (jb & Hjb & Hresb & Hcbb & Hpathb & Hstb & Hrcb & Houtb);
      [congruence|].
    exists jb. split; [done|].
    unfold finish_job_cb. exec. rewrite Hcur.
    rewrite (orch_send_job_removed_signal_eq _ _ j) by done.
    unfold orch_remove_job, job_unref. exec. simpl_job.
    rewrite Hjs, filter_head, Hrc by done. norm_arith. exec.
    rewrite (try_start_job_eq _ _ _ b rest' jb);
      [|done|cbn; by rewrite lookup_insert_ne|done|cbn; congruence|done].
    unfold start_outcome. cbn [nodes set_trace set_heap set_jobs
      set_job_source set_current_job removed_world].
    destruct (all_fine rpc (nodes w)); [|done].
    destruct (nodes w) as [|n ns] eqn:Hns; [done|].
    unfold started_world, removed_world. exec. simpl_job. norm_arith. exec.
    destruct w; cbn in *. subst. norm_world. do 3 f_equal.
    apply map_eq. intros x.
    destruct (decide (x = a)) as [->|Hxa];
      [by rewrite lookup_delete_eq, lookup_insert_ne, lookup_delete_eq|].
    rewrite lookup_delete_ne by congruence.
    rewrite (lookup_insert_ne _ a x) by congruence.
    destruct (decide (x = b)) as [->|Hxb];
      [by rewrite !lookup_insert_eq|].
    rewrite !(lookup_insert_ne _ b x) by congruence.
    by rewrite lookup_insert_ne, lookup_delete_ne by congruence.
Qed.

(** ** Handlers that return *)

Lemma connected_node_at node w :
  connected node w = true -> exists nd, node_at node (nodes w) = Some nd.
Proof.
  unfold connected, node_at. induction (nodes w) as [|n ns IH]; [done|].
  cbn [existsb find]. destruct (Nat.eqb (node_addr n) node); [eauto|done].
Qed.

(** [accept_handler] returns unless [sd_id128_randomize] fails. *)
Lemma step_accept_abort e w f :
  step (EvAccept e) w = Abort f <->
  a_accept4 e = None /\ bus_made e = true /\ a_randomize_ok e = false /\
  f = AssertFailed "r >= 0".
Proof.
  cbn [step]. unfold bind at 1. rewrite accept_handler_unfold.
  destruct (a_accept4 e); [split; [done|by intros [? _]]|].
  destruct (bus_made e); [|split; [done|by intros (_ & ? & _)]].
  destruct (a_randomize_ok e).
  - split; [|by intros (_ & _ & ? & _)].
    by destruct (bus_started e && a_node_new_ok e),
      (a_hello_vtable_ok e && a_peer_vtable_ok e), (a_match_ok e).
  - split; [by intros [= <-]|by intros (_ & _ & _ & ->)].
Qed.

Lemma register_returns e node m w :
  connected node w = true ->
  exists r w', method_peer_orchestrator_register e node m w = Ok (r, w').
Proof.
  intros (nd & Hnd)%connected_node_at. destruct m as [name|z]; [|by eexists _, _].
  destruct (node_name nd) as [s|] eqn:Hname;
    [|destruct (orch_find_node (nodes w) name) as [n|] eqn:Hfind].
  - rewrite (register_in_use _ _ _ _ nd) by (done || left; congruence). eauto.
  - rewrite (register_in_use _ _ _ _ nd) by (done || right; congruence). eauto.
  - rewrite (register_fresh _ _ _ _ nd) by done.
    destruct (r_strdup_ok e), (r_asprintf_ok e), (r_vtable_ok e); cbn; eauto.
Qed.

Lemma step_node_returns ev w :
  match ev with
  | EvRegister _ _ _ | EvDisconnected _ => True
  | _ => False
  end ->
  exists w', step ev w = Ok (tt, w').
Proof.
  destruct ev as [m e|rpc d|k err d|e|node m e|node]; try done; intros _;
    cbn [step].
  - unfold bind at 1, gets. destruct (connected node w) eqn:Hc; [|by eexists].
    destruct (register_returns e node m w Hc) as (r & w' & E).
    unfold bind. rewrite E. eauto.
  - unfold bind at 1, gets. destruct (connected node w); [|by eexists].
    unfold node_disconnected, upd_node, orch_remove_node. exec. eauto.
Qed.

Lemma step_reply_returns w k err d :
  Sched w -> exists w', step (EvIsolateReply k err d) w = Ok (tt, w').
Proof.
  intros HI. destruct (calls w !! k) as [c|] eqn:Hk.
  - destruct (step_reply_eq w k err d c HI Hk) as (j & _ & ->). eauto.
  - cbn [step]. exec. eauto.
Qed.

Lemma step_isolate_all_abort m e w f :
  step (EvIsolateAll m e) w = Abort f <->
  exists target, m = MethodCall target /\ q_malloc_ok e = true /\
    q_asprintf_ok e = true /\ q_vtable_ok e = false /\ f = NullDeref.
Proof.
  cbn [step]. unfold bind at 1. destruct m as [target|r].
  2:{ cbn. split; [done|]. by intros (? & ? & _). }
  destruct (q_malloc_ok e) eqn:Hm.
  2:{ rewrite method_isolate_all_no_malloc by done.
      split; [done|]. by intros (? & _ & ? & _). }
  destruct (q_asprintf_ok e) eqn:Ha.
  2:{ rewrite method_isolate_all_no_path by done.
      split; [done|]. by intros (? & _ & _ & ? & _). }
  destruct (q_vtable_ok e) eqn:Hv.
  - rewrite method_isolate_all_eq by done. cbn zeta.
    split; [done|]. by intros (? & _ & _ & _ & ? & _).
  - rewrite method_isolate_all_no_vtable by done. split.
    + intros [= <-]. by exists target.
    + by intros (? & _ & _ & _ & _ & ->).
Qed.

Lemma start_outcome_abort rpc b j w f :
  start_outcome rpc b j w = Abort f <->
  (all_fine rpc (nodes w) = false /\ f = AssertFailed "r >= 0") \/
  (nodes w = [] /\ f = AssertFailed "orch->job_source == NULL").
Proof.
  unfold start_outcome. destruct (all_fine rpc (nodes w)) eqn:Hall.
  - destruct (nodes w) as [|n ns]; split.
    + intros [= <-]. by right.
    + by intros [[? _]|[_ ->]].
    + done.
    + by intros [[? _]|[? _]].
  - split.
    + intros [= <-]. by left.
    + intros [[_ ->]|[Hn _]]; [done|]. by rewrite Hn in Hall.
Qed.

Lemma step_defer_abort rpc d w f :
  Sched w ->
  step (EvDefer rpc d) w = Abort f <->
  next_to_start w <> None /\
  ((all_fine rpc (nodes w) = false /\ f = AssertFailed "r >= 0") \/
   (nodes w = [] /\ f = AssertFailed "orch->job_source == NULL")).
Proof.
  intros HI. unfold next_to_start.
  destruct (job_source w) as [[]|] eqn:Hsrc.
  - destruct (step_start_eq rpc d w HI Hsrc)
      as (b & rest & j & Hc & Hjs & Hj & ->).
    rewrite Hjs. cbn [head]. rewrite <- (start_outcome_abort rpc b j w).
    destruct (start_outcome rpc b j w) as [[[] w1]|f']; split;
      try done; try (by intros [_ ?]); intros [= <-]; by split.
  - destruct (step_finish_eq rpc d w HI Hsrc)
      as (a & j & rest & Hc & Hcs & Hjs & Hj & Hcase).
    rewrite Hjs. cbn [tail]. destruct rest as [|b rest'].
    + rewrite Hcase. cbn [head]. split; [done|]. by intros [? _].
    + destruct Hcase as (jb & Hjb & ->). cbn [head].
      rewrite <- (start_outcome_abort rpc b jb
                    (removed_world (d_signal d) a j (b :: rest') w)).
      destruct (start_outcome rpc b jb _) as [[[] w1]|f']; split;
        try done; try (by intros [_ ?]); intros [= <-]; by split.
  - cbn [step]. exec. rewrite Hsrc. split; [done|]. by intros [? _].
Qed.

Lemma step_abort_iff ev w f :
  Sched w -> step ev w = Abort f <-> Crash w ev f.
Proof.
  intros HI. split.
  - destruct ev as [m e|rpc d|k err d|e|node m e|node].
    + intros (target & -> & ? & ? & ? & ->)%step_isolate_all_abort.
      by constructor.
    + intros H. apply step_defer_abort in H as [Hn [[? ->]|[? ->]]];
        [by constructor|by constructor|done].
    + intros E. destruct (step_reply_returns w k err d HI) as [w' E'].
      congruence.
    + intros (? & ? & ? & ->)%step_accept_abort. by constructor.
    + intros E.
      destruct (step_node_returns (EvRegister node m e) w I) as [w' E'].
      congruence.
    + intros E.
      destruct (step_node_returns (EvDisconnected node) w I) as [w' E'].
      congruence.
  - intros [target e Hm Ha Hv|rpc d Hn Hall|rpc d Hn Hns|e Ha Hb Hr].
    + apply step_isolate_all_abort. by exists target.
    + apply step_defer_abort; [done|]. split; [done|]. by left.
    + apply step_defer_abort; [done|]. split; [done|]. by right.
    + by apply step_accept_abort.
Qed.

(** ** What the handlers send *)

Section emits.
Context (f : Obs -> bool).

Lemma emits_bind {A B} (c : M A) (k : A -> M B) :
  emits f c -> (forall a, emits f (k a)) -> emits f (x <- c ;; k x).
Proof.
  intros Hc Hk w b w'. unfold bind.
  destruct (c w) as [[a w1]|e] eqn:E; [|done].
  intros (out2 & -> & H2)%Hk. apply Hc in E as (out1 & -> & H1).
  exists (out1 ++ out2). split; [by rewrite app_assoc|by apply Forall_app].
Qed.

Lemma emits_nothing {A} (c : M A) :
  (forall w a w', c w = Ok (a, w') -> trace w' = trace w) -> emits f c.
Proof.
  intros Hc w a w' E. exists []. rewrite app_nil_r. split; [eauto|constructor].
Qed.

Lemma emits_ret {A} (a : A) : emits f (ret a).
Proof. apply emits_nothing. by intros w a' w' [= _ <-]. Qed.

Lemma emits_abort {A} e : emits f (@abort A e).
Proof. by intros w a w'. Qed.

Lemma emits_gets {A} (g : World -> A) : emits f (gets g).
Proof. apply emits_nothing. by intros w a' w' [= _ <-]. Qed.

Lemma emits_modify (g : World -> World) :
  (forall w, trace (g w) = trace w) -> emits f (modify g).
Proof.
  intros Hg. apply emits_nothing. intros w a w' H. unfold modify in H.
  injection H as Hw. subst w'. apply Hg.
Qed.

Lemma emits_emit o : f o = true -> emits f (emit o).
Proof.
  intros Ho w a w' H. unfold emit, modify in H. injection H as Hw. subst w'.
  exists [o]. split; [done|]. by constructor.
Qed.

Lemma emits_get_job a : emits f (get_job a).
Proof.
  apply emits_nothing. intros w j w'. unfold get_job.
  by destruct (heap w !! a); intros [= _ <-].
Qed.

Lemma emits_get_node a : emits f (get_node a).
Proof.
  apply emits_nothing. intros w j w'. unfold get_node.
  by destruct (node_at _ _); intros [= _ <-].
Qed.
End emits.

Ltac emits :=
  repeat first
    [ solve [auto with nocore]
    | apply emits_ret | apply emits_abort | apply emits_gets
    | apply emits_get_job | apply emits_get_node
    | apply emits_emit; first [done | apply Nat.eqb_refl]
    | apply emits_modify; by intros []
    | apply emits_bind; [|intros ?]
    | match goal with
      | |- emits _ (match ?x with _ => _ end) => destruct x
      | |- emits _ (assert ?b _) => unfold assert
      | |- emits _ (let '(_, _) := ?x in _) => destruct x
      end ].

Lemma emits_job_unref f a : emits f (job_unref a).
Proof. unfold job_unref, upd_job, free_job. emits. Qed.

Lemma emits_isolate_all e m :
  emits queue_output (method_orchestrator_isolate_all e m).
Proof.
  pose proof (emits_job_unref queue_output).
  unfold method_orchestrator_isolate_all, orch_queue_job, job_new,
    malloc0_job, job_ref, orch_add_job, orch_send_job_new_signal,
    schedule_job, upd_job, free_job.
  emits; auto.
Qed.

Lemma emits_register e node m :
  emits (node_output node) (method_peer_orchestrator_register e node m).
Proof.
  unfold method_peer_orchestrator_register, upd_node. emits.
Qed.

Lemma emits_accept_handler e : emits no_output (accept_handler e).
Proof.
  apply emits_nothing. intros w r w'.
  accept_cases e; try done; by intros [= _ <-].
Qed.

Lemma emits_node_disconnected node : emits no_output (node_disconnected node).
Proof. unfold node_disconnected, upd_node, orch_remove_node. emits. Qed.

Lemma emits_finish_job f d a : emits f (finish_job d a).
Proof. unfold finish_job. emits. Qed.

Lemma emits_isolate_reply k err d :
  emits no_output (step (EvIsolateReply k err d)).
Proof.
  pose proof (emits_finish_job no_output).
  cbn [step]. unfold job_isolate_all_cb, upd_job. emits; auto.
Qed.

Lemma emits_isolate_all_loop rpc a ns :
  emits scheduler_output (isolate_all_loop rpc a ns).
Proof.
  induction ns as [|n ns IH]; cbn [isolate_all_loop]; [emits|].
  unfold upd_job. emits; auto.
Qed.

Lemma emits_try_start_job rpc d : emits scheduler_output (try_start_job rpc d).
Proof.
  pose proof (emits_finish_job scheduler_output).
  pose proof emits_isolate_all_loop.
  unfold try_start_job, job_ref, upd_job, job_isolate_all. emits; auto.
Qed.

Lemma emits_defer rpc d : emits scheduler_output (step (EvDefer rpc d)).
Proof.
  pose proof emits_try_start_job. pose proof (emits_job_unref scheduler_output).
  cbn [step].
  unfold start_job_cb, finish_job_cb, orch_send_job_removed_signal,
    orch_remove_job.
  emits; auto.
Qed.

(** What each callback can send. *)
Lemma emits_step ev :
  emits (match ev with
         | EvIsolateAll _ _ => queue_output
         | EvDefer _ _ => scheduler_output
         | EvRegister node _ _ => node_output node
         | _ => no_output
         end) (step ev).
Proof.
  destruct ev as [m e|rpc d|k err d|e|node m e|node].
  - cbn [step]. apply emits_bind; [apply emits_isolate_all|intros ?].
    apply emits_ret.
  - apply emits_defer.
  - apply emits_isolate_reply.
  - cbn [step]. apply emits_bind; [apply emits_accept_handler|intros ?].
    apply emits_ret.
  - pose proof (emits_register e node m). cbn [step]. emits; auto.
  - pose proof (emits_node_disconnected node). cbn [step]. emits; auto.
Qed.

(** ** A job whose deferred finish could not be queued *)

(** A callback that is not a dispatch of the deferred source sends nothing
    that [scheduler_output] covers. *)
Lemma step_not_scheduler_output ev w w' :
  (forall rpc d, ev <> EvDefer rpc d) -> step ev w = Ok (tt, w') ->
  exists out, trace w' = trace w ++ out /\
    Forall (fun o => scheduler_output o = false) out.
Proof.
  intros Hev (out & Ht & Hout)%emits_step. exists out. split; [done|].
  eapply Forall_impl; [exact Hout|]. intros o.
  destruct ev as [m e|rpc d|k err d|e|node m e|node];
    [|by destruct (Hev rpc d)|..]; by destruct o.
Qed.

(** With a current job, no deferred source and no outstanding call,
    nothing moves the scheduler any more. *)
Lemma wedged_step ev w w' a :
  Sched w -> current_job w = Some a -> job_source w = None ->
  calls w = [] -> step ev w = Ok (tt, w') ->
  current_job w' = Some a /\ job_source w' = None /\ calls w' = [] /\
  exists out, trace w' = trace w ++ out /\
    Forall (fun o => scheduler_output o = false) out.
Proof.
  intros HI Hc Hsrc Hcs Hstep.
  assert (Hnode : node_frame w w' ->
    current_job w' = Some a /\ job_source w' = None /\ calls w' = []).
  { intros (_ & Hc' & Hs' & _ & _ & Hcs' & _). repeat split; congruence. }
  destruct ev as [m e|rpc d|k err d|e|node m e|node].
  - enough (current_job w' = Some a /\ job_source w' = None /\ calls w' = [])
      as (? & ? & ?).
    { do 3 (split; [done|]).
      eapply step_not_scheduler_output; [|exact Hstep]; done. }
    apply step_isolate_all_inv in Hstep as [Hf|[->|(t & _ & ->)]];
      [by apply Hnode|done|].
    cbn. unfold scheduled. by rewrite Hc.
  - revert Hstep. cbn [step]. exec. rewrite Hsrc. intros [= <-].
    do 3 (split; [done|]). exists []. by rewrite app_nil_r.
  - revert Hstep. cbn [step]. exec. rewrite Hcs. cbn. intros [= <-].
    do 3 (split; [done|]). exists []. by rewrite app_nil_r.
  - enough (current_job w' = Some a /\ job_source w' = None /\ calls w' = [])
      as (? & ? & ?).
    { do 3 (split; [done|]).
      eapply step_not_scheduler_output; [|exact Hstep]; done. }
    eapply Hnode, step_node_frame, Hstep. done.
  - enough (current_job w' = Some a /\ job_source w' = None /\ calls w' = [])
      as (? & ? & ?).
    { do 3 (split; [done|]).
      eapply step_not_scheduler_output; [|exact Hstep]; done. }
    eapply Hnode, step_node_frame, Hstep. done.
  - enough (current_job w' = Some a /\ job_source w' = None /\ calls w' = [])
      as (? & ? & ?).
    { do 3 (split; [done|]).
      eapply step_not_scheduler_output; [|exact Hstep]; done. }
    eapply Hnode, step_node_frame, Hstep. done.
Qed.

Lemma wedged_run evs : forall w w' a,
  Sched w -> current_job w = Some a -> job_source w = None ->
  calls w = [] -> run evs w = Ok w' ->
  current_job w' = Some a /\ job_source w' = None /\ calls w' = [] /\
  exists out, trace w' = trace w ++ out /\
    Forall (fun o => scheduler_output o = false) out.
Proof.
  induction evs as [|ev evs IH]; intros w w' a HI Hc Hsrc Hcs.
  - intros [= <-]. do 3 (split; [done|]). exists []. by rewrite app_nil_r.
  - intros (w1 & Hs & Hr)%run_cons.
    pose proof (Sched_step ev w w1 HI Hs) as HI1.
    destruct (wedged_step ev w w1 a HI Hc Hsrc Hcs Hs)
      as (Hc1 & Hs1 & Hcs1 & out1 & Ht1 & Ho1).
    destruct (IH w1 w' a HI1 Hc1 Hs1 Hcs1 Hr)
      as (Hc2 & Hs2 & Hcs2 & out2 & Ht2 & Ho2).
    do 3 (split; [done|]). exists (out1 ++ out2).
    split; [by rewrite Ht2, Ht1, app_assoc|by apply Forall_app].
Qed.

(** ** Statements about the scheduler *)

(** X1: between two callbacks of a run from the initial orchestrator, a
    callback ends the process in exactly four ways: IsolateAll
    dereferences NULL when [sd_bus_add_object_vtable] fails in
    [orch_queue_job]; a deferred callback that has a job to start fails
    [assert (r >= 0)] when a call to some node cannot be sent, and fails
    [assert (orch->job_source == NULL)] when the registry is empty; the
    accept handler fails [assert (r >= 0)] when [sd_id128_randomize] fails
    on a connection whose bus was made.  No callback touches a freed job,
    and the assertions [job != NULL] and [orch->current_job == job] never
    fail. *)
Theorem X1_crash_causes evs w ev f :
  run evs init = Ok w ->
  (step ev w = Abort f <-> Crash w ev f) /\
  (step ev w = Abort f ->
   f <> UseAfterFree /\ f <> AssertFailed "job != NULL" /\
   f <> AssertFailed "orch->current_job == job").
Proof.
  intros HI%Sched_reachable. split; [by apply step_abort_iff|].
  intros H. apply step_abort_iff in H; [|done]. by destruct H.
Qed.

Lemma X1_crash_causes_witness :
  exists w, run [EvIsolateAll (MethodCall "t") queue_ok] init = Ok w /\
    (step (EvDefer rpc_ok deferred_ok) w =
       Abort (AssertFailed "orch->job_source == NULL") <->
     Crash w (EvDefer rpc_ok deferred_ok)
       (AssertFailed "orch->job_source == NULL")) /\
    (step (EvDefer rpc_ok deferred_ok) w =
       Abort (AssertFailed "orch->job_source == NULL") ->
     AssertFailed "orch->job_source == NULL" <> UseAfterFree /\
     AssertFailed "orch->job_source == NULL" <> AssertFailed "job != NULL" /\
     AssertFailed "orch->job_source == NULL" <>
       AssertFailed "orch->current_job == job").
Proof.
  eexists. split; [vm_compute; reflexivity|].
  apply (X1_crash_causes [EvIsolateAll (MethodCall "t") queue_ok]).
  vm_compute. reflexivity.
Defined.

(** X2: a callback that returns only appends to the output, and what it
    appends depends on its kind: the IsolateAll handler sends at most the
    JobNew signal and its reply; only a deferred callback sends JobRemoved
    or PropertiesChanged, runs a start hook or sends Isolate calls; the
    Register handler only answers its caller; the reply callback of an
    Isolate call, the accept handler and the disconnect handler send
    nothing. *)
Theorem X2_output_of_callbacks ev w w' :
  step ev w = Ok (tt, w') ->
  exists out, trace w' = trace w ++ out /\
    Forall (fun o =>
      match ev with
      | EvIsolateAll _ _ => queue_output o
      | EvDefer _ _ => scheduler_output o
      | EvRegister node _ _ => node_output node o
      | EvIsolateReply _ _ _ | EvAccept _ | EvDisconnected _ => false
      end = true) out.
Proof.
  intros (out & Ht & Hout)%emits_step. exists out. split; [done|].
  eapply Forall_impl; [exact Hout|]. intros o. by destruct ev.
Qed.

Lemma X2_output_of_callbacks_witness :
  exists w',
    step (EvRegister 1 (MethodCall "A") register_ok) two_nodes = Ok (tt, w') /\
    exists out, trace w' = trace two_nodes ++ out /\
      Forall (fun o => node_output 1 o = true) out.
Proof.
  eexists. split; [vm_compute; reflexivity|].
  apply (X2_output_of_callbacks (EvRegister 1 (MethodCall "A") register_ok)
           two_nodes).
  vm_compute. reflexivity.
Defined.

(** X3: when [sd_event_add_defer] fails in [finish_job] on the reply to
    the last outstanding call, the reply callback still returns, and the
    job stays [current_job] for good: whatever callbacks follow, no
    deferred source is pending, no call is outstanding, and the program
    sends no JobRemoved, no PropertiesChanged and no Isolate call and runs
    no start hook any more. *)
Theorem X3_failed_finish_defer_wedges evs w c err :
  run evs init = Ok w -> calls w = [c] ->
  exists w1, step (EvIsolateReply 0 err false) w = Ok (tt, w1) /\
    forall evs' w2, run evs' w1 = Ok w2 ->
      current_job w2 = Some (call_job c) /\ job_source w2 = None /\
      calls w2 = [] /\
      exists out, trace w2 = trace w1 ++ out /\
        Forall (fun o => scheduler_output o = false) out.
Proof.
  intros HI%Sched_reachable Hcs.
  assert (Hk : calls w !! 0%nat = Some c) by by rewrite Hcs.
  destruct (step_reply_eq w 0 err false c HI Hk) as (j & Hj & Hstep).
  eexists. split; [exact Hstep|].
  pose proof (Sched_step _ _ _ HI Hstep) as HI1.
  intros evs' w2. apply wedged_run; [done|..].
  - cbn. apply (sch_calls w HI). rewrite Hcs. apply elem_of_cons. by left.
  - cbn. by rewrite andb_false_r.
  - cbn. by rewrite Hcs.
Qed.

Lemma X3_failed_finish_defer_wedges_witness :
  exists w, run (take 3 errored_reply_run) init = Ok w /\
    calls w = [mkCall 0 1] /\
    exists w1, step (EvIsolateReply 0 true false) w = Ok (tt, w1) /\
      forall evs' w2, run evs' w1 = Ok w2 ->
        current_job w2 = Some (call_job (mkCall 0 1)) /\
        job_source w2 = None /\ calls w2 = [] /\
        exists out, trace w2 = trace w1 ++ out /\
          Forall (fun o => scheduler_output o = false) out.
Proof.
  eexists. split; [vm_compute; reflexivity|]. split; [reflexivity|].
  apply (X3_failed_finish_defer_wedges (take 3 errored_reply_run));
    [vm_compute; reflexivity|reflexivity].
Defined.

(** X4: the reply callback of an outstanding Isolate call, in whatever
    order the replies come, removes that call, sends nothing and leaves
    the queue and [current_job] alone; the job stays Running with
    [outstanding] equal to the number of calls that are left.  The deferred
    finish is queued by the reply to the last outstanding call, if
    [sd_event_add_defer] succeeds, and by no reply before it. *)
Theorem X4_finish_deferred_at_last_reply evs w k c err d :
  run evs init = Ok w -> calls w !! k = Some c ->
  exists w', step (EvIsolateReply k err d) w = Ok (tt, w') /\
    calls w' = delete k (calls w) /\ trace w' = trace w /\
    current_job w' = Some (call_job c) /\ jobs w' = jobs w /\
    nodes w' = nodes w /\
    (exists j', heap w' !! call_job c = Some j' /\
       job_state j' = JOB_RUNNING /\
       isolate_outstanding j' = Z.of_nat (length (calls w'))) /\
    job_source w = None /\
    job_source w' =
      if decide (length (calls w) = 1%nat)
      then (if d then Some FinishCb else None) else None.
Proof.
  intros HI%Sched_reachable Hk.
  destruct (step_reply_eq w k err d c HI Hk) as (j & Hj & Hstep).
  eexists. split; [exact Hstep|].
  assert (Hc : current_job w = Some (call_job c)).
  { apply (sch_calls w HI). by eapply list_elem_of_lookup_2. }
  destruct (Sched_current w _ HI Hc)
    as (j0 & rest & Hjs & Hj0 & Hres & Hcb & Hpath & Hst & Hrc & Hout).
  assert (j0 = j) as -> by congruence.
  assert (Hlen : (k < length (calls w))%nat) by by eapply lookup_lt_Some.
  assert (Hsrc : job_source w = None).
  { pose proof (sch_src w HI) as Hs.
    destruct (job_source w) as [[]|]; [| |done].
    - destruct Hs as [Hs _]. congruence.
    - destruct Hs as [_ Hs]. by rewrite Hs in Hk. }
  cbn. do 5 (split; [done|]). split.
  - eexists. rewrite lookup_insert_eq. split; [done|]. cbn.
    split; [done|]. rewrite length_delete by eauto. lia.
  - split; [done|]. rewrite Hout.
    destruct (decide (length (calls w) = 1%nat)) as [->|Hne]; [done|].
    destruct (Z.eqb_spec (Z.of_nat (length (calls w)) - 1) 0); [lia|done].
Qed.

Lemma X4_finish_deferred_at_last_reply_witness :
  exists w, run three_nodes_run init = Ok w /\
    calls w !! 1%nat = Some (mkCall 1 3) /\
    exists w', step (EvIsolateReply 1 false true) w = Ok (tt, w') /\
      calls w' = delete 1%nat (calls w) /\ trace w' = trace w /\
      current_job w' = Some (call_job (mkCall 1 3)) /\ jobs w' = jobs w /\
      nodes w' = nodes w /\
      (exists j', heap w' !! call_job (mkCall 1 3) = Some j' /\
         job_state j' = JOB_RUNNING /\
         isolate_outstanding j' = Z.of_nat (length (calls w'))) /\
      job_source w = None /\
      job_source w' =
        if decide (length (calls w) = 1%nat)
        then (if true then Some FinishCb else None) else None.
Proof.
  eexists. split; [vm_compute; reflexivity|]. split; [reflexivity|].
  apply (X4_finish_deferred_at_last_reply three_nodes_run);
    [vm_compute; reflexivity|reflexivity].
Defined.

(** X5: between two callbacks of a run from the initial orchestrator the
    allocated jobs are exactly the jobs of the queue, each of them once:
    nothing leaks and the queue holds no freed job.  The reference count of
    a job is 2 when it is [current_job] (the queue and [current_job]) and 1
    otherwise; [current_job] and the job of every outstanding call are
    jobs of the queue. *)
Theorem X5_allocated_jobs_are_queued evs w :
  run evs init = Ok w ->
  NoDup (jobs w) /\
  (forall a, a ∈ jobs w <-> exists j, heap w !! a = Some j) /\
  (forall a j, heap w !! a = Some j ->
     job_ref_count j = if decide (current_job w = Some a) then 2 else 1) /\
  (forall a, current_job w = Some a -> a ∈ jobs w) /\
  (forall c, c ∈ calls w -> call_job c ∈ jobs w).
Proof.
  intros HI%Sched_reachable.
  assert (Hcur : forall a, current_job w = Some a -> a ∈ jobs w).
  { intros a [rest ->]%(sch_cur w HI). apply elem_of_cons. by left. }
  split; [apply (sch_nodup w HI)|]. split; [|split; [|split]].
  - intros a. split.
    + intros (j & Hj & _)%(sch_live w HI). eauto.
    + intros [j Hj]. destruct (decide (a ∈ jobs w)) as [|Hn]; [done|].
      rewrite (sch_dead w HI a Hn) in Hj. done.
  - intros a j Hj. destruct (decide (a ∈ jobs w)) as [Hin|Hn].
    + destruct (sch_live w HI a Hin) as (j' & Hj' & _ & _ & _ & Hwf).
      assert (j' = j) as -> by congruence.
      destruct (decide (current_job w = Some a)); tauto.
    + rewrite (sch_dead w HI a Hn) in Hj. done.
  - done.
  - intros c Hc. by apply Hcur, (sch_calls w HI).
Qed.

Lemma X5_allocated_jobs_are_queued_witness :
  exists w, run queued_second_run init = Ok w /\
    NoDup (jobs w) /\
    (forall a, a ∈ jobs w <-> exists j, heap w !! a = Some j) /\
    (forall a j, heap w !! a = Some j ->
       job_ref_count j = if decide (current_job w = Some a) then 2 else 1) /\
    (forall a, current_job w = Some a -> a ∈ jobs w) /\
    (forall c, c ∈ calls w -> call_job c ∈ jobs w).
Proof.
  eexists. split; [vm_compute; reflexivity|].
  apply (X5_allocated_jobs_are_queued queued_second_run).
  vm_compute. reflexivity.
Defined.

(** ** One job on a fleet that answers *)

Lemma run_app evs1 : forall evs2 w w1,
  run evs1 w = Ok w1 -> run (evs1 ++ evs2) w = run evs2 w1.
Proof.
  induction evs1 as [|ev evs1 IH]; intros evs2 w w1; [by intros [= <-]|].
  cbn [run app]. destruct (step ev w) as [[[] w']|f]; [|done]. apply IH.
Qed.

(** The replies to all outstanding calls, in any order. *)
Lemma drain_replies rs : forall w a,
  Sched w -> current_job w = Some a ->
  replies_in_range (length (calls w)) rs -> rs <> [] ->
  exists j, heap w !! a = Some j /\
    run (reply_events rs) w = Ok (drained_world a j w).
Proof.
  induction rs as [|[k err] rs IH]; intros w a HI Hc Hrs Hne; [done|].
  cbn [replies_in_range fst] in Hrs. destruct Hrs as [Hk Hrs].
  destruct (lookup_lt_is_Some_2 (calls w) k Hk) as [c Hc'].
  assert (Ha : call_job c = a).
  { assert (Hin : c ∈ calls w) by by eapply list_elem_of_lookup_2.
    apply (sch_calls w HI) in Hin. congruence. }
  destruct (Sched_current w a HI Hc)
    as (j & rest & Hjs & Hj & Hres & Hcb & Hpath & Hst & Hrc & Hout).
  destruct (step_reply_eq w k err true c HI Hc') as (j' & Hj' & Hstep).
  rewrite Ha in Hj', Hstep. assert (j' = j) as -> by congruence.
  exists j. split; [done|]. unfold reply_events. cbn [map run fst snd].
  rewrite Hstep. pose proof (Sched_step _ _ _ HI Hstep) as HI1.
  destruct rs as [|r rs'].
  - cbn [replies_in_range] in Hrs. cbn [map run].
    assert (Hlen : length (calls w) = 1%nat) by lia.
    destruct (calls w) as [|c0 [|c1 cs]] eqn:Hcs; try done.
    assert (k = 0%nat) as -> by (cbn in Hk; lia).
    unfold drained_world, replied_world. rewrite Hout, Hcs. cbn [length].
    change (Z.of_nat 1 - 1) with 0. by change (0 =? 0) with true.
  - pose proof Hrs as [Hk' _].
    destruct (IH _ a HI1) as (j1 & Hj1 & Hrun); [done| |done|].
    { cbn. by rewrite length_delete by eauto. }
    unfold reply_events in Hrun. rewrite Hrun.
    f_equal. cbn in Hj1. rewrite lookup_insert_eq in Hj1.
    injection Hj1 as <-. unfold drained_world, replied_world.
    destruct w. cbn. by rewrite insert_insert_eq.
Qed.

(** X6: on an idle orchestrator (no current job, nothing deferred, empty
    queue) that is reached from the initial one and has at least one
    node, an IsolateAll job whose calls can all be sent runs to its end:
    the method call, the deferred start, one reply or timeout per node, in
    any order, and the deferred finish all return.  Afterwards the
    orchestrator is idle again, the job is freed (the heap is what it
    was), one id and one address are used up, and the output has grown by
    JobNew, the reply, PropertiesChanged, the start hook, one Isolate call
    per node in registry order, and JobRemoved with "done", whatever the
    replies were; of the two signals, the one whose message cannot be
    built is left out, and nothing else changes. *)
Theorem X6_job_life_cycle evs w target rpc rs sn sr :
  run evs init = Ok w ->
  current_job w = None -> job_source w = None -> jobs w = [] ->
  nodes w <> [] -> all_fine rpc (nodes w) = true ->
  replies_in_range (length (nodes w)) rs ->
  run (job_run target rpc rs sn sr) w =
  Ok (mkWorld (wrap32 (next_job_id w + 1)) (nodes w) None None [] (heap w)
        (S (brk w)) []
        (trace w ++
         job_trace (wrap32 (next_job_id w + 1)) target (nodes w) sn sr)).
Proof.
  intros HI%Sched_reachable Hc Hsrc Hjs Hns Hall Hlen.
  pose proof (Sched_fresh w HI) as Hfresh.
  pose proof (Sched_calls_nil w HI Hc) as Hcs.
  set (id := wrap32 (next_job_id w + 1)).
  set (e := mkQueueEnv true true true true sn).
  set (w1 := queued_world e target w).
  assert (Hs1 : step (EvIsolateAll (MethodCall target) e) w = Ok (tt, w1)).
  { cbn [step]. unfold bind at 1. by rewrite method_isolate_all_eq. }
  pose proof (Sched_step _ _ _ HI Hs1) as HI1.
  assert (Hsrc1 : job_source w1 = Some StartCb).
  { cbn. unfold scheduled. by rewrite Hc, Hsrc. }
  destruct (step_start_eq rpc deferred_ok w1 HI1 Hsrc1)
    as (b & rest & j & Hc1 & Hjs1 & Hj1 & Hs2).
  cbn in Hjs1, Hj1. rewrite Hjs in Hjs1. injection Hjs1 as <- <-.
  rewrite lookup_insert_eq in Hj1. injection Hj1 as <-.
  unfold start_outcome in Hs2. cbn [nodes w1 queued_world] in Hs2.
  rewrite Hall in Hs2. destruct (nodes w) as [|n ns] eqn:Hnodes; [done|].
  set (j := queued_job id (MethodCall target) target) in *.
  set (w2 := set_job_source None (started_world (brk w) j w1)) in *.
  pose proof (Sched_step _ _ _ HI1 Hs2) as HI2.
  destruct (drain_replies rs w2 (brk w) HI2) as (j2 & Hj2 & Hdrain);
    [done| |by destruct rs|].
  { cbn. rewrite Hcs, Hnodes. cbn [app]. by rewrite length_map. }
  cbn in Hj2. rewrite lookup_insert_eq in Hj2. injection Hj2 as <-.
  set (w3 := drained_world (brk w) _ w2) in *.
  pose proof (Sched_run _ _ _ HI2 Hdrain) as HI3.
  destruct (step_finish_eq rpc (mkDeferEnv true sr) w3 HI3 eq_refl)
    as (a & j3 & rest & Hc3 & Hcs3 & Hjs3 & Hj3 & Hs3).
  cbn in Hc3, Hjs3, Hj3. rewrite Hjs in Hjs3.
  injection Hc3 as <-. injection Hjs3 as <-.
  rewrite lookup_insert_eq in Hj3. injection Hj3 as <-.
  unfold job_run. cbn [app run]. fold e. rewrite Hs1, Hs2.
  rewrite (run_app _ _ _ _ Hdrain). cbn [run]. rewrite Hs3. f_equal.
  unfold removed_world, w3, drained_world, w2, started_world, w1,
    queued_world, job_trace, j, queued_job, started_job, e.
  cbn [q_signal d_signal q_defer_ok].
  clear Hs1 Hs2 Hs3 Hdrain HI HI1 HI2 HI3. subst id.
  destruct w. cbn in Hc, Hsrc, Hjs, Hnodes, Hcs, Hfresh. subst.
  norm_world. norm_job. f_equal.
  - by rewrite !insert_insert_eq, delete_insert_eq, delete_id.
  - by rewrite <- !app_assoc.
Qed.

Lemma X6_job_life_cycle_witness :
  exists w, run [EvAccept accept_ok; EvAccept accept_ok] init = Ok w /\
    current_job w = None /\ job_source w = None /\ jobs w = [] /\
    nodes w <> [] /\ all_fine rpc_ok (nodes w) = true /\
    replies_in_range (length (nodes w)) [(1%nat, true); (0%nat, false)] /\
    run (job_run "t" rpc_ok [(1%nat, true); (0%nat, false)]
           signal_ok signal_ok) w =
    Ok (mkWorld (wrap32 (next_job_id w + 1)) (nodes w) None None [] (heap w)
          (S (brk w)) []
          (trace w ++ job_trace (wrap32 (next_job_id w + 1)) "t" (nodes w)
                        signal_ok signal_ok)).
Proof.
  eexists. split; [vm_compute; reflexivity|].
  do 3 (split; [reflexivity|]). split; [discriminate|].
  split; [reflexivity|]. split; [cbn; lia|].
  apply (X6_job_life_cycle [EvAccept accept_ok; EvAccept accept_ok]);
    [vm_compute; reflexivity|reflexivity..|discriminate|reflexivity
    |cbn; lia].
Defined.

(** X7: when [sd_event_add_defer] fails in [schedule_job], IsolateAll
    still queues its job, but nothing is scheduled: a dispatch of the
    deferred source does nothing and the job waits.  The next IsolateAll
    call whose [sd_event_add_defer] succeeds schedules the start, and the
    deferred start then picks the oldest waiting job. *)
Theorem X7_failed_start_defer_is_retried evs w t1 t2 rpc d s :
  run evs init = Ok w ->
  current_job w = None -> job_source w = None ->
  nodes w <> [] -> all_fine rpc (nodes w) = true ->
  exists w1 w2 w3 a,
    step (EvIsolateAll (MethodCall t1) (mkQueueEnv true true true false s)) w
      = Ok (tt, w1) /\
    job_source w1 = None /\ current_job w1 = None /\
    jobs w1 = jobs w ++ [brk w] /\
    step (EvDefer rpc d) w1 = Ok (tt, w1) /\
    step (EvIsolateAll (MethodCall t2) queue_ok) w1 = Ok (tt, w2) /\
    job_source w2 = Some StartCb /\
    step (EvDefer rpc d) w2 = Ok (tt, w3) /\
    head (jobs w ++ [brk w]) = Some a /\
    current_job w3 = Some a /\ job_source w3 = None.
Proof.
  intros HI%Sched_reachable Hc Hsrc Hns Hall.
  set (e1 := mkQueueEnv true true true false s).
  set (w1 := queued_world e1 t1 w).
  assert (Hs1 : step (EvIsolateAll (MethodCall t1) e1) w = Ok (tt, w1)).
  { cbn [step]. unfold bind at 1. by rewrite method_isolate_all_eq. }
  pose proof (Sched_step _ _ _ HI Hs1) as HI1.
  assert (Hsrc1 : job_source w1 = None).
  { cbn. unfold scheduled. by rewrite Hc, Hsrc. }
  set (w2 := queued_world queue_ok t2 w1).
  assert (Hs2 : step (EvIsolateAll (MethodCall t2) queue_ok) w1
                = Ok (tt, w2)).
  { cbn [step]. unfold bind at 1. by rewrite method_isolate_all_eq. }
  pose proof (Sched_step _ _ _ HI1 Hs2) as HI2.
  assert (Hsrc2 : job_source w2 = Some StartCb).
  { unfold w2, w1. cbn. unfold scheduled. cbn. rewrite Hc.
    unfold scheduled. by rewrite Hc, Hsrc. }
  destruct (step_start_eq rpc d w2 HI2 Hsrc2)
    as (b & rest & j & Hc2 & Hjs2 & Hj2 & Hs3).
  unfold start_outcome in Hs3. cbn [nodes w2 w1 queued_world] in Hs3.
  rewrite Hall in Hs3. destruct (nodes w) as [|n ns] eqn:Hnodes; [done|].
  exists w1, w2, (set_job_source None (started_world b j w2)), b.
  split; [done|]. do 3 (split; [done|]). split.
  { cbn [step]. exec. by rewrite Hsrc1. }
  do 3 (split; [done|]). split; [|done].
  cbn in Hjs2.
  destruct (jobs w ++ [brk w]) as [|x xs] eqn:E;
    [by destruct (jobs w)|cbn in *; congruence].
Qed.

Lemma X7_failed_start_defer_is_retried_witness :
  exists w, run [EvAccept accept_ok] init = Ok w /\
    current_job w = None /\ job_source w = None /\
    nodes w <> [] /\ all_fine rpc_ok (nodes w) = true /\
    exists w1 w2 w3 a,
      step (EvIsolateAll (MethodCall "t")
              (mkQueueEnv true true true false signal_ok)) w
        = Ok (tt, w1) /\
      job_source w1 = None /\ current_job w1 = None /\
      jobs w1 = jobs w ++ [brk w] /\
      step (EvDefer rpc_ok deferred_ok) w1 = Ok (tt, w1) /\
      step (EvIsolateAll (MethodCall "u") queue_ok) w1 = Ok (tt, w2) /\
      job_source w2 = Some StartCb /\
      step (EvDefer rpc_ok deferred_ok) w2 = Ok (tt, w3) /\
      head (jobs w ++ [brk w]) = Some a /\
      current_job w3 = Some a /\ job_source w3 = None.
Proof.
  eexists. split; [vm_compute; reflexivity|].
  do 2 (split; [reflexivity|]). split; [discriminate|].
  split; [reflexivity|].
  apply (X7_failed_start_defer_is_retried [EvAccept accept_ok] _ "t" "u"
           rpc_ok deferred_ok signal_ok);
    [vm_compute; reflexivity|reflexivity|reflexivity|discriminate
    |reflexivity].
Defined.

(** ** The registry *)

Lemma node_at_Some a ns nd :
  node_at a ns = Some nd -> nd ∈ ns /\ node_addr nd = a.
Proof.
  unfold node_at. induction ns as [|x ns IH]; [done|]. cbn [find].
  destruct (Nat.eqb (node_addr x) a) eqn:E.
  - intros [= <-]. apply Nat.eqb_eq in E. split; [|done].
    apply elem_of_cons. by left.
  - intros [? ?]%IH. split; [|done]. apply elem_of_cons. by right.
Qed.

Lemma node_at_None a ns :
  node_at a ns = None <-> forall n, n ∈ ns -> node_addr n <> a.
Proof.
  unfold node_at. induction ns as [|x ns IH]; cbn [find].
  - split; [|done]. intros _ n Hn. by apply elem_of_nil in Hn.
  - destruct (Nat.eqb (node_addr x) a) eqn:E.
    + apply Nat.eqb_eq in E. split; [done|]. intros H.
      destruct (H x); [apply elem_of_cons; by left|done].
    + apply Nat.eqb_neq in E. rewrite IH. split.
      * intros H n [->|Hn]%elem_of_cons; [done|by apply H].
      * intros H n Hn. apply H, elem_of_cons. by right.
Qed.

(** With distinct addresses the node of a connection splits the
    registry. *)
Lemma node_split a ns nd :
  NoDup (node_addr <$> ns) -> node_at a ns = Some nd ->
  exists l1 l2, ns = l1 ++ nd :: l2 /\ node_addr nd = a /\
    forall n, n ∈ l1 ++ l2 -> node_addr n <> a.
Proof.
  unfold node_at. induction ns as [|x ns IH]; [done|]. cbn [find fmap list_fmap].
  intros [Hx Hnd]%NoDup_cons. destruct (Nat.eqb (node_addr x) a) eqn:E.
  - intros [= <-]. apply Nat.eqb_eq in E. exists [], ns.
    do 2 (split; [done|]). intros n Hn Ha. apply Hx.
    apply list_elem_of_fmap. exists n. split; [congruence|done].
  - apply Nat.eqb_neq in E. intros (l1 & l2 & -> & Ha & Hne)%IH; [|done].
    exists (x :: l1), l2. do 2 (split; [done|]).
    intros n [->|Hn]%elem_of_cons; [done|by apply Hne].
Qed.

Lemma upd_nodes_id a f ns :
  (forall n, n ∈ ns -> node_addr n <> a) -> upd_nodes a f ns = ns.
Proof.
  unfold upd_nodes. induction ns as [|x ns IH]; [done|]. intros H.
  cbn [map]. rewrite IH by (intros n Hn; apply H, elem_of_cons; by right).
  destruct (Nat.eqb_spec (node_addr x) a) as [E|E]; [|done].
  destruct (H x); [apply elem_of_cons; by left|done].
Qed.

Lemma upd_nodes_at a f l1 nd l2 :
  node_addr nd = a -> (forall n, n ∈ l1 ++ l2 -> node_addr n <> a) ->
  upd_nodes a f (l1 ++ nd :: l2) = l1 ++ f nd :: l2.
Proof.
  intros Ha Hne. unfold upd_nodes. rewrite map_app. cbn [map].
  rewrite Ha, Nat.eqb_refl. f_equal; [|f_equal].
  - apply (upd_nodes_id a f). intros n Hn. apply Hne, elem_of_app. by left.
  - apply (upd_nodes_id a f). intros n Hn. apply Hne, elem_of_app. by right.
Qed.

Lemma filter_nodes_id a (ns : list Node) :
  (forall n, n ∈ ns -> node_addr n <> a) ->
  filter (fun n => node_addr n <> a) ns = ns.
Proof.
  induction ns as [|x ns IH]; [done|]. intros H.
  rewrite filter_cons_True by (apply H, elem_of_cons; by left).
  rewrite IH; [done|]. intros n Hn. apply H, elem_of_cons. by right.
Qed.

Lemma filter_nodes_at a (l1 : list Node) nd l2 :
  node_addr nd = a -> (forall n, n ∈ l1 ++ l2 -> node_addr n <> a) ->
  filter (fun n => node_addr n <> a) (l1 ++ nd :: l2) = l1 ++ l2.
Proof.
  intros Ha Hne. rewrite filter_app, filter_cons_False by (intros ?; done).
  f_equal; apply filter_nodes_id; intros n Hn; apply Hne, elem_of_app; tauto.
Qed.

Lemma node_at_split a l1 nd l2 :
  node_addr nd = a -> (forall n, n ∈ l1 ++ l2 -> node_addr n <> a) ->
  node_at a (l1 ++ nd :: l2) = Some nd.
Proof.
  intros Ha Hne. unfold node_at. induction l1 as [|x l1 IH]; cbn [app find].
  - by rewrite Ha, Nat.eqb_refl.
  - destruct (Nat.eqb_spec (node_addr x) a) as [E|E].
    + destruct (Hne x); [apply elem_of_cons; by left|done].
    + apply IH. intros n Hn. apply Hne. apply elem_of_cons. by right.
Qed.

Lemma Reg_mono ns b b' : (b <= b')%nat -> Reg ns b -> Reg ns b'.
Proof.
  intros Hb []. split; try done. intros n Hn. specialize (reg_brk0 n Hn). lia.
Qed.

Lemma Reg_nil b : Reg [] b.
Proof.
  split; [constructor|..]; intros n; intros;
    exfalso; eapply elem_of_nil; eassumption.
Qed.

(** [accept_handler] adds a node at a fresh address. *)
Lemma Reg_snoc ns b :
  Reg ns b -> Reg (ns ++ [mkNode b 1 true false None None]) (S b).
Proof.
  intros []. split.
  - rewrite fmap_app. apply NoDup_app. split; [done|]. split.
    + intros a (n & -> & Hn)%list_elem_of_fmap [= E]%list_elem_of_singleton.
      specialize (reg_brk0 n Hn). lia.
    + apply NoDup_singleton.
  - intros n [Hn| ->%list_elem_of_singleton]%elem_of_app; [|cbn; lia].
    specialize (reg_brk0 n Hn). lia.
  - intros n [Hn| ->%list_elem_of_singleton]%elem_of_app; [by apply reg_wf0|].
    by repeat split.
  - intros n m s [Hn| ->%list_elem_of_singleton]%elem_of_app
                 [Hm| ->%list_elem_of_singleton]%elem_of_app; try done.
    by apply reg_names0.
Qed.

(** An assignment to the fields of one node. *)
Lemma Reg_replace l1 nd nd' l2 b :
  Reg (l1 ++ nd :: l2) b -> node_addr nd' = node_addr nd -> node_wf nd' ->
  (forall s, node_name nd' = Some s ->
     node_name nd = Some s \/
     forall m, m ∈ l1 ++ l2 -> node_name m <> Some s) ->
  Reg (l1 ++ nd' :: l2) b.
Proof.
  intros [] Ha Hwf Hname.
  assert (Hin : forall n, n ∈ l1 ++ nd' :: l2 ->
            n = nd' \/ (n ∈ l1 ++ l2 /\ n ∈ l1 ++ nd :: l2)).
  { intros n [?|[->|?]%elem_of_cons]%elem_of_app; [right|by left|right];
      rewrite !elem_of_app, elem_of_cons; tauto. }
  assert (Hnd : nd ∈ l1 ++ nd :: l2).
  { apply elem_of_app. right. apply elem_of_cons. by left. }
  split.
  - revert reg_nodup0. rewrite !fmap_app, !fmap_cons. by rewrite Ha.
  - intros n [->|[_ Hn]]%Hin; [rewrite Ha|]; by apply reg_brk0.
  - intros n [->|[_ Hn]]%Hin; [done|by apply reg_wf0].
  - intros n m s [->|[Hn1 Hn]]%Hin [->|[Hm1 Hm]]%Hin Hsn Hsm; [done|..].
    + destruct (Hname s Hsn) as [Hs|Hs]; [|by destruct (Hs m Hm1)].
      rewrite Ha. by apply (reg_names0 nd m s).
    + destruct (Hname s Hsm) as [Hs|Hs]; [|by destruct (Hs n Hn1)].
      rewrite Ha. by apply (reg_names0 n nd s).
    + by apply (reg_names0 n m s).
Qed.

(** [orch_remove_node]. *)
Lemma Reg_remove l1 nd l2 b : Reg (l1 ++ nd :: l2) b -> Reg (l1 ++ l2) b.
Proof.
  intros [].
  assert (Hin : forall n, n ∈ l1 ++ l2 -> n ∈ l1 ++ nd :: l2).
  { intros n. rewrite !elem_of_app, elem_of_cons. tauto. }
  split.
  - revert reg_nodup0. rewrite !fmap_app, fmap_cons, !NoDup_app.
    intros (H1 & H2 & [_ H3]%NoDup_cons). split; [done|]. split; [|done].
    intros a Ha Ha'. apply (H2 a Ha). apply elem_of_cons. by right.
  - intros n Hn. by apply reg_brk0, Hin.
  - intros n Hn. by apply reg_wf0, Hin.
  - intros n m s Hn Hm. apply reg_names0; by apply Hin.
Qed.

Lemma node_at_connected node w nd :
  node_at node (nodes w) = Some nd -> connected node w = true.
Proof.
  unfold connected, node_at. induction (nodes w) as [|n ns IH]; [done|].
  cbn [existsb find]. by destruct (Nat.eqb (node_addr n) node).
Qed.

(** What [accept_handler] returns and leaves, in a registry whose
    addresses are below the allocation pointer. *)
Lemma accept_handler_eq e w :
  Registry w ->
  accept_handler e w =
  match a_accept4 e with
  | Some errno =>
      Ok (if (errno =? EAGAIN) || (errno =? EINTR) || (errno =? EWOULDBLOCK)
          then 0 else - errno, w)
  | None =>
      if bus_made e then
        if a_randomize_ok e then
          if bus_started e && a_node_new_ok e then
            if a_hello_vtable_ok e && a_peer_vtable_ok e then
              if a_match_ok e then Ok (0, accepted_world w)
              else Ok (0, set_brk (S (brk w)) w)
            else Ok (EXIT_FAILURE, set_brk (S (brk w)) w)
          else Ok (0, w)
        else Abort (AssertFailed "r >= 0")
      else Ok (0, w)
  end.
Proof.
  intros HR. rewrite accept_handler_unfold.
  destruct (a_accept4 e); [done|].
  destruct (bus_made e), (a_randomize_ok e),
    (bus_started e && a_node_new_ok e),
    (a_hello_vtable_ok e && a_peer_vtable_ok e), (a_match_ok e); try done.
  unfold accepted_world, upd_nodes. rewrite map_app.
  cbn [map node_addr set_node_ref_count node_ref_count].
  rewrite Nat.eqb_refl.
  fold (upd_nodes (brk w)
          (fun n => set_node_ref_count (node_ref_count n - 1) n) (nodes w)).
  rewrite (upd_nodes_id (brk w)); [done|].
  intros n Hn. apply (reg_brk _ _ HR) in Hn. lia.
Qed.

(** Register by a connection that has no name, for a name that is free. *)
Lemma register_fresh_eq e node name w nd :
  Registry w -> node_at node (nodes w) = Some nd ->
  node_name nd = None -> orch_find_node (nodes w) name = None ->
  nd = mkNode node 1 true false None None /\
  exists l1 l2, nodes w = l1 ++ nd :: l2 /\
    (forall n, n ∈ l1 ++ l2 ->
       node_addr n <> node /\ node_name n <> Some name) /\
    method_peer_orchestrator_register e node (MethodCall name) w =
    if r_strdup_ok e then
      if r_asprintf_ok e then
        if r_vtable_ok e then
          Ok (Replied,
              set_trace (trace w ++ [NodeReplyEmpty node])
                (set_nodes
                   (l1 ++ mkNode node 1 true true (Some name)
                            (Some (NodePath name)) :: l2) w))
        else
          Ok (Returned EXIT_FAILURE,
              set_nodes
                (l1 ++ mkNode node 1 true false (Some name)
                         (Some (NodePath name)) :: l2) w)
      else
        Ok (Replied,
            set_trace (trace w ++ [NodeReplyError node NoMemory])
              (set_nodes
                 (l1 ++ mkNode node 1 true false (Some name) None :: l2) w))
    else
      Ok (Replied, set_trace (trace w ++ [NodeReplyError node NoMemory]) w).
Proof.
  intros HR Hnd Hname Hfind.
  destruct (node_split node (nodes w) nd (reg_nodup _ _ HR) Hnd)
    as (l1 & l2 & Hns & Ha & Hne).
  assert (Hin : nd ∈ nodes w).
  { rewrite Hns. apply elem_of_app. right. apply elem_of_cons. by left. }
  destruct (reg_wf _ _ HR nd Hin) as (Hrc & Hpeer & Hpath).
  rewrite Hname in Hpath. destruct Hpath as [Hpath Hslot].
  assert (Hnd' : nd = mkNode node 1 true false None None).
  { destruct nd; cbn in *; by subst. }
  split; [done|]. exists l1, l2. split; [done|]. split.
  { intros n Hn. split; [by apply Hne|].
    apply (proj1 (orch_find_node_None _ _) Hfind).
    rewrite Hns. revert Hn. rewrite !elem_of_app, elem_of_cons. tauto. }
  rewrite (register_fresh _ _ _ _ nd) by done. cbn zeta.
  rewrite Hns, !upd_nodes_at by (done || by subst nd).
  by subst nd.
Qed.

(** [node_disconnected] for a connection of the registry. *)
Lemma disconnected_eq node w nd :
  Registry w -> node_at node (nodes w) = Some nd ->
  exists l1 l2, nodes w = l1 ++ nd :: l2 /\
    (forall n, n ∈ l1 ++ l2 -> node_addr n <> node) /\
    step (EvDisconnected node) w = Ok (tt, set_nodes (l1 ++ l2) w).
Proof.
  intros HR Hnd.
  destruct (node_split node (nodes w) nd (reg_nodup _ _ HR) Hnd)
    as (l1 & l2 & Hns & Ha & Hne).
  exists l1, l2. do 2 (split; [done|]).
  cbn [step]. unfold bind at 1, gets. rewrite (node_at_connected _ _ _ Hnd).
  unfold node_disconnected, upd_node, orch_remove_node. exec.
  rewrite Hns, upd_nodes_at, filter_nodes_at by done. done.
Qed.

Lemma Registry_init : Registry init.
Proof. apply Reg_nil. Qed.

Lemma Registry_step ev w w' :
  Sched w -> Registry w -> step ev w = Ok (tt, w') -> Registry w'.
Proof.
  intros HI HR. unfold Registry in *.
  destruct ev as [m e|rpc d|k err d|e|node m e|node].
  - intros Hs. rewrite (keeps_nodes_step (EvIsolateAll m e) I _ _ _ Hs).
    eapply Reg_mono; [|done].
    apply step_isolate_all_inv in Hs
      as [(_ & _ & _ & _ & _ & _ & Hb & _)|[->|(t & _ & ->)]]; cbn; lia.
  - intros Hs. rewrite (keeps_nodes_step (EvDefer rpc d) I _ _ _ Hs).
    eapply Reg_mono; [|done].
    apply step_defer_inv in Hs as
      [[_ ->]|[(b & rest & j & _ & _ & _ & _ & _ & ->)|
               (a & j & rest & _ & _ & _ & _ & _ &
                [[_ ->]|(b & rest' & jb & _ & _ & _ & ->)])]];
      [done..| ]; done.
  - intros Hs. rewrite (keeps_nodes_step (EvIsolateReply k err d) I _ _ _ Hs).
    eapply Reg_mono; [|done].
    apply step_reply_inv in Hs as [[_ ->]|(c & j & _ & _ & _ & ->)];
      [done|done|done].
  - cbn [step]. unfold bind at 1. rewrite accept_handler_eq by done.
    destruct (a_accept4 e); [by intros [= <-]|].
    destruct (bus_made e), (a_randomize_ok e),
      (bus_started e && a_node_new_ok e),
      (a_hello_vtable_ok e && a_peer_vtable_ok e), (a_match_ok e);
      try done; intros [= <-]; cbn; try done;
      try (eapply Reg_mono; [|done]; lia).
    by apply Reg_snoc.
  - cbn [step]. unfold bind at 1, gets.
    destruct (connected node w) eqn:Hc; [|by intros [= <-]].
    destruct (connected_node_at _ _ Hc) as [nd Hnd].
    destruct m as [name|z]; [|by intros [= <-]].
    unfold bind at 1.
    destruct (node_name nd) as [s'|] eqn:Hname;
      [|destruct (orch_find_node (nodes w) name) as [n|] eqn:Hfind].
    + rewrite (register_in_use _ _ _ _ nd) by (done || left; congruence).
      by intros [= <-].
    + rewrite (register_in_use _ _ _ _ nd) by (done || right; congruence).
      by intros [= <-].
    + destruct (register_fresh_eq e node name w nd HR Hnd Hname Hfind)
        as (-> & l1 & l2 & Hns & Hne & ->).
      rewrite Hns in HR.
      destruct (r_strdup_ok e), (r_asprintf_ok e), (r_vtable_ok e);
        intros [= <-]; cbn; rewrite ?Hns; try done;
        (eapply Reg_replace; [exact HR|done| |]);
        try (by repeat split; cbn; auto);
        intros s [= <-]; right; intros m Hm; by apply Hne.
  - destruct (connected node w) eqn:Hc.
    + destruct (connected_node_at _ _ Hc) as [nd Hnd].
      destruct (disconnected_eq node w nd HR Hnd) as (l1 & l2 & Hns & _ & ->).
      intros [= <-]. cbn. rewrite Hns in HR. by eapply Reg_remove.
    + cbn [step]. unfold bind at 1, gets. rewrite Hc. by intros [= <-].
Qed.

Lemma Registry_run evs : forall w w',
  Sched w -> Registry w -> run evs w = Ok w' -> Registry w'.
Proof.
  induction evs as [|ev evs IH]; intros w w' HI HR; [by intros [= <-]|].
  intros (w1 & Hs & Hr)%run_cons. eapply IH; [| |exact Hr].
  - by eapply Sched_step.
  - by eapply Registry_step.
Qed.

Lemma Registry_reachable evs w : run evs init = Ok w -> Registry w.
Proof. apply Registry_run; [apply Sched_init|apply Registry_init]. Qed.

Lemma NoDup_fmap_lookup {A B} (f : A -> B) (l : list A) i j x y :
  NoDup (f <$> l) -> l !! i = Some x -> l !! j = Some y -> f x = f y -> i = j.
Proof.
  intros Hnd Hi Hj Hf. eapply NoDup_lookup; [exact Hnd| |].
  - by rewrite list_lookup_fmap, Hi.
  - rewrite list_lookup_fmap, Hj. cbn. by rewrite Hf.
Qed.

Lemma Reg_inj ns b n m :
  Reg ns b -> n ∈ ns -> m ∈ ns -> node_addr n = node_addr m -> n = m.
Proof.
  intros HR [i Hi]%list_elem_of_lookup_1 [j Hj]%list_elem_of_lookup_1 Ha.
  assert (i = j) as ->
    by exact (NoDup_fmap_lookup _ _ _ _ _ _ (reg_nodup _ _ HR) Hi Hj Ha).
  congruence.
Qed.

(** With distinct names [orch_find_node] finds every node that has a
    name. *)
Lemma find_node_exact ns b name n :
  Reg ns b ->
  orch_find_node ns name = Some n <-> n ∈ ns /\ node_name n = Some name.
Proof.
  intros HR. split; [apply orch_find_node_Some|]. intros [Hn Hname].
  destruct (orch_find_node ns name) as [n'|] eqn:E.
  - apply orch_find_node_Some in E as [Hn' Hname']. f_equal.
    eapply Reg_inj; [done..|]. by eapply (reg_names _ _ HR).
  - by destruct (proj1 (orch_find_node_None _ _) E n Hn).
Qed.

(** ** Statements about the registry *)

(** X8: between two callbacks of a run from the initial orchestrator the
    nodes of the registry have pairwise distinct addresses and pairwise
    distinct names.  Each node is referenced once (by the registry) and
    has its connection; a node without a name has no object path and is
    not exported; an object path is the path of the node's name, and only
    a node with a path is exported. *)
Theorem X8_registry_invariant evs w :
  run evs init = Ok w ->
  NoDup (node_addr <$> nodes w) /\
  (forall i j n m s, nodes w !! i = Some n -> nodes w !! j = Some m ->
     node_name n = Some s -> node_name m = Some s -> i = j) /\
  (forall n, n ∈ nodes w ->
     node_ref_count n = 1 /\ node_peer n = true /\
     (node_name n = None ->
      node_object_path n = None /\ node_bus_slot n = false) /\
     (forall p, node_object_path n = Some p ->
      exists s, node_name n = Some s /\ p = NodePath s) /\
     (node_bus_slot n = true -> node_object_path n <> None)).
Proof.
  intros HR%Registry_reachable. split; [apply (reg_nodup _ _ HR)|]. split.
  - intros i j n m s Hi Hj Hn Hm.
    eapply NoDup_fmap_lookup; [apply (reg_nodup _ _ HR)|done..|].
    eapply (reg_names _ _ HR); [| |done..]; by eapply list_elem_of_lookup_2.
  - intros n (Hrc & Hpeer & Hwf)%(reg_wf _ _ HR). do 2 (split; [done|]).
    destruct (node_name n) as [s|].
    + split; [done|]. split.
      * intros p Hp. exists s. split; [done|].
        destruct Hwf as [[Hq _]|Hq]; congruence.
      * intros Hs. destruct Hwf as [[_ Hq]|Hq]; congruence.
    + destruct Hwf as [Hp Hs]. split; [done|]. split; congruence.
Qed.

Lemma X8_registry_invariant_witness :
  exists w,
    run [EvAccept accept_ok; EvAccept accept_ok;
         EvRegister 0 (MethodCall "A") register_ok] init = Ok w /\
    NoDup (node_addr <$> nodes w) /\
    (forall i j n m s, nodes w !! i = Some n -> nodes w !! j = Some m ->
       node_name n = Some s -> node_name m = Some s -> i = j) /\
    (forall n, n ∈ nodes w ->
       node_ref_count n = 1 /\ node_peer n = true /\
       (node_name n = None ->
        node_object_path n = None /\ node_bus_slot n = false) /\
       (forall p, node_object_path n = Some p ->
        exists s, node_name n = Some s /\ p = NodePath s) /\
       (node_bus_slot n = true -> node_object_path n <> None)).
Proof.
  eexists. split; [vm_compute; reflexivity|].
  apply (X8_registry_invariant
           [EvAccept accept_ok; EvAccept accept_ok;
            EvRegister 0 (MethodCall "A") register_ok]).
  vm_compute. reflexivity.
Defined.

(** X9: between two callbacks of a run from the initial orchestrator,
    [orch_find_node] returns a node exactly when that node is in the
    registry under the name asked for, and NULL exactly when no node of
    the registry has the name; a node without a name is never returned. *)
Theorem X9_find_node_is_exact evs w name :
  run evs init = Ok w ->
  (forall n, orch_find_node (nodes w) name = Some n <->
     n ∈ nodes w /\ node_name n = Some name) /\
  (orch_find_node (nodes w) name = None <->
     forall n, n ∈ nodes w -> node_name n <> Some name).
Proof.
  intros HR%Registry_reachable. split.
  - intros n. by eapply find_node_exact.
  - apply orch_find_node_None.
Qed.

Lemma X9_find_node_is_exact_witness :
  exists w,
    run [EvAccept accept_ok; EvAccept accept_ok;
         EvRegister 1 (MethodCall "B") register_ok] init = Ok w /\
    (forall n, orch_find_node (nodes w) "B" = Some n <->
       n ∈ nodes w /\ node_name n = Some "B"%string) /\
    (orch_find_node (nodes w) "B" = None <->
       forall n, n ∈ nodes w -> node_name n <> Some "B"%string).
Proof.
  eexists. split; [vm_compute; reflexivity|].
  apply (X9_find_node_is_exact
           [EvAccept accept_ok; EvAccept accept_ok;
            EvRegister 1 (MethodCall "B") register_ok]).
  vm_compute. reflexivity.
Defined.

(** X10: when a connection of the registry is closed, [node_disconnected]
    returns and removes exactly that node, keeping the order of the
    others.  The name of the node, if it had one, is free again and every
    other node is found as before.  Jobs, the queue, the deferred source,
    the output and the outstanding Isolate calls are untouched: a call
    that was sent to the node stays outstanding. *)
Theorem X10_disconnect_releases_name evs w node nd :
  run evs init = Ok w -> node_at node (nodes w) = Some nd ->
  exists w', step (EvDisconnected node) w = Ok (tt, w') /\
    nodes w' = filter (fun n => node_addr n <> node) (nodes w) /\
    S (length (nodes w')) = length (nodes w) /\
    node_at node (nodes w') = None /\
    (forall s, node_name nd = Some s -> orch_find_node (nodes w') s = None) /\
    (forall s n, node_addr n <> node ->
       orch_find_node (nodes w') s = Some n <->
       orch_find_node (nodes w) s = Some n) /\
    calls w' = calls w /\ heap w' = heap w /\ jobs w' = jobs w /\
    current_job w' = current_job w /\ job_source w' = job_source w /\
    next_job_id w' = next_job_id w /\ trace w' = trace w.
Proof.
  intros HR%Registry_reachable Hnd.
  destruct (disconnected_eq node w nd HR Hnd) as (l1 & l2 & Hns & Hne & Hs).
  destruct (node_at_Some _ _ _ Hnd) as [Hin Ha].
  unfold Registry in HR. rewrite Hns in HR.
  pose proof (Reg_remove _ _ _ _ HR) as HR'.
  eexists. split; [exact Hs|]. cbn. rewrite Hns.
  split; [by rewrite filter_nodes_at|].
  split; [rewrite !length_app; cbn; lia|].
  split; [by apply node_at_None|]. split; [|split; [|done]].
  - intros s Hname. apply orch_find_node_None. intros n Hn Hn'.
    apply (Hne n Hn). rewrite <- Ha.
    apply (reg_names _ _ HR n nd s); try done.
    + revert Hn. rewrite !elem_of_app, elem_of_cons. tauto.
    + apply elem_of_app. right. apply elem_of_cons. by left.
  - intros s n Hn.
    rewrite (find_node_exact _ _ _ _ HR), (find_node_exact _ _ _ _ HR').
    rewrite !elem_of_app, elem_of_cons. split; [tauto|].
    intros [[?|[->|?]] ?]; [tauto|done|tauto].
Qed.

Lemma X10_disconnect_releases_name_witness :
  exists w,
    run [EvAccept accept_ok; EvAccept accept_ok;
         EvRegister 0 (MethodCall "A") register_ok;
         EvIsolateAll (MethodCall "t") queue_ok; EvDefer rpc_ok deferred_ok]
      init = Ok w /\
    node_at 0 (nodes w) =
      Some (mkNode 0 1 true true (Some "A"%string) (Some (NodePath "A"))) /\
    exists w', step (EvDisconnected 0) w = Ok (tt, w') /\
      nodes w' = filter (fun n => node_addr n <> 0%nat) (nodes w) /\
      S (length (nodes w')) = length (nodes w) /\
      node_at 0 (nodes w') = None /\
      (forall s,
         node_name (mkNode 0 1 true true (Some "A"%string)
                      (Some (NodePath "A"))) = Some s ->
         orch_find_node (nodes w') s = None) /\
      (forall s n, node_addr n <> 0%nat ->
         orch_find_node (nodes w') s = Some n <->
         orch_find_node (nodes w) s = Some n) /\
      calls w' = calls w /\ heap w' = heap w /\ jobs w' = jobs w /\
      current_job w' = current_job w /\ job_source w' = job_source w /\
      next_job_id w' = next_job_id w /\ trace w' = trace w.
Proof.
  eexists. split; [vm_compute; reflexivity|]. split; [reflexivity|].
  apply (X10_disconnect_releases_name
           [EvAccept accept_ok; EvAccept accept_ok;
            EvRegister 0 (MethodCall "A") register_ok;
            EvIsolateAll (MethodCall "t") queue_ok;
            EvDefer rpc_ok deferred_ok]);
    [vm_compute; reflexivity|reflexivity].
Defined.

(** X11: Register by a connection that has no name, for a name that
    nobody has, in a registry reached from the initial orchestrator.  The
    node is referenced once, has its connection and no path.
    - If [strdup] fails, the caller gets NoMemory and nothing else
      changes: the call can be repeated.
    - If [sd_bus_add_object_vtable] fails, the handler returns
      EXIT_FAILURE without replying, and the node keeps the name and the
      object path: it is found under the name.
    - If every call succeeds, the caller gets the empty reply and the node
      is exported with its name and the path of the name.
    The node keeps its place in the registry and no other node changes;
    jobs and the queue are untouched. *)
Theorem X11_register_fresh_name evs w e node name nd :
  run evs init = Ok w -> node_at node (nodes w) = Some nd ->
  node_name nd = None -> orch_find_node (nodes w) name = None ->
  nd = mkNode node 1 true false None None /\
  exists l1 l2, nodes w = l1 ++ nd :: l2 /\
    (r_strdup_ok e = false ->
     method_peer_orchestrator_register e node (MethodCall name) w =
     Ok (Replied, set_trace (trace w ++ [NodeReplyError node NoMemory]) w)) /\
    (r_strdup_ok e = true -> r_asprintf_ok e = true ->
     let slot := r_vtable_ok e in
     let nd' := mkNode node 1 true slot (Some name) (Some (NodePath name)) in
     exists w',
       method_peer_orchestrator_register e node (MethodCall name) w =
       Ok (if slot then Replied else Returned EXIT_FAILURE, w') /\
       w' = set_trace (trace w ++ if slot then [NodeReplyEmpty node] else [])
              (set_nodes (l1 ++ nd' :: l2) w) /\
       orch_find_node (nodes w') name = Some nd' /\
       node_at node (nodes w') = Some nd').
Proof.
  intros HI Hnd Hname Hfind. pose proof (Registry_reachable _ _ HI) as HR.
  destruct (register_fresh_eq e node name w nd HR Hnd Hname Hfind)
    as (Hnd' & l1 & l2 & Hns & Hne & Heq).
  split; [done|]. exists l1, l2. split; [done|]. split.
  - intros Hs. by rewrite Heq, Hs.
  - intros Hs Ha slot nd'. rewrite Heq, Hs, Ha. subst slot.
    assert (Hfound : orch_find_node (l1 ++ nd' :: l2) name = Some nd' /\
                     node_at node (l1 ++ nd' :: l2) = Some nd').
    { assert (HR' : Reg (l1 ++ nd' :: l2) (brk w)).
      { unfold Registry in HR. rewrite Hns in HR.
        eapply Reg_replace; [exact HR|by subst nd| |].
        - by repeat split; cbn; auto.
        - intros s [= <-]. right. intros m Hm. by apply Hne. }
      split.
      - apply (find_node_exact _ _ _ _ HR'). split; [|done].
        apply elem_of_app. right. apply elem_of_cons. by left.
      - apply node_at_split; [done|]. intros n Hn. by apply Hne. }
    subst nd'. destruct (r_vtable_ok e); eexists; (split; [reflexivity|]).
    + split; [done|]. cbn. exact Hfound.
    + split; [by rewrite app_nil_r; destruct w|]. cbn. exact Hfound.
Qed.

Lemma X11_register_fresh_name_witness :
  exists w, run [EvAccept accept_ok; EvAccept accept_ok] init = Ok w /\
    node_at 1 (nodes w) = Some (mkNode 1 1 true false None None) /\
    node_name (mkNode 1 1 true false None None) = None /\
    orch_find_node (nodes w) "B" = None /\
    mkNode 1 1 true false None None = mkNode 1 1 true false None None /\
    exists l1 l2, nodes w = l1 ++ mkNode 1 1 true false None None :: l2 /\
      (r_strdup_ok (mkRegisterEnv true true false) = false ->
       method_peer_orchestrator_register (mkRegisterEnv true true false) 1
         (MethodCall "B") w =
       Ok (Replied, set_trace (trace w ++ [NodeReplyError 1 NoMemory]) w)) /\
      (r_strdup_ok (mkRegisterEnv true true false) = true ->
       r_asprintf_ok (mkRegisterEnv true true false) = true ->
       let slot := r_vtable_ok (mkRegisterEnv true true false) in
       let nd' := mkNode 1 1 true slot (Some "B"%string)
                    (Some (NodePath "B")) in
       exists w',
         method_peer_orchestrator_register (mkRegisterEnv true true false) 1
           (MethodCall "B") w =
         Ok (if slot then Replied else Returned EXIT_FAILURE, w') /\
         w' = set_trace (trace w ++ if slot then [NodeReplyEmpty 1] else [])
                (set_nodes (l1 ++ nd' :: l2) w) /\
         orch_find_node (nodes w') "B" = Some nd' /\
         node_at 1 (nodes w') = Some nd').
Proof.
  eexists. split; [vm_compute; reflexivity|].
  do 3 (split; [reflexivity|]).
  apply (X11_register_fresh_name [EvAccept accept_ok; EvAccept accept_ok]);
    [vm_compute; reflexivity|reflexivity..].
Defined.

(** X12: [accept_handler] on a registry reached from the initial
    orchestrator.  When [accept4] fails it returns 0 for EAGAIN, EINTR and
    EWOULDBLOCK and minus errno otherwise.  When the bus cannot be made or
    started, or [node_new] fails, it returns 0; but when
    [sd_id128_randomize] fails on a bus that was made, [assert (r >= 0)]
    fails and the process ends.  It returns EXIT_FAILURE when a vtable
    cannot be added and 0 when the Disconnected match cannot be requested.
    A connection is added only when every call succeeds; it is added at
    the end of the registry, at an address that no node has, without a
    name, and the registry holds its only reference.  In every other case
    the registry is unchanged; the handler never sends anything and never
    touches a job. *)
Theorem X12_accept_outcomes evs w e :
  run evs init = Ok w ->
  let added := mkNode (brk w) 1 true false None None in
  (forall n, n ∈ nodes w -> node_addr n <> node_addr added) /\
  (forall errno, a_accept4 e = Some errno ->
     accept_handler e w =
     Ok (if decide (errno = EAGAIN \/ errno = EINTR \/ errno = EWOULDBLOCK)
         then 0 else - errno, w)) /\
  (a_accept4 e = None ->
     accept_handler e w =
     if bus_made e then
       if a_randomize_ok e then
         if bus_started e && a_node_new_ok e then
           if a_hello_vtable_ok e && a_peer_vtable_ok e then
             if a_match_ok e then
               Ok (0, set_nodes (nodes w ++ [added]) (set_brk (S (brk w)) w))
             else Ok (0, set_brk (S (brk w)) w)
           else Ok (EXIT_FAILURE, set_brk (S (brk w)) w)
         else Ok (0, w)
       else Abort (AssertFailed "r >= 0")
     else Ok (0, w)).
Proof.
  intros HR%Registry_reachable added. split; [|split].
  - intros n Hn. apply (reg_brk _ _ HR) in Hn. cbn. lia.
  - intros errno He. rewrite accept_handler_eq, He by done. do 2 f_equal.
    destruct (decide _) as [[-> | [-> | ->]]|Hno]; [done..|].
    destruct (Z.eqb_spec errno EAGAIN); [tauto|].
    destruct (Z.eqb_spec errno EINTR); [tauto|].
    destruct (Z.eqb_spec errno EWOULDBLOCK); [tauto|done].
  - intros He. by rewrite accept_handler_eq, He.
Qed.

(** A third connection is accepted at the next address; the same call
    ends the process when [sd_id128_randomize] fails. *)
Lemma X12_accept_outcomes_witness :
  exists w, run [EvAccept accept_ok; EvIsolateAll (MethodCall "t") queue_ok]
              init = Ok w /\
    let added := mkNode (brk w) 1 true false None None in
    (forall n, n ∈ nodes w -> node_addr n <> node_addr added) /\
    accept_handler accept_ok w =
    Ok (0, set_nodes (nodes w ++ [added]) (set_brk (S (brk w)) w)).
Proof.
  eexists. split; [vm_compute; reflexivity|].
  match goal with
  | |- context [accept_handler accept_ok ?w] =>
      destruct (X12_accept_outcomes
                  [EvAccept accept_ok; EvIsolateAll (MethodCall "t") queue_ok]
                  w accept_ok) as (H1 & _ & H3); [vm_compute; reflexivity|]
  end.
  split; [exact H1|]. exact (H3 eq_refl).
Defined.

(** ** IsolateAll calls that leave no job *)

(** [orch_queue_job] when the vtable of the job cannot be added: the job
    is released again. *)
Lemma orch_queue_job_no_vtable e type start job_out w :
  Sched w ->
  q_malloc_ok e = true -> q_asprintf_ok e = true -> q_vtable_ok e = false ->
  orch_queue_job e type start job_out w =
  Ok ((EXIT_FAILURE, None),
      set_brk (S (brk w)) (set_next_job_id (wrap32 (next_job_id w + 1)) w)).
Proof.
  intros HI Hm Ha Hv. pose proof (Sched_fresh w HI) as Hfresh.
  unfold orch_queue_job, job_new, job_unref. rewrite Hm, Ha, Hv. exec_job.
  do 2 f_equal. destruct w. norm_world. cbn in Hfresh. f_equal.
  by rewrite delete_insert_eq, delete_id.
Qed.

(** X13: an IsolateAll call that cannot create its job, on an
    orchestrator reached from the initial one.  A message without a
    string argument makes the handler return the error of
    [sd_bus_message_read] and changes nothing.  When [malloc0] fails the
    client is answered ENOMEM and nothing else changes.  When [asprintf]
    fails the client is answered ENOMEM and the job is freed, but the id
    is used up ([++orch->next_job_id] has run): the next job that is
    created is announced with the id after it.  In none of the three
    cases a JobNew signal is sent or the queue changes. *)
Theorem X13_isolate_all_without_job evs w e :
  run evs init = Ok w ->
  (forall r,
     method_orchestrator_isolate_all e (Malformed r) w = Ok (Returned r, w)) /\
  (forall t, q_malloc_ok e = false ->
     method_orchestrator_isolate_all e (MethodCall t) w =
     Ok (Replied, set_trace (trace w ++ [ReplyErrno ENOMEM]) w)) /\
  (forall t, q_malloc_ok e = true -> q_asprintf_ok e = false ->
     let w1 := set_trace (trace w ++ [ReplyErrno ENOMEM])
                 (set_brk (S (brk w))
                    (set_next_job_id (wrap32 (next_job_id w + 1)) w)) in
     method_orchestrator_isolate_all e (MethodCall t) w = Ok (Replied, w1) /\
     forall t2, exists w2,
       method_orchestrator_isolate_all queue_ok (MethodCall t2) w1 =
         Ok (Replied, w2) /\
       let id := wrap32 (wrap32 (next_job_id w + 1) + 1) in
       trace w2 = trace w1 ++ [SigJobNew id (Some (JobPath id));
                               ReplyPath (Some (JobPath id))]).
Proof.
  intros HI%Sched_reachable. pose proof (Sched_fresh w HI) as Hfresh.
  split; [done|]. split; [intros t; apply method_isolate_all_no_malloc|].
  intros t Hm Ha w1. split.
  - rewrite method_isolate_all_no_path by done. subst w1.
    destruct w. norm_world. cbn in Hfresh. by rewrite delete_id.
  - intros t2. rewrite method_isolate_all_eq by done. cbn zeta.
    eexists. split; [reflexivity|]. cbn. by rewrite <- app_assoc.
Qed.

Lemma X13_isolate_all_without_job_witness :
  exists w, run [EvIsolateAll (MethodCall "t") queue_ok] init = Ok w /\
    (forall r,
       method_orchestrator_isolate_all
         (mkQueueEnv true false true true signal_ok)
         (Malformed r) w = Ok (Returned r, w)) /\
    (forall t,
       q_malloc_ok (mkQueueEnv true false true true signal_ok) = false ->
       method_orchestrator_isolate_all
         (mkQueueEnv true false true true signal_ok)
         (MethodCall t) w =
       Ok (Replied, set_trace (trace w ++ [ReplyErrno ENOMEM]) w)) /\
    (forall t,
       q_malloc_ok (mkQueueEnv true false true true signal_ok) = true ->
       q_asprintf_ok (mkQueueEnv true false true true signal_ok) = false ->
       let w1 := set_trace (trace w ++ [ReplyErrno ENOMEM])
                   (set_brk (S (brk w))
                      (set_next_job_id (wrap32 (next_job_id w + 1)) w)) in
       method_orchestrator_isolate_all
         (mkQueueEnv true false true true signal_ok)
         (MethodCall t) w = Ok (Replied, w1) /\
       forall t2, exists w2,
         method_orchestrator_isolate_all queue_ok (MethodCall t2) w1 =
           Ok (Replied, w2) /\
         let id := wrap32 (wrap32 (next_job_id w + 1) + 1) in
         trace w2 = trace w1 ++ [SigJobNew id (Some (JobPath id));
                                 ReplyPath (Some (JobPath id))]).
Proof.
  eexists. split; [vm_compute; reflexivity|].
  apply (X13_isolate_all_without_job
           [EvIsolateAll (MethodCall "t") queue_ok]).
  vm_compute. reflexivity.
Defined.

(** X14: when [sd_bus_add_object_vtable] fails in [orch_queue_job] (on an
    orchestrator reached from the initial one), the function frees the
    job, leaves the queue, the deferred source and the output alone and
    returns EXIT_FAILURE without storing anything through [job_out]; the
    id and the address are used up.  EXIT_FAILURE is positive, so the
    test [r < 0] of [method_orchestrator_isolate_all] lets it pass and the
    handler dereferences the NULL job. *)
Theorem X14_vtable_failure_is_not_caught evs w e type start job_out t :
  run evs init = Ok w ->
  q_malloc_ok e = true -> q_asprintf_ok e = true -> q_vtable_ok e = false ->
  orch_queue_job e type start job_out w =
    Ok ((EXIT_FAILURE, None),
        set_brk (S (brk w))
          (set_next_job_id (wrap32 (next_job_id w + 1)) w)) /\
  (EXIT_FAILURE <? 0) = false /\
  method_orchestrator_isolate_all e (MethodCall t) w = Abort NullDeref.
Proof.
  intros HI%Sched_reachable Hm Ha Hv.
  split; [by apply orch_queue_job_no_vtable|]. split; [done|].
  by apply method_isolate_all_no_vtable.
Qed.

Lemma X14_vtable_failure_is_not_caught_witness :
  exists w, run [EvAccept accept_ok] init = Ok w /\
    q_malloc_ok (mkQueueEnv true true false true signal_ok) = true /\
    q_asprintf_ok (mkQueueEnv true true false true signal_ok) = true /\
    q_vtable_ok (mkQueueEnv true true false true signal_ok) = false /\
    orch_queue_job (mkQueueEnv true true false true signal_ok) JOB_ISOLATE_ALL
      (Some job_isolate_all_hook) true w =
      Ok ((EXIT_FAILURE, None),
          set_brk (S (brk w))
            (set_next_job_id (wrap32 (next_job_id w + 1)) w)) /\
    (EXIT_FAILURE <? 0) = false /\
    method_orchestrator_isolate_all (mkQueueEnv true true false true signal_ok)
      (MethodCall "t") w = Abort NullDeref.
Proof.
  eexists. split; [vm_compute; reflexivity|].
  do 3 (split; [reflexivity|]).
  apply (X14_vtable_failure_is_not_caught [EvAccept accept_ok]);
    [vm_compute; reflexivity|reflexivity..].
Defined.

(** ** The order of the output *)

Lemma preceded_mono pre pre' o :
  (forall x, x ∈ pre -> x ∈ pre') -> preceded pre o -> preceded pre' o.
Proof.
  intros Hsub. destruct o; cbn; try done.
  - intros [? ?]. eauto.
  - intros [id ?]. eauto.
  - intros (q & ? & ?). eauto.
  - intros [id ?]. eauto.
Qed.

Lemma follows_snoc tr o : follows tr -> preceded tr o -> follows (tr ++ [o]).
Proof.
  intros Htr Ho pre o' post Heq.
  destruct post as [|x post _] using rev_ind.
  - by apply app_inj_tail in Heq as [-> ->].
  - rewrite app_comm_cons, app_assoc in Heq.
    apply app_inj_tail in Heq as [-> ->]. by eapply Htr.
Qed.

Lemma follows_app tr out :
  follows tr -> Forall (preceded tr) out -> follows (tr ++ out).
Proof.
  intros Htr Hout. revert tr Htr Hout.
  induction out as [|o out IH]; intros tr Htr Hout.
  - by rewrite app_nil_r.
  - apply Forall_cons in Hout as [Ho Hout].
    rewrite (cons_middle o), app_assoc. apply IH; [by apply follows_snoc|].
    eapply Forall_impl; [exact Hout|]. intros x.
    apply preceded_mono. intros y Hy. apply elem_of_app. by left.
Qed.

Lemma calm_preceded tr out :
  Forall (fun o => scheduler_output o = false) out ->
  Forall (preceded tr) out.
Proof. intros H. eapply Forall_impl; [exact H|]. by intros []. Qed.

Lemma Life_init : Life init.
Proof.
  split; cbn.
  - intros a j Ha. by apply elem_of_nil in Ha.
  - done.
  - intros pre o post H. by destruct pre.
Qed.

(** A callback that leaves the queue alone and sends nothing of the
    scheduler. *)
Lemma Life_frame w w' :
  Life w -> jobs w' = jobs w -> current_job w' = current_job w ->
  (forall a j', heap w' !! a = Some j' ->
     exists j, heap w !! a = Some j /\ job_id j' = job_id j /\
       job_object_path j' = job_object_path j) ->
  (exists out, trace w' = trace w ++ out /\
     Forall (fun o => scheduler_output o = false) out) ->
  Life w'.
Proof.
  intros [] Hj Hc Hh (out & Ht & Hout). split.
  - intros a j' Ha (j & Hj0 & -> & ->)%Hh. rewrite Ht. apply elem_of_app.
    left. apply (life_queued0 a); [by rewrite <- Hj|done].
  - intros a j' Ha (j & Hj0 & -> & _)%Hh. rewrite Ht. apply elem_of_app.
    left. apply (life_current0 a); [by rewrite <- Hc|done].
  - rewrite Ht. apply follows_app; [done|]. by apply calm_preceded.
Qed.

Lemma Life_queued e target w :
  built (q_signal e) = true ->
  Sched w -> Life w -> Life (queued_world e target w).
Proof.
  intros He HS []. pose proof (Sched_fresh w HS) as Hfresh.
  unfold queued_world. cbn zeta. rewrite sent_built by done. split; cbn.
  - intros a j [Ha| ->%list_elem_of_singleton]%elem_of_app.
    + rewrite lookup_insert_ne by (intros <-; by destruct (sch_live w HS _ Ha)
        as (? & ? & _); congruence).
      intros Hj. rewrite !elem_of_app. left; left. by eapply life_queued0.
    + rewrite lookup_insert_eq. intros [= <-]. cbn.
      rewrite !elem_of_app, !list_elem_of_singleton. by left; right.
  - intros a j Hc. destruct (sch_cur w HS a Hc) as [rest Hjs].
    rewrite lookup_insert_ne.
    + intros Hj. rewrite !elem_of_app. left; left. by eapply life_current0.
    + intros <-. destruct (sch_live w HS (brk w)) as (? & ? & _); [|congruence].
      rewrite Hjs. apply elem_of_cons. by left.
  - apply follows_snoc; [apply follows_snoc|]; done.
Qed.

Lemma Life_started w b rest j :
  Sched w -> Life w -> current_job w = None ->
  jobs w = b :: rest -> heap w !! b = Some j ->
  Life (set_job_source None (started_world b j w)).
Proof.
  intros HS [] Hc Hjs Hj.
  assert (Hnew : SigJobNew (job_id j) (job_object_path j) ∈ trace w).
  { apply (life_queued0 b); [|done]. rewrite Hjs. apply elem_of_cons. by left. }
  unfold started_world, started_job. split; cbn.
  - intros a j' Ha Hj'. rewrite !elem_of_app. do 3 left.
    destruct (decide (a = b)) as [->|Hne].
    + rewrite lookup_insert_eq in Hj'. by injection Hj' as <-.
    + rewrite lookup_insert_ne in Hj' by done. by eapply life_queued0.
  - intros a j' [= <-]. rewrite lookup_insert_eq. intros [= <-]. cbn.
    rewrite !elem_of_app, !list_elem_of_singleton. by left; right.
  - apply follows_app; [apply follows_snoc; [apply follows_snoc|]|].
    + done.
    + cbn. eauto.
    + cbn. exists (job_object_path j).
      rewrite !elem_of_app, !list_elem_of_singleton. eauto.
    + apply list.Forall_forall. intros o (n & -> & _)%list_elem_of_fmap.
      cbn. exists (job_id j). apply elem_of_app. right.
      by apply list_elem_of_singleton.
Qed.

Lemma Life_removed s w a j rest :
  Sched w -> Life w -> current_job w = Some a ->
  jobs w = a :: rest -> heap w !! a = Some j ->
  Life (removed_world s a j rest w).
Proof.
  intros HS [] Hc Hjs Hj.
  assert (Ha : a ∈ jobs w) by (rewrite Hjs; apply elem_of_cons; by left).
  unfold removed_world. split; cbn.
  - intros x jx Hx [_ Hjx]%lookup_delete_Some. apply elem_of_app. left.
    apply (life_queued0 x); [|done]. rewrite Hjs. apply elem_of_cons. by right.
  - done.
  - apply follows_app; [done|]. apply list.Forall_forall.
    intros o ->%elem_of_sent. cbn. split; eauto.
Qed.

Lemma Life_step ev w w' :
  can_send_new ev -> Sched w -> Life w -> step ev w = Ok (tt, w') -> Life w'.
Proof.
  intros Hann HS HL Hrun.
  assert (Hnode : (forall rpc d, ev <> EvDefer rpc d) ->
            node_frame w w' -> Life w').
  { intros Hev (_ & Hc & _ & Hj & Hh & _).
    apply (Life_frame w); try done.
    - intros a j' Ha. rewrite Hh in Ha. eauto.
    - by eapply step_not_scheduler_output. }
  destruct ev as [m e|rpc d|k err d|e|node m e|node].
  - pose proof Hrun as Hrun'.
    apply step_isolate_all_inv in Hrun as [Hf|[->|(target & _ & ->)]].
    + by apply Hnode.
    + apply (Life_frame w); try done.
      * intros a j'. cbn. intros [_ Ha]%lookup_delete_Some. eauto.
      * eexists [_]. split; [done|]. by repeat constructor.
    + by apply Life_queued.
  - apply step_defer_inv in Hrun as
      [[_ ->]|[(b & rest & j & _ & Hc & Hjs & Hj & Hns & ->)|
               (a & j & rest & _ & Hc & Hcs & Hjs & Hj & Hcase)]];
      [done| | |done].
    + by eapply Life_started.
    + pose proof (Life_removed (d_signal d) w a j rest HS HL Hc Hjs Hj)
        as HL'.
      destruct (Sched_removed (d_signal d) w a HS Hc Hcs)
        as (j0 & rest0 & Hjs0 & Hj0 & HS').
      assert (j0 = j) as -> by congruence.
      assert (rest0 = rest) as -> by congruence.
      destruct Hcase as [[-> ->]|(b & rest' & jb & -> & Hjb & Hns & ->)];
        [done|].
      eapply Life_started; [done..|]. cbn.
      rewrite lookup_delete_ne; [done|]. intros <-.
      pose proof (sch_nodup w HS) as Hnd. rewrite Hjs in Hnd.
      apply NoDup_cons in Hnd as [Hnd _]. apply Hnd, elem_of_cons. by left.
  - apply step_reply_inv in Hrun
      as [[_ ->]|(c & j & Hk & Hc & Hj & ->)]; [done| |done].
    apply (Life_frame w); try done.
    + intros a j'. cbn. destruct (decide (a = call_job c)) as [->|Hne].
      * rewrite lookup_insert_eq. intros [= <-]. eauto.
      * rewrite lookup_insert_ne by done. eauto.
    + exists []. cbn. by rewrite app_nil_r.
  - apply Hnode; [done|]. eapply step_node_frame, Hrun. done.
  - apply Hnode; [done|]. eapply step_node_frame, Hrun. done.
  - apply Hnode; [done|]. eapply step_node_frame, Hrun. done.
Qed.

Lemma Life_run evs : forall w w',
  Forall can_send_new evs ->
  Sched w -> Life w -> run evs w = Ok w' -> Life w'.
Proof.
  induction evs as [|ev evs IH]; intros w w' Hevs HS HL; [by intros [= <-]|].
  inversion_clear Hevs as [|? ? Hev Hevs'].
  intros (w1 & Hs & Hr)%run_cons. eapply IH; [done| | |exact Hr].
  - by eapply Sched_step.
  - by eapply Life_step.
Qed.

Lemma Life_reachable evs w :
  Forall can_send_new evs -> run evs init = Ok w -> Life w.
Proof.
  intros Hevs. apply Life_run; [done|apply Sched_init|apply Life_init].
Qed.

(** X15: in the output of a run from the initial orchestrator in which
    every IsolateAll call could build its JobNew signal, every observation
    comes after what its job has to have gone through: a PropertiesChanged
    signal after the JobNew signal with its path, a start hook after the
    JobNew of its id and the PropertiesChanged of that job, an Isolate
    call after a start hook, and a JobRemoved signal, when one is sent,
    after the start hook and the JobNew signal of the same job.  Moreover
    every job of the queue has been announced by JobNew and the current
    job has been started. *)
Theorem X15_output_follows_life_cycle evs w :
  Forall can_send_new evs -> run evs init = Ok w ->
  (forall pre o post, trace w = pre ++ o :: post ->
     match o with
     | SigPropertiesChanged p => exists id, SigJobNew id p ∈ pre
     | HookStart id =>
         exists p, SigJobNew id p ∈ pre /\ SigPropertiesChanged p ∈ pre
     | CallIsolate _ _ => exists id, HookStart id ∈ pre
     | SigJobRemoved id p _ => HookStart id ∈ pre /\ SigJobNew id p ∈ pre
     | _ => True
     end) /\
  (forall a j, a ∈ jobs w -> heap w !! a = Some j ->
     SigJobNew (job_id j) (job_object_path j) ∈ trace w) /\
  (forall a j, current_job w = Some a -> heap w !! a = Some j ->
     HookStart (job_id j) ∈ trace w).
Proof.
  intros Hevs [Hq Hc Hf]%Life_reachable; [|done]. split; [|by split].
  intros pre o post Heq. apply (Hf pre o post Heq).
Qed.

Lemma X15_output_follows_life_cycle_witness :
  Forall can_send_new queued_second_run /\
  exists w, run queued_second_run init = Ok w /\
    (forall pre o post, trace w = pre ++ o :: post ->
       match o with
       | SigPropertiesChanged p => exists id, SigJobNew id p ∈ pre
       | HookStart id =>
           exists p, SigJobNew id p ∈ pre /\ SigPropertiesChanged p ∈ pre
       | CallIsolate _ _ => exists id, HookStart id ∈ pre
       | SigJobRemoved id p _ => HookStart id ∈ pre /\ SigJobNew id p ∈ pre
       | _ => True
       end) /\
    (forall a j, a ∈ jobs w -> heap w !! a = Some j ->
       SigJobNew (job_id j) (job_object_path j) ∈ trace w) /\
    (forall a j, current_job w = Some a -> heap w !! a = Some j ->
       HookStart (job_id j) ∈ trace w).
Proof.
  assert (Hevs : Forall can_send_new queued_second_run)
    by (repeat constructor).
  split; [exact Hevs|]. eexists. split; [vm_compute; reflexivity|].
  apply (X15_output_follows_life_cycle queued_second_run);
    [exact Hevs|vm_compute; reflexivity].
Defined.

(** ** The order of the start hooks *)

Lemma hook_ids_app tr out : hook_ids (tr ++ out) = hook_ids tr ++ hook_ids out.
Proof. apply omap_app. Qed.

Lemma hook_ids_none out :
  Forall (fun o => forall id, o <> HookStart id) out -> hook_ids out = [].
Proof.
  induction 1 as [|o out Ho _ IH]; [done|].
  cbn. destruct o; try done; try apply IH. by destruct (Ho id).
Qed.

Lemma hook_ids_elem_of tr id : id ∈ hook_ids tr <-> HookStart id ∈ tr.
Proof.
  unfold hook_ids. rewrite list_elem_of_omap. split.
  - intros (o & Ho & Hid). destruct o; try done. by injection Hid as ->.
  - intros H. by exists (HookStart id).
Qed.

Lemma hook_ids_sent tr s o :
  (forall id, o <> HookStart id) -> hook_ids (tr ++ sent s o) = hook_ids tr.
Proof.
  intros Ho. rewrite hook_ids_app, (hook_ids_none (sent s o)), app_nil_r;
    [done|].
  apply list.Forall_forall. by intros x ->%elem_of_sent.
Qed.

Lemma Starts_init : Starts init.
Proof.
  split; cbn; [constructor|..]; intros id; intros; exfalso;
    eapply elem_of_nil; eassumption.
Qed.

Lemma Starts_frame w w' :
  Starts w -> jobs w' = jobs w -> current_job w' = current_job w ->
  next_job_id w <= next_job_id w' ->
  (forall a, a ∈ jobs w -> id_of (heap w') a = id_of (heap w) a) ->
  (exists out, trace w' = trace w ++ out /\
     Forall (fun o => forall id, o <> HookStart id) out) ->
  Starts w'.
Proof.
  intros [] Hj Hc Hn Hh (out & Ht & Hout).
  assert (Hids : hook_ids (trace w') = hook_ids (trace w)).
  { by rewrite Ht, hook_ids_app, (hook_ids_none out), app_nil_r. }
  split; rewrite Hids; [done| |].
  - rewrite Hj, Hc. intros id a Hid Ha Hcur.
    rewrite Hh by done. by apply starts_waiting0.
  - intros id Hid. specialize (starts_bound0 id Hid). lia.
Qed.

Lemma Starts_queued e target w :
  Sched w -> Ids w -> Starts w -> next_job_id w + 1 < 2 ^ 32 ->
  Starts (queued_world e target w).
Proof.
  intros HS HI [] Hbound. pose proof (ids_counter w HI) as Hn0.
  unfold queued_world. cbn zeta. rewrite wrap32_small by done.
  assert (Hold : forall a, a ∈ jobs w -> a <> brk w).
  { intros a Hin ->. apply (sch_brk w HS) in Hin. lia. }
  assert (Hids : forall tr x y,
            hook_ids ((tr ++ sent (q_signal e) (SigJobNew x y)) ++
                      [ReplyPath y]) = hook_ids tr).
  { intros tr x y. rewrite hook_ids_app, hook_ids_sent by done. cbn.
    by rewrite app_nil_r. }
  split; cbn; rewrite Hids; [done| |].
  - intros id a Hid [Ha| ->%list_elem_of_singleton]%elem_of_app Hcur.
    + unfold id_of. rewrite lookup_insert_ne by (by apply not_eq_sym, Hold).
      by apply starts_waiting0.
    + unfold id_of. rewrite lookup_insert_eq. cbn.
      specialize (starts_bound0 id Hid). lia.
  - intros id Hid. specialize (starts_bound0 id Hid). lia.
Qed.

Lemma Starts_started w b rest j :
  Ids w -> Starts w -> current_job w = None ->
  jobs w = b :: rest -> heap w !! b = Some j ->
  Starts (set_job_source None (started_world b j w)).
Proof.
  intros HI [] Hc Hjs Hj.
  assert (Hidb : id_of (heap w) b = job_id j) by (unfold id_of; by rewrite Hj).
  assert (Hb : b ∈ jobs w) by (rewrite Hjs; apply elem_of_cons; by left).
  unfold started_world, started_job.
  assert (Hids : hook_ids
            (((trace w ++ [SigPropertiesChanged (job_object_path j)]) ++
              [HookStart (job_id j)]) ++
             map (fun n => CallIsolate (node_addr n) (isolate_target j))
               (nodes w)) = hook_ids (trace w) ++ [job_id j]).
  { rewrite !hook_ids_app. cbn [hook_ids omap].
    rewrite (hook_ids_none (map _ _)), !app_nil_r; [done|].
    apply list.Forall_forall. by intros o (n & -> & _)%list_elem_of_fmap. }
  split; cbn [trace jobs current_job heap next_job_id set_job_source set_heap
              set_calls set_trace set_current_job set_jobs]; rewrite Hids.
  - apply StronglySorted_app_2; [|done|repeat constructor].
    intros x y Hx ->%list_elem_of_singleton. rewrite <- Hidb.
    apply starts_waiting0; [done..|]. by rewrite Hc.
  - intros id a [Hid| ->%list_elem_of_singleton]%elem_of_app Ha Hcur.
    + rewrite (id_of_insert _ _ j) by done.
      apply starts_waiting0; [done..|]. by rewrite Hc.
    + rewrite (id_of_insert _ _ j) by done.
      pose proof (ids_sorted w HI) as Hs. rewrite Hjs, fmap_cons in Hs.
      apply StronglySorted_cons in Hs as [Hhd _].
      rewrite list.Forall_forall in Hhd. rewrite <- Hidb. apply Hhd.
      rewrite Hjs in Ha. apply elem_of_cons in Ha as [->|Ha]; [done|].
      by apply list_elem_of_fmap_2.
  - intros id [Hid| ->%list_elem_of_singleton]%elem_of_app;
      [by apply starts_bound0|].
    rewrite <- Hidb. by apply (ids_jobs w HI).
Qed.

Lemma Starts_removed s w a j rest :
  Sched w -> Starts w -> current_job w = Some a ->
  jobs w = a :: rest -> heap w !! a = Some j ->
  Starts (removed_world s a j rest w).
Proof.
  intros HS [] Hc Hjs Hj.
  assert (Hnd : (a ∉ rest) /\ NoDup rest).
  { apply NoDup_cons. rewrite <- Hjs. apply (sch_nodup w HS). }
  destruct Hnd as [Hna Hnd].
  unfold removed_world.
  split; cbn [trace jobs current_job heap next_job_id set_job_source set_heap
              set_calls set_trace set_current_job set_jobs];
    rewrite hook_ids_sent by done; [done| |done].
  intros id x Hid Hx _.
  assert (Hxa : x <> a) by (by intros ->).
  unfold id_of. rewrite lookup_delete_ne by done.
  apply starts_waiting0; [done| |congruence].
  rewrite Hjs. apply elem_of_cons. by right.
Qed.

Lemma Starts_step ev w w' :
  Sched w -> Ids w -> Starts w -> next_job_id w + 1 < 2 ^ 32 ->
  step ev w = Ok (tt, w') -> Starts w'.
Proof.
  intros HS HI HT Hbound Hrun.
  pose proof (ids_counter w HI) as Hn0.
  assert (Hnode : node_frame w w' -> Starts w').
  { intros (Hn & Hc & _ & Hj & Hh & _ & _ & out & Ht & Hq).
    apply (Starts_frame w); try done.
    - lia.
    - intros a _. by rewrite Hh.
    - exists out. split; [done|]. by apply quiet_not_hook. }
  destruct ev as [m e|rpc d|k err d|e|node m e|node].
  - apply step_isolate_all_inv in Hrun as [Hf|[->|(target & _ & ->)]].
    + by apply Hnode.
    + apply (Starts_frame w); try done.
      * cbn. rewrite wrap32_small by done. lia.
      * intros a Ha. unfold id_of. cbn. rewrite lookup_delete_ne; [done|].
        intros <-. apply (sch_brk w HS) in Ha. lia.
      * eexists [_]. split; [done|]. by repeat constructor.
    + by apply Starts_queued.
  - apply step_defer_inv in Hrun as
      [[_ ->]|[(b & rest & j & _ & Hc & Hjs & Hj & Hns & ->)|
               (a & j & rest & _ & Hc & Hcs & Hjs & Hj & Hcase)]];
      [done| | |done].
    + by eapply Starts_started.
    + pose proof (Starts_removed (d_signal d) w a j rest HS HT Hc Hjs Hj)
        as HT'.
      pose proof (Ids_removed (d_signal d) w a j rest HS HI Hc Hjs Hj) as HI'.
      destruct Hcase as [[-> ->]|(b & rest' & jb & -> & Hjb & Hns & ->)];
        [done|].
      eapply Starts_started; [done..|]. cbn.
      rewrite lookup_delete_ne; [done|]. intros <-.
      pose proof (sch_nodup w HS) as Hnd. rewrite Hjs in Hnd.
      apply NoDup_cons in Hnd as [Hnd _]. apply Hnd, elem_of_cons. by left.
  - apply step_reply_inv in Hrun
      as [[_ ->]|(c & j & Hk & Hc & Hj & ->)]; [done| |done].
    apply (Starts_frame w); try done.
    + intros a _. cbn. by apply (id_of_insert _ _ j).
    + exists []. cbn. by rewrite app_nil_r.
  - eapply Hnode, step_node_frame, Hrun. done.
  - eapply Hnode, step_node_frame, Hrun. done.
  - eapply Hnode, step_node_frame, Hrun. done.
Qed.

Lemma Starts_run evs : forall w w' (k : nat),
  Sched w -> Ids w -> Starts w -> next_job_id w <= Z.of_nat k ->
  Z.of_nat (k + length evs) < 2 ^ 32 ->
  run evs w = Ok w' -> Starts w'.
Proof.
  induction evs as [|ev evs IH]; intros w w' k HS HI HT Hk Hlen;
    [by intros [= <-]|].
  intros (w1 & Hs & Hr)%run_cons. cbn [length] in Hlen.
  pose proof (ids_counter w HI) as Hn0.
  assert (Hb : next_job_id w + 1 < 2 ^ 32) by lia.
  apply (IH w1 w' (S k));
    [by eapply Sched_step|by eapply Ids_step|by eapply Starts_step| |lia|done].
  destruct (step_counter ev w w1 Hs) as [->| ->]; [lia|].
  rewrite wrap32_small by done. lia.
Qed.

Lemma Starts_reachable evs w :
  Z.of_nat (length evs) < 2 ^ 32 -> run evs init = Ok w -> Starts w.
Proof.
  intros Hlen. apply (Starts_run evs init w 0%nat);
    [apply Sched_init|apply Ids_init|apply Starts_init|done|done].
Qed.

(** X16: in a run of fewer than 2^32 callbacks from the initial
    orchestrator (the [uint32_t] id counter has not wrapped) the start
    hooks run in the order of the job ids: of two start hooks in the
    output the earlier one belongs to the job with the smaller id, so no
    job is started twice and jobs start in the order of their creation.
    Every job that still waits has a greater id than every job that has
    been started. *)
Theorem X16_jobs_start_in_id_order evs w :
  run evs init = Ok w -> Z.of_nat (length evs) < 2 ^ 32 ->
  (forall pre id1 mid id2 post,
     trace w = pre ++ HookStart id1 :: mid ++ HookStart id2 :: post ->
     id1 < id2) /\
  (forall id a j, HookStart id ∈ trace w -> a ∈ jobs w ->
     current_job w <> Some a -> heap w !! a = Some j -> id < job_id j).
Proof.
  intros Hrun Hlen. destruct (Starts_reachable evs w Hlen Hrun) as [Hs Hw _].
  split.
  - intros pre id1 mid id2 post Heq.
    rewrite Heq, (cons_middle (HookStart id1)), app_assoc, hook_ids_app in Hs.
    eapply StronglySorted_app_1_elem_of; [exact Hs|..];
      apply hook_ids_elem_of, elem_of_app; right; apply elem_of_cons; by left.
  - intros id a j Hid Ha Hc Hj.
    specialize (Hw id a (proj2 (hook_ids_elem_of _ _) Hid) Ha Hc).
    unfold id_of in Hw. by rewrite Hj in Hw.
Qed.

Lemma X16_jobs_start_in_id_order_witness :
  exists w, run queued_second_run init = Ok w /\
    Z.of_nat (length queued_second_run) < 2 ^ 32 /\
    (forall pre id1 mid id2 post,
       trace w = pre ++ HookStart id1 :: mid ++ HookStart id2 :: post ->
       id1 < id2) /\
    (forall id a j, HookStart id ∈ trace w -> a ∈ jobs w ->
       current_job w <> Some a -> heap w !! a = Some j -> id < job_id j).
Proof.
  eexists. split; [vm_compute; reflexivity|].
  split; [vm_compute; reflexivity|].
  apply (X16_jobs_start_in_id_order queued_second_run);
    vm_compute; reflexivity.
Defined.

(** ** Enqueueing and finishing *)

(** X17: an IsolateAll call whose allocations succeed, on an orchestrator
    reached from the initial one.  The handler replies and leaves exactly
    one new job, at an address that was free and at the end of the queue:
    Waiting, with the next id and its path, exported, with the start hook
    of IsolateAll, holding the message and the target, and referenced
    once (by the queue: the references of the handler are dropped).  The
    deferred start is queued exactly when no job is current, no deferred
    source is pending and [sd_event_add_defer] succeeds; the current job,
    the outstanding calls and the registry are untouched. *)
Theorem X17_isolate_all_enqueues evs w e target :
  run evs init = Ok w ->
  q_malloc_ok e = true -> q_asprintf_ok e = true -> q_vtable_ok e = true ->
  exists w',
    method_orchestrator_isolate_all e (MethodCall target) w
      = Ok (Replied, w') /\
    heap w !! brk w = None /\ (brk w ∉ jobs w) /\
    jobs w' = jobs w ++ [brk w] /\
    heap w' =
      <[brk w := mkJob 1 JOB_ISOLATE_ALL JOB_WAITING JOB_DONE true
                   (wrap32 (next_job_id w + 1))
                   (Some (JobPath (wrap32 (next_job_id w + 1))))
                   (Some job_isolate_all_hook) (Some (MethodCall target))
                   (Some target) 0]> (heap w) /\
    next_job_id w' = wrap32 (next_job_id w + 1) /\ brk w' = S (brk w) /\
    current_job w' = current_job w /\ calls w' = calls w /\
    nodes w' = nodes w /\
    job_source w' =
      if decide (current_job w = None /\ job_source w = None)
      then (if q_defer_ok e then Some StartCb else None)
      else job_source w.
Proof.
  intros HS%Sched_reachable Hm Ha Hv.
  rewrite method_isolate_all_eq by done. cbn zeta.
  eexists. split; [reflexivity|]. cbn.
  split; [by apply Sched_fresh|]. split.
  { intros Hin. apply (sch_brk w HS) in Hin. lia. }
  do 6 (split; [done|]). unfold scheduled.
  destruct (current_job w), (job_source w);
    by rewrite ?decide_True, ?decide_False by (done || by intros [? ?]).
Qed.

Lemma X17_isolate_all_enqueues_witness :
  exists w, run (take 3 three_nodes_run) init = Ok w /\
    q_malloc_ok queue_ok = true /\ q_asprintf_ok queue_ok = true /\
    q_vtable_ok queue_ok = true /\
    exists w',
      method_orchestrator_isolate_all queue_ok (MethodCall "t") w
        = Ok (Replied, w') /\
      heap w !! brk w = None /\ (brk w ∉ jobs w) /\
      jobs w' = jobs w ++ [brk w] /\
      heap w' =
        <[brk w := mkJob 1 JOB_ISOLATE_ALL JOB_WAITING JOB_DONE true
                     (wrap32 (next_job_id w + 1))
                     (Some (JobPath (wrap32 (next_job_id w + 1))))
                     (Some job_isolate_all_hook) (Some (MethodCall "t"))
                     (Some "t"%string) 0]> (heap w) /\
      next_job_id w' = wrap32 (next_job_id w + 1) /\ brk w' = S (brk w) /\
      current_job w' = current_job w /\ calls w' = calls w /\
      nodes w' = nodes w /\
      job_source w' =
        if decide (current_job w = None /\ job_source w = None)
        then (if q_defer_ok queue_ok then Some StartCb else None)
        else job_source w.
Proof.
  eexists. split; [vm_compute; reflexivity|].
  do 3 (split; [reflexivity|]).
  apply (X17_isolate_all_enqueues (take 3 three_nodes_run));
    [vm_compute; reflexivity|reflexivity..].
Defined.

(** X18: the deferred finish, on an orchestrator reached from the initial
    one.  It sends JobRemoved with "done" for the current job, if the
    message of the signal can be built, and whether it can or not takes
    the job out of the queue and frees it.  If no job waits, the
    orchestrator is idle afterwards.  If a job waits and the registry has
    a node and every call can be sent, the same callback starts that job:
    it is the new current job, Running, with one outstanding call per
    node, and the output is JobRemoved of the old job (if it was built),
    then PropertiesChanged, the start hook and the Isolate calls of the
    new one; no deferred source is pending afterwards. *)
Theorem X18_finish_starts_next evs w rpc d :
  run evs init = Ok w -> job_source w = Some FinishCb ->
  exists a j rest,
    current_job w = Some a /\ jobs w = a :: rest /\
    heap w !! a = Some j /\ calls w = [] /\
    let removed :=
      sent (d_signal d)
        (SigJobRemoved (job_id j) (Some (JobPath (job_id j))) "done") in
    match rest with
    | [] =>
        exists w', step (EvDefer rpc d) w = Ok (tt, w') /\
          current_job w' = None /\ job_source w' = None /\
          jobs w' = [] /\ heap w' = delete a (heap w) /\ calls w' = [] /\
          trace w' = trace w ++ removed
    | b :: rest' =>
        nodes w <> [] -> all_fine rpc (nodes w) = true ->
        exists w' jb jb',
          step (EvDefer rpc d) w = Ok (tt, w') /\
          heap w !! b = Some jb /\
          current_job w' = Some b /\ job_source w' = None /\
          jobs w' = b :: rest' /\
          heap w' !! a = None /\ heap w' !! b = Some jb' /\
          job_state jb' = JOB_RUNNING /\ job_ref_count jb' = 2 /\
          isolate_outstanding jb' = Z.of_nat (length (nodes w)) /\
          calls w' = map (fun n => mkCall (node_addr n) b) (nodes w) /\
          trace w' =
            trace w ++ removed ++
            [SigPropertiesChanged (job_object_path jb);
             HookStart (job_id jb)] ++
            map (fun n => CallIsolate (node_addr n) (isolate_target jb))
              (nodes w)
    end.
Proof.
  intros HS%Sched_reachable Hsrc.
  destruct (step_finish_eq rpc d w HS Hsrc)
    as (a & j & rest & Hc & Hcs & Hjs & Hj & Hcase).
  destruct (Sched_current w a HS Hc)
    as (j0 & rest0 & Hjs0 & Hj0 & Hres & Hcb & Hpath & Hst & Hrc & Hout).
  assert (j0 = j) as -> by congruence. clear rest0 Hjs0 Hj0.
  exists a, j, rest. do 4 (split; [done|]). cbn zeta.
  destruct rest as [|b rest'].
  - eexists. split; [exact Hcase|]. cbn. rewrite Hres, Hpath.
    by repeat split.
  - intros Hns Hall. destruct Hcase as (jb & Hjb & Hstep).
    unfold start_outcome in Hstep.
    cbn [nodes removed_world set_trace set_heap set_jobs set_job_source
         set_current_job] in Hstep.
    rewrite Hall in Hstep. destruct (nodes w) as [|n ns] eqn:Hnodes; [done|].
    assert (Hb : b ∈ jobs w).
    { rewrite Hjs. apply elem_of_cons. right. apply elem_of_cons. by left. }
    assert (Hba : b <> a).
    { intros ->. pose proof (sch_nodup w HS) as Hnd. rewrite Hjs in Hnd.
      apply NoDup_cons in Hnd as [Hnd _]. apply Hnd, elem_of_cons. by left. }
    destruct (Sched_waiting w b HS Hb) as
      (jb0 & Hjb0 & Hresb & Hcbb & Hpathb & Hstb & Hrcb & Houtb);
      [congruence|].
    assert (jb0 = jb) as -> by congruence.
    eexists _, jb, _. split; [exact Hstep|]. split; [done|].
    unfold started_world, removed_world, started_job.
    cbn [current_job job_source jobs heap calls trace nodes set_trace
         set_heap set_jobs set_job_source set_current_job set_calls].
    rewrite Hnodes, Hcs, Hres, Hpath, Hrcb, Houtb.
    do 3 (split; [done|]).
    split; [by rewrite lookup_insert_ne, lookup_delete_eq|].
    split; [by rewrite lookup_insert_eq|]. cbn.
    do 3 (split; [done|]). split; [done|].
    by rewrite <- !app_assoc.
Qed.

Lemma X18_finish_starts_next_witness :
  exists w, run (take 5 queued_second_run) init = Ok w /\
    job_source w = Some FinishCb /\
    exists a j rest,
      current_job w = Some a /\ jobs w = a :: rest /\
      heap w !! a = Some j /\ calls w = [] /\
      let removed :=
        [SigJobRemoved (job_id j) (Some (JobPath (job_id j))) "done"] in
      match rest with
      | [] =>
          exists w', step (EvDefer rpc_ok deferred_ok) w = Ok (tt, w') /\
            current_job w' = None /\ job_source w' = None /\
            jobs w' = [] /\ heap w' = delete a (heap w) /\ calls w' = [] /\
            trace w' = trace w ++ removed
      | b :: rest' =>
          nodes w <> [] -> all_fine rpc_ok (nodes w) = true ->
          exists w' jb jb',
            step (EvDefer rpc_ok deferred_ok) w = Ok (tt, w') /\
            heap w !! b = Some jb /\
            current_job w' = Some b /\ job_source w' = None /\
            jobs w' = b :: rest' /\
            heap w' !! a = None /\ heap w' !! b = Some jb' /\
            job_state jb' = JOB_RUNNING /\ job_ref_count jb' = 2 /\
            isolate_outstanding jb' = Z.of_nat (length (nodes w)) /\
            calls w' = map (fun n => mkCall (node_addr n) b) (nodes w) /\
            trace w' =
              trace w ++ removed ++
              [SigPropertiesChanged (job_object_path jb);
               HookStart (job_id jb)] ++
              map (fun n => CallIsolate (node_addr n) (isolate_target jb))
                (nodes w)
      end.
Proof.
  eexists. split; [vm_compute; reflexivity|]. split; [reflexivity|].
  apply (X18_finish_starts_next (take 5 queued_second_run));
    [vm_compute; reflexivity|reflexivity].
Defined.

(** ** The description buffer *)

Lemma substring_length n : forall s,
  String.length (String.substring 0 n s) = Nat.min n (String.length s).
Proof.
  induction n as [|n IH]; intros [|c s]; try done.
  change (S (String.length (String.substring 0 n s)) =
          S (Nat.min n (String.length s))). by rewrite IH.
Qed.

Lemma substring_all n : forall s,
  (String.length s <= n)%nat -> String.substring 0 n s = s.
Proof.
  induction n as [|n IH]; intros [|c s]; try done.
  - cbn [String.length]. lia.
  - cbn [String.length]. intros H.
    change (String c (String.substring 0 n s) = String c s).
    rewrite IH; [done|lia].
Qed.

Lemma append_length (s1 s2 : string) :
  String.length (String.append s1 s2) =
  (String.length s1 + String.length s2)%nat.
Proof.
  induction s1 as [|c s1 IH]; [done|].
  change (S (String.length (String.append s1 s2)) =
          S (String.length s1 + String.length s2)). by rewrite IH.
Qed.

(** X19: the description that Register builds for a peer fits its buffer
    of 100 bytes with the terminating NUL, whatever the length of the
    name: it is "node-" followed by the name when the name has at most 94
    bytes, and "node-" followed by the first 94 bytes of the name
    otherwise, which fills the buffer exactly. *)
Theorem X19_description_fits name :
  (String.length (register_description name) + 1 <= description_size)%nat /\
  ((String.length name <= 94)%nat ->
   register_description name = String.append "node-" name) /\
  ((94 < String.length name)%nat ->
   register_description name =
     String.append "node-" (String.substring 0 94 name) /\
   (String.length (register_description name) + 1 = description_size)%nat).
Proof.
  unfold register_description, strncat, description_size. cbn zeta.
  change (100 - String.length "node-" - 1)%nat with 94%nat.
  rewrite append_length, substring_length.
  change (String.length "node-") with 5%nat.
  split; [lia|]. split.
  - intros H. by rewrite substring_all.
  - intros H. split; [done|lia].
Qed.

(** ** Reference counts of jobs *)

Lemma filter_snoc_out (a : addr) (l : list addr) :
  a ∉ l -> filter (fun x => x <> a) (l ++ [a]) = l.
Proof.
  intros Ha. rewrite filter_app, filter_cons_False, filter_nil, app_nil_r
    by (intros ?; done).
  induction l as [|x l IH]; [done|].
  apply not_elem_of_cons in Ha as [Hne Ha].
  rewrite filter_cons_True by congruence. by rewrite IH.
Qed.

(** X20: reference counting of a job [j] that is allocated at [a] with a
    count that is not 0.  [job_ref] followed by [job_unref] changes
    nothing, and so does [orch_add_job] followed by [orch_remove_job] for
    a job that is not in the queue.  [job_unref] of the last reference
    frees the job: the cell is gone, and a further [job_unref] through the
    dangling pointer is a use after free. *)
Theorem X20_job_references w a j :
  heap w !! a = Some j -> job_ref_count j <> 0 ->
  (x <- job_ref a ;; job_unref x) w = Ok (tt, w) /\
  ((a ∉ jobs w) -> (orch_add_job a ;; orch_remove_job a) w = Ok (tt, w)) /\
  (job_ref_count j = 1 ->
   job_unref a w = Ok (tt, set_heap (delete a (heap w)) w) /\
   (job_unref a ;; job_unref a) w = Abort UseAfterFree).
Proof.
  intros Hj Hrc.
  assert (Hback : set_job_ref_count (job_ref_count j + 1 - 1)
                    (set_job_ref_count (job_ref_count j + 1) j) = j).
  { clear. destruct j. norm_job. f_equal. lia. }
  split; [|split].
  - unfold job_ref, job_unref. exec. simpl_job. rewrite Hback.
    destruct (Z.eqb_spec (job_ref_count j + 1 - 1) 0); [lia|].
    rewrite insert_id by done. by destruct w.
  - intros Ha. unfold orch_add_job, orch_remove_job, job_ref, job_unref.
    exec. simpl_job. rewrite Hback, filter_snoc_out by done.
    destruct (Z.eqb_spec (job_ref_count j + 1 - 1) 0); [lia|].
    rewrite insert_id by done. by destruct w.
  - intros H1. unfold job_unref. exec. simpl_job. rewrite H1.
    change (1 - 1 =? 0) with true. exec. rewrite delete_insert_eq.
    split; [done|]. by exec.
Qed.

Lemma X20_job_references_witness :
  exists w j, run [EvIsolateAll (MethodCall "t") queue_ok] init = Ok w /\
    heap w !! 0%nat = Some j /\ job_ref_count j <> 0 /\
    (x <- job_ref 0 ;; job_unref x) w = Ok (tt, w) /\
    ((0%nat ∉ jobs w) ->
     (orch_add_job 0 ;; orch_remove_job 0) w = Ok (tt, w)) /\
    (job_ref_count j = 1 ->
     job_unref 0 w = Ok (tt, set_heap (delete 0%nat (heap w)) w) /\
     (job_unref 0 ;; job_unref 0) w = Abort UseAfterFree).
Proof.
  eexists _, _. split; [vm_compute; reflexivity|].
  split; [vm_compute; reflexivity|]. split; [discriminate|].
  apply X20_job_references; [vm_compute; reflexivity|discriminate].
Defined.

(** ** Progress *)

Lemma Progress_frame w w' :
  Progress w -> current_job w' = current_job w -> jobs w' = jobs w ->
  job_source w' = job_source w -> calls w' = calls w -> Progress w'.
Proof. unfold Progress. by intros H -> -> -> ->. Qed.

Lemma Progress_step ev w w' :
  Sched w -> Progress w -> defer_succeeds ev ->
  step ev w = Ok (tt, w') -> Progress w'.
Proof.
  intros HS [Hidle Hbusy] Hev Hrun.
  assert (Hnode : node_frame w w' -> Progress w').
  { intros (_ & Hc & Hs & Hj & _ & Hcs & _).
    by apply (Progress_frame w). }
  destruct ev as [m e|rpc d|k err d|e|node m e|node].
  - apply step_isolate_all_inv in Hrun as [Hf|[->|(target & _ & ->)]].
    + by apply Hnode.
    + by apply (Progress_frame w).
    + cbn in Hev. unfold Progress. cbn. unfold scheduled. rewrite Hev.
      pose proof (sch_src w HS) as Hsrc.
      destruct (current_job w) as [a|] eqn:Hc.
      * split; [done|]. intros _. by apply Hbusy.
      * split; [|done]. intros _ _.
        destruct (job_source w) as [[]|]; try done. by destruct Hsrc.
  - apply step_defer_inv in Hrun as
      [[_ ->]|[(b & rest & j & _ & Hc & Hjs & Hj & Hns & ->)|
               (a & j & rest & _ & Hc & Hcs & Hjs & Hj &
                [[-> ->]|(b & rest' & jb & -> & Hjb & Hns & ->)])]];
      [done| | | |done].
    + split; cbn; [done|]. intros _ [_ H]%app_eq_nil. by destruct (nodes w).
    + by split.
    + split; cbn; [done|]. intros _ [_ H]%app_eq_nil. by destruct (nodes w).
  - cbn in Hev. subst d.
    apply step_reply_inv in Hrun
      as [[_ ->]|(c & j & Hk & Hc & Hj & ->)]; [done| |done].
    destruct (Sched_current w _ HS Hc)
      as (j0 & rest & Hjs & Hj0 & _ & _ & _ & _ & _ & Hout).
    assert (j0 = j) as -> by congruence.
    split; cbn; [by rewrite Hc|]. intros _ Hdel.
    assert (Hlen : length (calls w) = 1%nat).
    { apply (f_equal length) in Hdel. rewrite length_delete in Hdel by eauto.
      cbn in Hdel. apply lookup_lt_Some in Hk. lia. }
    rewrite Hout, Hlen. done.
  - eapply Hnode, step_node_frame, Hrun. done.
  - eapply Hnode, step_node_frame, Hrun. done.
  - eapply Hnode, step_node_frame, Hrun. done.
Qed.

Lemma Progress_run evs : forall w w',
  Sched w -> Progress w -> Forall defer_succeeds evs ->
  run evs w = Ok w' -> Progress w'.
Proof.
  induction evs as [|ev evs IH]; intros w w' HS HP Hevs; [by intros [= <-]|].
  inversion_clear Hevs as [|? ? Hev Hevs'].
  intros (w1 & Hs & Hr)%run_cons. eapply IH; [| |done|exact Hr].
  - by eapply Sched_step.
  - by eapply Progress_step.
Qed.

(** X21: in a run from the initial orchestrator in which
    [sd_event_add_defer] never fails, the scheduler never stalls: between
    two callbacks, when jobs wait and none is current, the deferred start
    is pending; when a job is current, an Isolate call of it is
    outstanding or its deferred finish is pending.  So a job of the queue
    is started and removed as the callbacks that are due arrive. *)
Theorem X21_queue_never_stalls evs w :
  run evs init = Ok w -> Forall defer_succeeds evs ->
  (current_job w = None -> jobs w <> [] -> job_source w = Some StartCb) /\
  (forall a, current_job w = Some a ->
     (exists k c, calls w !! k = Some c /\ call_job c = a) \/
     job_source w = Some FinishCb).
Proof.
  intros Hrun Hevs. pose proof (Sched_reachable _ _ Hrun) as HS.
  destruct (Progress_run evs init w Sched_init) as [Hidle Hbusy];
    [by split|done|done|].
  split; [done|]. intros a Hc.
  destruct (calls w) as [|c cs] eqn:Hcs.
  - right. apply Hbusy; [congruence|done].
  - left. exists 0%nat, c. split; [done|].
    assert (Hin : c ∈ calls w) by (rewrite Hcs; apply elem_of_cons; by left).
    apply (sch_calls w HS) in Hin. congruence.
Qed.

Lemma X21_queue_never_stalls_witness :
  exists w, run (take 5 queued_second_run) init = Ok w /\
    Forall defer_succeeds (take 5 queued_second_run) /\
    (current_job w = None -> jobs w <> [] -> job_source w = Some StartCb) /\
    (forall a, current_job w = Some a ->
       (exists k c, calls w !! k = Some c /\ call_job c = a) \/
       job_source w = Some FinishCb).
Proof.
  eexists. split; [vm_compute; reflexivity|].
  split; [repeat constructor|].
  apply (X21_queue_never_stalls (take 5 queued_second_run));
    [vm_compute; reflexivity|repeat constructor].
Defined.
